(** * HermesDB: the LRU-K replacer and the extendible hash table

    A shallow embedding of [lruk] (the [FrameIdT] replacer) and of
    [extendiblehashtable] with its [bucket]s, and the properties of the
    specification that concern them. *)

From stdpp Require Import gmap strings list fin_maps fin_sets.
From Stdlib Require Import ZArith NArith Lia.

#[local] Set Warnings "-clear-no-such-hyp".

Open Scope N_scope.

(** Modelled from the spec: package [define] (the declarations of [SizeT]
    and [FrameIdT]) is missing from the sources.  The specification gives
    [SizeT] as "a non-negative integer" and [FrameIdT] as an "unsigned
    integer"; both are taken as [N], with exact arithmetic.  The conversion
    [FrameIdT(r.replacerSize)] is then the identity.  The decrements of
    [currSize] are written with the subtraction of [N]; in the reachable
    states they are only run on a [currSize] that is not 0 ([cl_currSize]
    below states the result as [currSize r' + 1 = currSize r]). *)
Abbreviation SizeT := N.
Abbreviation FrameIdT := N.

(** ** The LRU-K replacer (lruk, [FrameIdT] revision) *)
Module Lruk.

(** The three ways an operation aborts: the [panic] of [checkOverstep], the
    [panic] of [Remove] on a frame that is not evictable, and the nil
    dereference inside [list.Remove] when it is handed a nil [*Element]. *)
Inductive error :=
  | ErrOverstep (frameId : FrameIdT)
  | ErrCannotRemove (frameId : FrameIdT)
  | ErrNilElement.

Inductive result (A : Type) :=
  | Ok (a : A)
  | Panic (e : error).
Arguments Ok {A} a.
Arguments Panic {A} e.

Definition bind {A B} (m : result A) (f : A → result B) : result B :=
  match m with
  | Ok a => f a
  | Panic e => Panic e
  end.

(** [container/list]: a list is the sequence of its elements, front first.
    An element is a heap cell; [eptr] is its address, which is what the
    maps [historyMap] and [cacheMap] store. *)
Record Element := mkElement { eptr : nat; Value : FrameIdT }.

#[global] Instance Element_eq_dec : EqDecision Element.
Proof. solve_decision. Defined.

(** [l.Remove(e)]: unlinks [e] if it is an element of [l], else nothing. *)
Definition list_Remove (l : list Element) (e : nat) : list Element :=
  filter (λ x, eptr x ≠ e) l.

Record LRUKReplacer := mkReplacer {
  currSize : SizeT;
  replacerSize : SizeT;
  k : SizeT;
  historyList : list Element;
  historyMap : gmap N nat;
  cacheList : list Element;
  cacheMap : gmap N nat;
  accessCount : gmap N N;
  isEvictable : gmap N bool;
  (** the address the next [PushFront] allocates *)
  nextElem : nat
}.

Definition NewLRUKReplacer (numFrames k : SizeT) : LRUKReplacer :=
  {| currSize := 0; replacerSize := numFrames; k := k;
     historyList := []; historyMap := ∅;
     cacheList := []; cacheMap := ∅;
     accessCount := ∅; isEvictable := ∅;
     nextElem := O |}.

(** [r.isEvictable[frameId]]: a missing key reads as [false]. *)
Definition evictable (r : LRUKReplacer) (frameId : FrameIdT) : bool :=
  default false (isEvictable r !! frameId).

Definition checkOverstep (r : LRUKReplacer) (frameId : FrameIdT) : result unit :=
  if replacerSize r <? frameId then Panic (ErrOverstep frameId) else Ok tt.

Definition clearFrame (r : LRUKReplacer) (frameId : FrameIdT) : LRUKReplacer :=
  {| currSize := currSize r - 1; replacerSize := replacerSize r; k := k r;
     historyList := historyList r; historyMap := historyMap r;
     cacheList := cacheList r; cacheMap := cacheMap r;
     accessCount := delete frameId (accessCount r);
     isEvictable := delete frameId (isEvictable r);
     nextElem := nextElem r |}.

(** The scan [for e := l.Back(); e != nil; e = e.Prev()] that stops at the
    first element whose frame is evictable; it is run on the reversed list. *)
Fixpoint scan (r : LRUKReplacer) (back_to_front : list Element) : option Element :=
  match back_to_front with
  | [] => None
  | e :: rest => if evictable r (Value e) then Some e else scan r rest
  end.

Definition Evict (r : LRUKReplacer) : (FrameIdT * bool) * LRUKReplacer :=
  if currSize r =? 0 then ((0, false), r)
  else
    match scan r (reverse (historyList r)) with
    | Some e =>
        let frameId := Value e in
        let r1 :=
          {| currSize := currSize r; replacerSize := replacerSize r; k := k r;
             historyList := list_Remove (historyList r) (eptr e);
             historyMap := delete frameId (historyMap r);
             cacheList := cacheList r; cacheMap := cacheMap r;
             accessCount := accessCount r; isEvictable := isEvictable r;
             nextElem := nextElem r |} in
        ((frameId, true), clearFrame r1 frameId)
    | None =>
        match scan r (reverse (cacheList r)) with
        | Some e =>
            let frameId := Value e in
            let r1 :=
              {| currSize := currSize r; replacerSize := replacerSize r; k := k r;
                 historyList := historyList r; historyMap := historyMap r;
                 cacheList := list_Remove (cacheList r) (eptr e);
                 cacheMap := delete frameId (cacheMap r);
                 accessCount := accessCount r; isEvictable := isEvictable r;
                 nextElem := nextElem r |} in
            ((frameId, true), clearFrame r1 frameId)
        | None => ((0, false), r)
        end
    end.

(** [r.cacheList.PushFront(frameId); r.cacheMap[frameId] = r.cacheList.Front()] *)
Definition pushCache (r : LRUKReplacer) (frameId : FrameIdT) : LRUKReplacer :=
  {| currSize := currSize r; replacerSize := replacerSize r; k := k r;
     historyList := historyList r; historyMap := historyMap r;
     cacheList := mkElement (nextElem r) frameId :: cacheList r;
     cacheMap := <[frameId := nextElem r]> (cacheMap r);
     accessCount := accessCount r; isEvictable := isEvictable r;
     nextElem := S (nextElem r) |}.

(** [r.historyList.PushFront(frameId); r.historyMap[frameId] = r.historyList.Front()] *)
Definition pushHistory (r : LRUKReplacer) (frameId : FrameIdT) : LRUKReplacer :=
  {| currSize := currSize r; replacerSize := replacerSize r; k := k r;
     historyList := mkElement (nextElem r) frameId :: historyList r;
     historyMap := <[frameId := nextElem r]> (historyMap r);
     cacheList := cacheList r; cacheMap := cacheMap r;
     accessCount := accessCount r; isEvictable := isEvictable r;
     nextElem := S (nextElem r) |}.

Definition setHistory (r : LRUKReplacer) (l : list Element) (m : gmap N nat) : LRUKReplacer :=
  {| currSize := currSize r; replacerSize := replacerSize r; k := k r;
     historyList := l; historyMap := m;
     cacheList := cacheList r; cacheMap := cacheMap r;
     accessCount := accessCount r; isEvictable := isEvictable r;
     nextElem := nextElem r |}.

Definition setCache (r : LRUKReplacer) (l : list Element) (m : gmap N nat) : LRUKReplacer :=
  {| currSize := currSize r; replacerSize := replacerSize r; k := k r;
     historyList := historyList r; historyMap := historyMap r;
     cacheList := l; cacheMap := m;
     accessCount := accessCount r; isEvictable := isEvictable r;
     nextElem := nextElem r |}.

(** The body of [RecordAccess] after the range check. *)
Definition recordAccess (r : LRUKReplacer) (frameId : FrameIdT) : result LRUKReplacer :=
  (* r.accessCount[frameId]++ *)
  let count := default 0 (accessCount r !! frameId) + 1 in
  let r :=
    {| currSize := currSize r; replacerSize := replacerSize r; k := k r;
       historyList := historyList r; historyMap := historyMap r;
       cacheList := cacheList r; cacheMap := cacheMap r;
       accessCount := <[frameId := count]> (accessCount r);
       isEvictable := isEvictable r; nextElem := nextElem r |} in
  if count =? k r then
    (* history -> cache *)
    match historyMap r !! frameId with
    | None => Panic ErrNilElement
    | Some e =>
        let r := setHistory r (list_Remove (historyList r) e)
                   (delete frameId (historyMap r)) in
        Ok (pushCache r frameId)
    end
  else if k r <? count then
    (* cache *)
    let r :=
      match cacheMap r !! frameId with
      | Some e => setCache r (list_Remove (cacheList r) e) (cacheMap r)
      | None => r
      end in
    Ok (pushCache r frameId)
  else
    (* history *)
    let r :=
      match historyMap r !! frameId with
      | Some e => setHistory r (list_Remove (historyList r) e) (historyMap r)
      | None => r
      end in
    Ok (pushHistory r frameId).

Definition RecordAccess (r : LRUKReplacer) (frameId : FrameIdT) : result LRUKReplacer :=
  bind (checkOverstep r frameId) (λ _, recordAccess r frameId).

(** The body of [SetEvictable] after the range check. *)
Definition setEvictable (r : LRUKReplacer) (frameId : FrameIdT) (isEvict : bool)
  : LRUKReplacer :=
  match accessCount r !! frameId with
  | None => r
  | Some _ =>
      let sizeChange := if bool_decide (isEvict = evictable r frameId) then 0 else 1 in
      {| currSize := if isEvict then currSize r + sizeChange
                     else currSize r - sizeChange;
         replacerSize := replacerSize r; k := k r;
         historyList := historyList r; historyMap := historyMap r;
         cacheList := cacheList r; cacheMap := cacheMap r;
         accessCount := accessCount r;
         isEvictable := <[frameId := isEvict]> (isEvictable r);
         nextElem := nextElem r |}
  end.

Definition SetEvictable (r : LRUKReplacer) (frameId : FrameIdT) (isEvict : bool)
  : result LRUKReplacer :=
  bind (checkOverstep r frameId) (λ _, Ok (setEvictable r frameId isEvict)).

(** The body of [Remove] after the range check. *)
Definition remove (r : LRUKReplacer) (frameId : FrameIdT) : result LRUKReplacer :=
  match accessCount r !! frameId with
  | None => Ok r
  | Some count =>
      if negb (evictable r frameId) then Panic (ErrCannotRemove frameId)
      else if k r <=? count then
        match cacheMap r !! frameId with
        | None => Panic ErrNilElement
        | Some e =>
            Ok (clearFrame (setCache r (list_Remove (cacheList r) e)
                              (delete frameId (cacheMap r))) frameId)
        end
      else
        match historyMap r !! frameId with
        | None => Panic ErrNilElement
        | Some e =>
            Ok (clearFrame (setHistory r (list_Remove (historyList r) e)
                              (delete frameId (historyMap r))) frameId)
        end
  end.

Definition Remove (r : LRUKReplacer) (frameId : FrameIdT) : result LRUKReplacer :=
  bind (checkOverstep r frameId) (λ _, remove r frameId).

Definition Size (r : LRUKReplacer) : SizeT := currSize r.

(** *** Reachable states *)

Inductive op :=
  | OpRecordAccess (frameId : FrameIdT)
  | OpSetEvictable (frameId : FrameIdT) (isEvict : bool)
  | OpEvict
  | OpRemove (frameId : FrameIdT).

Definition step (r : LRUKReplacer) (o : op) : result LRUKReplacer :=
  match o with
  | OpRecordAccess f => RecordAccess r f
  | OpSetEvictable f b => SetEvictable r f b
  | OpEvict => Ok (snd (Evict r))
  | OpRemove f => Remove r f
  end.

(** Runs a sequence of calls, stopping at the first one that aborts. *)
Fixpoint run (r : LRUKReplacer) (os : list op) : result LRUKReplacer :=
  match os with
  | [] => Ok r
  | o :: os => bind (step r o) (λ r', run r' os)
  end.

(** The states a replacer goes through when no call aborts. *)
Inductive reachable (numFrames k0 : SizeT) : LRUKReplacer → Prop :=
  | reach_new : reachable numFrames k0 (NewLRUKReplacer numFrames k0)
  | reach_step r o r' :
      reachable numFrames k0 r → step r o = Ok r' → reachable numFrames k0 r'.

(** The tracked frames whose flag is set, and their number. *)
Definition evictable_frames (r : LRUKReplacer) : gset N :=
  filter (λ f, isEvictable r !! f = Some true) (dom (accessCount r)).

Definition evictable_count (r : LRUKReplacer) : N :=
  N.of_nat (size (evictable_frames r)).

(** The frames of a list, front first. *)
Definition frames (l : list Element) : list FrameIdT := Value <$> l.

(** [f] is the backmost frame of [l] whose flag is set. *)
Definition backmost_evictable (r : LRUKReplacer) (l : list Element) (f : FrameIdT) : Prop :=
  ∃ l1 e l2, l = l1 ++ e :: l2 ∧ Value e = f ∧ evictable r f = true ∧
             ∀ x, x ∈ l2 → evictable r (Value x) = false.

(** No frame of [l] has its flag set. *)
Definition no_evictable (r : LRUKReplacer) (l : list Element) : Prop :=
  ∀ x, x ∈ l → evictable r (Value x) = false.

(** A list and the map of its element handles agree. *)
Definition linked (l : list Element) (m : gmap N nat) : Prop :=
  NoDup (eptr <$> l) ∧ ∀ f e, m !! f = Some e ↔ mkElement e f ∈ l.

(** The invariant of the replacer: the element addresses in use are below
    [nextElem]; each list agrees with its map; a frame is in the history
    list exactly when it is tracked with a count below [k], in the cache
    list exactly when it is tracked with a count of [k] or more; only
    tracked frames have a flag; [currSize] counts the evictable frames. *)
Record wf (r : LRUKReplacer) : Prop := mkWf {
  wf_fresh_h : ∀ x, x ∈ historyList r → (eptr x < nextElem r)%nat;
  wf_fresh_c : ∀ x, x ∈ cacheList r → (eptr x < nextElem r)%nat;
  wf_hist : linked (historyList r) (historyMap r);
  wf_cache : linked (cacheList r) (cacheMap r);
  wf_hist_count : ∀ f, is_Some (historyMap r !! f) ↔
                       ∃ c, accessCount r !! f = Some c ∧ c < k r;
  wf_cache_count : ∀ f, is_Some (cacheMap r !! f) ↔
                        ∃ c, accessCount r !! f = Some c ∧ k r ≤ c;
  wf_flag_tracked : ∀ f, is_Some (isEvictable r !! f) → is_Some (accessCount r !! f);
  wf_size : currSize r = evictable_count r
}.

(** *** The states of the scenarios, and what a cleared frame leaves *)

(** What the two clearing paths shared by [Evict] and [Remove] leave. *)
Record cleared (r r' : LRUKReplacer) (f : FrameIdT) : Prop := mkCleared {
  cl_history : frames (historyList r') = filter (λ x, x ≠ f) (frames (historyList r));
  cl_cache : frames (cacheList r') = filter (λ x, x ≠ f) (frames (cacheList r));
  cl_not_history : f ∉ frames (historyList r');
  cl_not_cache : f ∉ frames (cacheList r');
  cl_historyMap : historyMap r' !! f = None;
  cl_cacheMap : cacheMap r' !! f = None;
  cl_accessCount : accessCount r' !! f = None;
  cl_isEvictable : isEvictable r' !! f = None;
  cl_others : ∀ x, x ≠ f →
      historyMap r' !! x = historyMap r !! x ∧ cacheMap r' !! x = cacheMap r !! x ∧
      accessCount r' !! x = accessCount r !! x ∧ isEvictable r' !! x = isEvictable r !! x;
  cl_currSize : currSize r' + 1 = currSize r;
  cl_config : replacerSize r' = replacerSize r ∧ k r' = k r
}.

(** The state after a sequence of calls on a fresh replacer (the fresh
    replacer itself if one of them aborts). *)
Definition after (numFrames k0 : SizeT) (os : list op) : LRUKReplacer :=
  match run (NewLRUKReplacer numFrames k0) os with
  | Ok r => r
  | Panic _ => NewLRUKReplacer numFrames k0
  end.

(** Scenario A of the specification up to the first [Evict]. *)
Definition scenarioA : list op :=
  [OpRecordAccess 1; OpRecordAccess 2; OpRecordAccess 3; OpRecordAccess 4;
   OpRecordAccess 5; OpRecordAccess 6;
   OpSetEvictable 1 true; OpSetEvictable 2 true; OpSetEvictable 3 true;
   OpSetEvictable 4 true; OpSetEvictable 5 true; OpSetEvictable 6 false;
   OpRecordAccess 1].

(** Frame 1, then frame 2, then frame 1 again; both made evictable. *)
Definition repeatAccess : list op :=
  [OpRecordAccess 1; OpRecordAccess 2; OpRecordAccess 1;
   OpSetEvictable 1 true; OpSetEvictable 2 true].

(** What the calls of [Evict] in a sequence of calls return. *)
Fixpoint evicted (r : LRUKReplacer) (os : list op) : list (FrameIdT * bool) :=
  match os with
  | [] => []
  | OpEvict :: os => fst (Evict r) :: evicted (snd (Evict r)) os
  | o :: os =>
      match step r o with
      | Ok r' => evicted r' os
      | Panic _ => []
      end
  end.

(** The calls of [TestSampleLRUK]. *)
Definition testSampleLRUK : list op :=
  scenarioA ++
  [OpEvict; OpEvict; OpEvict;
   OpRecordAccess 3; OpRecordAccess 4; OpRecordAccess 5; OpRecordAccess 4;
   OpSetEvictable 3 true; OpSetEvictable 4 true;
   OpEvict;
   OpSetEvictable 6 true;
   OpEvict;
   OpSetEvictable 1 false;
   OpEvict;
   OpRecordAccess 1; OpRecordAccess 1; OpSetEvictable 1 true;
   OpEvict; OpEvict; OpEvict;
   OpRemove 1].

(** The tracked frames are in range, and counted from 1. *)
Definition tracked_ok (r : LRUKReplacer) : Prop :=
  ∀ f c, accessCount r !! f = Some c → f ≤ replacerSize r ∧ 1 ≤ c.

(** [n] calls of [Evict] in a row: what they return, first call first, and
    the state they leave. *)
Fixpoint evictN (n : nat) (r : LRUKReplacer) : list (FrameIdT * bool) * LRUKReplacer :=
  match n with
  | O => ([], r)
  | S n =>
      let '(res, r1) := Evict r in
      let '(l, r2) := evictN n r1 in
      (res :: l, r2)
  end.

End Lruk.

(** ** The extendible hash table (extendiblehashtable, bucket, helper) *)
Module Eht.

Open Scope Z_scope.

(** *** helper.Hash32 *)

(** [fnv.New32()] of Go's standard library is the 32-bit FNV-1 hash: for
    every byte, multiply by the prime modulo 2^32, then xor the byte in. *)
Definition offset32 : Z := 2166136261.
Definition prime32 : Z := 16777619.

Fixpoint fnv1 (h : Z) (s : string) : Z :=
  match s with
  | EmptyString => h
  | String c s' =>
      fnv1 (Z.lxor ((h * prime32) mod 2^32) (Z.of_N (Ascii.N_of_ascii c))) s'
  end.

Definition Hash32 (key : string) : Z := fnv1 offset32 key.

(** How a call ends: it returns, it panics (an index out of range), or the
    fuel given to its loops runs out. *)
Inductive outcome (A : Type) :=
  | Done (a : A)
  | Crash
  | Timeout.
Arguments Done {A} a.
Arguments Crash {A}.
Arguments Timeout {A}.

Definition wrap32 (z : Z) : Z := z mod 2^32.

(** [uint32((1 << e.globalDepth) - 1)]: the constant 1 is a [uint32]. *)
Definition mask32 (globalDepth : SizeT) : Z :=
  wrap32 (wrap32 (Z.shiftl 1 (Z.of_N globalDepth)) - 1).

(** *** bucket *)

Section Table.

(** The values, [any] in the source. *)
Context {V : Type}.

Record Entry := mkEntry { key : string; value : V }.

(** [items] is the field [list] of the source. *)
Record Bucket := mkBucket { size : SizeT; depth : SizeT; items : list Entry }.

Definition NewBucket (size depth : SizeT) : Bucket :=
  {| size := size; depth := depth; items := [] |}.

Fixpoint find_entry (l : list Entry) (k : string) : option V :=
  match l with
  | [] => None
  | entry :: rest => if decide (key entry = k) then Some (value entry) else find_entry rest k
  end.

(** [(value, true)] is [Some value], [(nil, false)] is [None]. *)
Definition Bucket_Find (b : Bucket) (k : string) : option V := find_entry (items b) k.

(** The loop of [Bucket.Remove]: unlinks the first entry with the key. *)
Fixpoint remove_entry (l : list Entry) (k : string) : option (list Entry) :=
  match l with
  | [] => None
  | entry :: rest =>
      if decide (key entry = k) then Some rest
      else (cons entry) <$> (remove_entry rest k)
  end.

Definition Bucket_Remove (b : Bucket) (k : string) : bool * Bucket :=
  match remove_entry (items b) k with
  | Some l => (true, {| size := size b; depth := depth b; items := l |})
  | None => (false, b)
  end.

(** The loop of [Bucket.Insert]: overwrites the value of the first entry
    with the key. *)
Fixpoint update_entry (l : list Entry) (k : string) (v : V) : option (list Entry) :=
  match l with
  | [] => None
  | entry :: rest =>
      if decide (key entry = k) then Some ({| key := key entry; value := v |} :: rest)
      else (cons entry) <$> (update_entry rest k v)
  end.

Definition IsFull (b : Bucket) : bool := (size b =? N.of_nat (length (items b)))%N.

Definition Bucket_Insert (b : Bucket) (k : string) (v : V) : bool * Bucket :=
  match update_entry (items b) k v with
  | Some l => (true, {| size := size b; depth := depth b; items := l |})
  | None =>
      if IsFull b then (false, b)
      else (true, {| size := size b; depth := depth b;
                     items := items b ++ [{| key := k; value := v |}] |})
  end.

Definition IncrementDepth (b : Bucket) : Bucket :=
  {| size := size b; depth := (depth b + 1)%N; items := items b |}.

(** *** extendiblehashtable *)

(** A [*Bucket] is an address in [heap], the buckets allocated so far;
    [NewBucket] allocates at the end. *)
Record ExtendibleHashTable := mkTable {
  globalDepth : SizeT;
  bucketSize : SizeT;
  numBuckets : SizeT;
  dir : list nat;
  heap : list Bucket
}.

Definition NewExtendibleHashTable (bucketSize : SizeT) : ExtendibleHashTable :=
  {| globalDepth := 0; bucketSize := bucketSize; numBuckets := 1;
     dir := [O]; heap := [NewBucket bucketSize 0] |}.

Definition IndexOf (e : ExtendibleHashTable) (k : string) : Z :=
  Z.land (Hash32 k) (mask32 (globalDepth e)).

(** [e.dir[index]] and the bucket it points to. *)
Definition bucketAt (e : ExtendibleHashTable) (index : Z) : option (nat * Bucket) :=
  match dir e !! Z.to_nat index with
  | None => None
  | Some p =>
      match heap e !! p with
      | None => None
      | Some b => Some (p, b)
      end
  end.

Definition setHeap (e : ExtendibleHashTable) (h : list Bucket) : ExtendibleHashTable :=
  {| globalDepth := globalDepth e; bucketSize := bucketSize e;
     numBuckets := numBuckets e; dir := dir e; heap := h |}.

Definition Find (e : ExtendibleHashTable) (k : string) : outcome (option V) :=
  match bucketAt e (IndexOf e k) with
  | None => Crash
  | Some (_, targetBucket) => Done (Bucket_Find targetBucket k)
  end.

Definition Remove (e : ExtendibleHashTable) (k : string)
  : outcome (bool * ExtendibleHashTable) :=
  match bucketAt e (IndexOf e k) with
  | None => Crash
  | Some (p, targetBucket) =>
      let (removed, b) := Bucket_Remove targetBucket k in
      Done (removed, setHeap e (<[p := b]> (heap e)))
  end.

(** The doubling loop of extendiblehashtable.go,
    [for i := 0; i < len(e.dir); i++ { e.dir = append(e.dir, e.dir[i]) }]:
    the bound is read again at every iteration. *)
Fixpoint appendLoop (fuel : nat) (i : nat) (dir : list nat) : option (list nat) :=
  match fuel with
  | O => None
  | S fuel =>
      if decide (i < length dir)%nat then
        match dir !! i with
        | Some p => appendLoop fuel (S i) (dir ++ [p])
        | None => None
        end
      else Some dir
  end.

(** The doubling loop of the later revision of the file,
    [capacity := len(e.dir); for i := 0; i < capacity; i++ { ... }]:
    [todo] is [capacity - i]. *)
Fixpoint appendUpTo (todo : nat) (i : nat) (dir : list nat) : list nat :=
  match todo with
  | O => dir
  | S todo =>
      match dir !! i with
      | Some p => appendUpTo todo (S i) (dir ++ [p])
      | None => dir
      end
  end.

Definition appendCapacity (dir : list nat) : list nat :=
  appendUpTo (length dir) 0 dir.

(** The loop [for i := uint32(0); i < uint32(len(e.dir)); i++] that
    redirects the slots of [targetBucket]. *)
Definition redirect (targetBucket bucket0 bucket1 : nat) (localDepthMask : Z)
    (d : list nat) (i : nat) : list nat :=
  match d !! i with
  | Some p =>
      if decide (p = targetBucket) then
        if Z.land (Z.of_nat i) localDepthMask =? 0 then <[i := bucket0]> d
        else <[i := bucket1]> d
      else d
  | None => d
  end.

Definition redistribute (targetBucket bucket0 bucket1 : nat) (localDepthMask : Z)
    (d : list nat) : list nat :=
  foldl (redirect targetBucket bucket0 bucket1 localDepthMask) d
    (seq 0 (Z.to_nat (wrap32 (Z.of_nat (length d))))).

(** The loop over the items of the old bucket,
    [e.dir[e.IndexOf(entry.key)].Insert(entry.key, entry.value)]. *)
Fixpoint reinsert (e : ExtendibleHashTable) (entries : list Entry)
  : outcome ExtendibleHashTable :=
  match entries with
  | [] => Done e
  | entry :: rest =>
      match bucketAt e (IndexOf e (key entry)) with
      | None => Crash
      | Some (p, b) =>
          let b := snd (Bucket_Insert b (key entry) (value entry)) in
          reinsert (setHeap e (<[p := b]> (heap e))) rest
      end
  end.

(** The first half of a turn of the loop of [Insert]: if the local depth
    of the bucket of the key equals the global depth, increment the global
    depth and double the directory.  [double] is the doubling loop, which
    gives [None] when it runs out of fuel. *)
Definition growDirectory (double : list nat → option (list nat))
    (e : ExtendibleHashTable) (k : string) : outcome ExtendibleHashTable :=
  match bucketAt e (IndexOf e k) with
  | None => Crash
  | Some (_, b) =>
      if (depth b =? globalDepth e)%N then
        match double (dir e) with
        | Some d =>
            Done {| globalDepth := (globalDepth e + 1)%N; bucketSize := bucketSize e;
                    numBuckets := numBuckets e; dir := d; heap := heap e |}
        | None => Timeout
        end
      else Done e
  end.

(** The second half: increment the local depth of the bucket, allocate
    [bucket0] and [bucket1], redirect the slots of the old bucket and insert
    its items again. *)
Definition splitBucket (e : ExtendibleHashTable) (k : string)
  : outcome ExtendibleHashTable :=
  match bucketAt e (IndexOf e k) with
  | None => Crash
  | Some (targetBucket, b) =>
      let b := IncrementDepth b in
      let h := <[targetBucket := b]> (heap e) in
      let bucket0 := length h in
      let h := h ++ [NewBucket (bucketSize e) (depth b)] in
      let bucket1 := length h in
      let h := h ++ [NewBucket (bucketSize e) (depth b)] in
      let localDepthMask := wrap32 (Z.shiftl 1 (Z.of_N (depth b - 1))) in
      reinsert
        {| globalDepth := globalDepth e; bucketSize := bucketSize e;
           numBuckets := (numBuckets e + 1)%N;
           dir := redistribute targetBucket bucket0 bucket1 localDepthMask (dir e);
           heap := h |}
        (items b)
  end.

(** One turn of the loop of [Insert]. *)
Definition splitStep (double : list nat → option (list nat))
    (e : ExtendibleHashTable) (k : string) : outcome ExtendibleHashTable :=
  match growDirectory double e k with
  | Done e => splitBucket e k
  | Crash => Crash
  | Timeout => Timeout
  end.

(** [for !e.dir[e.IndexOf(key)].Insert(key, value) { ... }] *)
Fixpoint insertLoop (double : list nat → option (list nat)) (fuel : nat)
    (e : ExtendibleHashTable) (k : string) (v : V) : outcome ExtendibleHashTable :=
  match fuel with
  | O => Timeout
  | S fuel =>
      match bucketAt e (IndexOf e k) with
      | None => Crash
      | Some (p, b) =>
          let (accepted, b) := Bucket_Insert b k v in
          let e := setHeap e (<[p := b]> (heap e)) in
          if accepted then Done e
          else
            match splitStep double e k with
            | Done e => insertLoop double fuel e k v
            | Crash => Crash
            | Timeout => Timeout
            end
      end
  end.

(** [Insert] of extendiblehashtable.go. *)
Definition Insert (fuel : nat) (e : ExtendibleHashTable) (k : string) (v : V)
  : outcome ExtendibleHashTable :=
  insertLoop (appendLoop fuel 0) fuel e k v.

(** [Insert] of the later revision, whose doubling loop stops at
    [capacity]. *)
Definition Insert_capacity (fuel : nat) (e : ExtendibleHashTable) (k : string) (v : V)
  : outcome ExtendibleHashTable :=
  insertLoop (λ d, Some (appendCapacity d)) fuel e k v.

Definition GetGlobalDepth (e : ExtendibleHashTable) : SizeT := globalDepth e.

Definition GetLocalDepth (e : ExtendibleHashTable) (dirIndex : Z) : outcome SizeT :=
  match bucketAt e dirIndex with
  | None => Crash
  | Some (_, b) => Done (depth b)
  end.

Definition GetNumBuckets (e : ExtendibleHashTable) : SizeT := numBuckets e.

End Table.

Arguments Entry V : clear implicits.
Arguments Bucket V : clear implicits.
Arguments ExtendibleHashTable V : clear implicits.

(** *** The vocabulary of the properties *)

(** [a] and [b] have the same low [n] bits. *)
Definition agree (n : N) (a b : Z) : Prop := a mod 2 ^ Z.of_N n = b mod 2 ^ Z.of_N n.

#[global] Instance agree_dec n a b : Decision (agree n a b).
Proof. unfold agree. apply _. Defined.

Section Vocabulary.

Context {V : Type}.
Implicit Types (e : ExtendibleHashTable V) (b : Bucket V) (k : string) (v : V).
Implicit Types (l : list (Entry V)).

Definition keys l : list string := key <$> l.

(** What both doubling loops do when they return. *)
Definition doubles (double : list nat → option (list nat)) : Prop :=
  ∀ d d', double d = Some d' → d' = d ++ d.

(** The bucket [b] referenced at index [i]: its depth is at most the global
    depth, it has the size of the table and at most that many entries, no
    key twice, and the hash of every key has the low [depth b] bits of
    [i]. *)
Record bucket_ok e (i : nat) b : Prop := mkBucketOk {
  bo_depth : (depth b ≤ globalDepth e)%N;
  bo_size : size b = bucketSize e;
  bo_length : (N.of_nat (length (items b)) ≤ size b)%N;
  bo_nodup : NoDup (keys (items b));
  bo_hash : ∀ x, x ∈ items b → agree (depth b) (Hash32 (key x)) (Z.of_nat i)
}.

(** The directory has [2^globalDepth] slots, with [globalDepth] below 32;
    every slot holds a bucket that is fine there; and the slots that hold
    the bucket of slot [i] are those whose index has the low [depth] bits
    of [i]. *)
Record tbl_inv e : Prop := mkTblInv {
  ti_depth : (globalDepth e ≤ 31)%N;
  ti_length : Z.of_nat (length (dir e)) = 2 ^ Z.of_N (globalDepth e);
  ti_slot : ∀ i p, dir e !! i = Some p → ∃ b, heap e !! p = Some b ∧ bucket_ok e i b;
  ti_route : ∀ i j p b,
      dir e !! i = Some p → heap e !! p = Some b → (j < length (dir e))%nat →
      (dir e !! j = Some p ↔ agree (depth b) (Z.of_nat i) (Z.of_nat j))
}.

(** The table after the directory doubled. *)
Definition grown e : ExtendibleHashTable V :=
  {| globalDepth := (globalDepth e + 1)%N; bucketSize := bucketSize e;
     numBuckets := numBuckets e; dir := dir e ++ dir e; heap := heap e |}.

(** Everything but the contents of the heap is the same. *)
Definition same_frame e e' : Prop :=
  globalDepth e' = globalDepth e ∧ bucketSize e' = bucketSize e ∧
  numBuckets e' = numBuckets e ∧ dir e' = dir e ∧
  length (heap e') = length (heap e).

(** Bit [n] of the hash of the key of [x]: the side of the split it goes to. *)
Definition hash_side (n : N) (x : Entry V) : bool :=
  Z.testbit (Hash32 (key x)) (Z.of_N n).

Definition extended b (l : list (Entry V)) : Bucket V :=
  {| size := size b; depth := depth b; items := items b ++ l |}.

(** The slot a split gives to index [i]: [bucket1] if bit [n] of [i] is
    set, [bucket0] if not. *)
Definition split_slot (n : N) (n0 n1 : nat) (i : nat) : nat :=
  if Z.testbit (Z.of_nat i) (Z.of_N n) then n1 else n0.

(** The items of [b] that go the way of bit [depth b] equal to [c]. *)
Definition half b (c : bool) : list (Entry V) :=
  filter (λ x, hash_side (depth b) x = c) (items b).

(** The bucket of [k] is full and lacks [k], and the directory has 2^32
    slots or more, or is about to: from then on [uint32(len(e.dir))] is 0,
    the slots of the bucket are never redirected, and the bucket stays. *)
Definition doomed e k : Prop :=
  Z.of_nat (length (dir e)) = 2 ^ Z.of_N (globalDepth e) ∧
  ∃ p b, bucketAt e (IndexOf e k) = Some (p, b) ∧
         IsFull b = true ∧ (k ∉ keys (items b)) ∧
         ((32 ≤ globalDepth e)%N ∨ (globalDepth e = 31 ∧ depth b = 31)%N).

(** The tables reached from a new one by calls of [Insert] (given as [ins],
    for either revision) and [Remove] that return; [Find] leaves the table
    as it is. *)
Inductive reachable
    (ins : nat → ExtendibleHashTable V → string → V → outcome (ExtendibleHashTable V))
    (bs : SizeT) : ExtendibleHashTable V → Prop :=
  | reach_new : reachable ins bs (NewExtendibleHashTable bs)
  | reach_Insert e fuel k v e' :
      reachable ins bs e → ins fuel e k v = Done e' → reachable ins bs e'
  | reach_Remove e k r e' :
      reachable ins bs e → Remove e k = Done (r, e') → reachable ins bs e'.

(** Runs a sequence of insertions, stopping at the first that does not
    return. *)
Fixpoint insertAll
    (ins : nat → ExtendibleHashTable V → string → V → outcome (ExtendibleHashTable V))
    (fuel : nat) (e : ExtendibleHashTable V) (kvs : list (string * V))
  : outcome (ExtendibleHashTable V) :=
  match kvs with
  | [] => Done e
  | (k, v) :: kvs =>
      match ins fuel e k v with
      | Done e => insertAll ins fuel e kvs
      | Crash => Crash
      | Timeout => Timeout
      end
  end.

(** Some bucket referenced by the directory has an entry with key [k]. *)
Definition holds e k : Prop :=
  ∃ i p b, dir e !! i = Some p ∧ heap e !! p = Some b ∧ k ∈ keys (items b).

(** The entries whose hash has the low 31 bits of the hash of [k]: no
    split can part them from [k]. *)
Definition crowd k (l : list (Entry V)) : list (Entry V) :=
  filter (λ x, agree 31 (Hash32 (key x)) (Hash32 k)) l.

(** The buckets the directory refers to, and how many they are. *)
Definition referenced e : gset nat := list_to_set (dir e).

Definition distinct_buckets e : N := N.of_nat (base.size (referenced e)).

End Vocabulary.

#[local] Open Scope string_scope.

Definition scenarioD : list (string * string) :=
  [("1", "a"); ("2", "b"); ("3", "c"); ("4", "d"); ("5", "e");
   ("6", "f"); ("7", "g"); ("8", "h"); ("9", "i")].

(** The table of scenario D after its nine insertions, by the later
    revision of [Insert] (the new table if one of them does not return). *)
Definition tableD : ExtendibleHashTable string :=
  match insertAll Insert_capacity 8 (NewExtendibleHashTable 2) scenarioD with
  | Done e => e
  | _ => NewExtendibleHashTable 2
  end.

(** The three insertions of [TestConcurrentInsert], in the order 0, 1, 2. *)
Definition threeKeys : list (string * string) := [("0", "0"); ("1", "1"); ("2", "2")].

(** The table with bucket size 1 after ["479599"] is inserted; the hash of
    ["662382"] is the same. *)
Definition tableC : ExtendibleHashTable string :=
  match Insert_capacity 1 (NewExtendibleHashTable 1) "479599" "a" with
  | Done e => e
  | _ => NewExtendibleHashTable 1
  end.

(** The table with bucket size 1 after ["1"] is inserted. *)
Definition tableOne : ExtendibleHashTable string :=
  match Insert 1 (NewExtendibleHashTable 1) "1" "a" with
  | Done e => e
  | _ => NewExtendibleHashTable 1
  end.

(** The table of scenario D after ["11"] is inserted as well, which splits
    the bucket of ["4"] and ["8"]. *)
Definition tableD11 : ExtendibleHashTable string :=
  match Insert_capacity 8 tableD "11" "k" with
  | Done e => e
  | _ => tableD
  end.

End Eht.

(** ** The LRU-K replacer keyed by strings (lruk, the revision that the
    cache manager uses) *)
Module LrukKey.

(** The one way [RecordAccess] aborts: the nil dereference inside
    [list.Remove] when it is handed a nil [*Element]. *)
Inductive result (A : Type) :=
  | Ok (a : A)
  | PanicNilElement.
Arguments Ok {A} a.
Arguments PanicNilElement {A}.

(** [container/list], as for the other revision: [eptr] is the address of
    the element, which is what [historyMap] and [cacheMap] store. *)
Record Element := mkElement { eptr : nat; Value : string }.

(** [l.Remove(e)]: unlinks [e] if it is an element of [l], else nothing. *)
Definition list_Remove (l : list Element) (e : nat) : list Element :=
  filter (λ x, eptr x ≠ e) l.

Record LRUKReplacer := mkReplacer {
  currSize : SizeT;
  replacerSize : SizeT;
  k : SizeT;
  historyList : list Element;
  historyMap : gmap string nat;
  cacheList : list Element;
  cacheMap : gmap string nat;
  accessCount : gmap string N;
  isEvictable : gmap string bool;
  (** the address the next [PushFront] allocates *)
  nextElem : nat
}.

Definition New (numFrames k : SizeT) : LRUKReplacer :=
  {| currSize := 0; replacerSize := numFrames; k := k;
     historyList := []; historyMap := ∅;
     cacheList := []; cacheMap := ∅;
     accessCount := ∅; isEvictable := ∅;
     nextElem := O |}.

(** [r.isEvictable[key]]: a missing key reads as [false]. *)
Definition evictable (r : LRUKReplacer) (key : string) : bool :=
  default false (isEvictable r !! key).

(** [r.cacheList.PushFront(key); r.cacheMap[key] = r.cacheList.Front()] *)
Definition pushCache (r : LRUKReplacer) (key : string) : LRUKReplacer :=
  {| currSize := currSize r; replacerSize := replacerSize r; k := k r;
     historyList := historyList r; historyMap := historyMap r;
     cacheList := mkElement (nextElem r) key :: cacheList r;
     cacheMap := <[key := nextElem r]> (cacheMap r);
     accessCount := accessCount r; isEvictable := isEvictable r;
     nextElem := S (nextElem r) |}.

(** [r.historyList.PushFront(key); r.historyMap[key] = r.historyList.Front()] *)
Definition pushHistory (r : LRUKReplacer) (key : string) : LRUKReplacer :=
  {| currSize := currSize r; replacerSize := replacerSize r; k := k r;
     historyList := mkElement (nextElem r) key :: historyList r;
     historyMap := <[key := nextElem r]> (historyMap r);
     cacheList := cacheList r; cacheMap := cacheMap r;
     accessCount := accessCount r; isEvictable := isEvictable r;
     nextElem := S (nextElem r) |}.

Definition setHistory (r : LRUKReplacer) (l : list Element) (m : gmap string nat)
  : LRUKReplacer :=
  {| currSize := currSize r; replacerSize := replacerSize r; k := k r;
     historyList := l; historyMap := m;
     cacheList := cacheList r; cacheMap := cacheMap r;
     accessCount := accessCount r; isEvictable := isEvictable r;
     nextElem := nextElem r |}.

Definition setCache (r : LRUKReplacer) (l : list Element) (m : gmap string nat)
  : LRUKReplacer :=
  {| currSize := currSize r; replacerSize := replacerSize r; k := k r;
     historyList := historyList r; historyMap := historyMap r;
     cacheList := l; cacheMap := m;
     accessCount := accessCount r; isEvictable := isEvictable r;
     nextElem := nextElem r |}.

(** [RecordAccess]: this revision has no range check. *)
Definition RecordAccess (r : LRUKReplacer) (key : string) : result LRUKReplacer :=
  (* r.accessCount[key]++ *)
  let count := default 0 (accessCount r !! key) + 1 in
  let r :=
    {| currSize := currSize r; replacerSize := replacerSize r; k := k r;
       historyList := historyList r; historyMap := historyMap r;
       cacheList := cacheList r; cacheMap := cacheMap r;
       accessCount := <[key := count]> (accessCount r);
       isEvictable := isEvictable r; nextElem := nextElem r |} in
  if count =? k r then
    (* history -> cache *)
    match historyMap r !! key with
    | None => PanicNilElement
    | Some e =>
        let r := setHistory r (list_Remove (historyList r) e)
                   (delete key (historyMap r)) in
        Ok (pushCache r key)
    end
  else if k r <? count then
    (* cache *)
    let r :=
      match cacheMap r !! key with
      | Some e => setCache r (list_Remove (cacheList r) e) (cacheMap r)
      | None => r
      end in
    Ok (pushCache r key)
  else
    (* history *)
    let r :=
      match historyMap r !! key with
      | Some e => setHistory r (list_Remove (historyList r) e) (historyMap r)
      | None => r
      end in
    Ok (pushHistory r key).

Definition SetEvictable (r : LRUKReplacer) (key : string) (isEvict : bool)
  : LRUKReplacer :=
  match accessCount r !! key with
  | None => r
  | Some _ =>
      let sizeChange := if bool_decide (isEvict = evictable r key) then 0 else 1 in
      {| currSize := if isEvict then currSize r + sizeChange
                     else currSize r - sizeChange;
         replacerSize := replacerSize r; k := k r;
         historyList := historyList r; historyMap := historyMap r;
         cacheList := cacheList r; cacheMap := cacheMap r;
         accessCount := accessCount r;
         isEvictable := <[key := isEvict]> (isEvictable r);
         nextElem := nextElem r |}
  end.

Definition Size (r : LRUKReplacer) : SizeT := currSize r.

End LrukKey.

(** ** The cache manager (cachemanager) *)
Module Cachemanager.

Import Eht.

Section Manager.

(** The values, [any] in the source. *)
Context {V : Type}.

(** [mus] is the set of the keys that have a mutex; the table is the one
    of the later revision of extendiblehashtable, whose [New] this package
    calls. *)
Record CacheManager := mkManager {
  table : ExtendibleHashTable V;
  replacer : LrukKey.LRUKReplacer;
  mus : gset string
}.

Definition NewCacheManager (bucketSize numFrames k : SizeT) : CacheManager :=
  {| table := NewExtendibleHashTable bucketSize;
     replacer := LrukKey.New numFrames k;
     mus := ∅ |}.

(** [c.mutex(key)]: makes the mutex of the key if there is none. *)
Definition mutex (c : CacheManager) (key : string) : CacheManager :=
  {| table := table c; replacer := replacer c; mus := {[key]} ∪ mus c |}.

(** [Set] (written [Set_], the name being a keyword here): [Crash] is a
    panic, [Timeout] an [Insert] that has not returned within the fuel. *)
Definition Set_ (fuel : nat) (c : CacheManager) (key : string) (value : V)
  : outcome CacheManager :=
  let c := mutex c key in
  (* hash table *)
  match Insert_capacity fuel (table c) key value with
  | Done t =>
      (* replacer *)
      match LrukKey.RecordAccess (replacer c) key with
      | LrukKey.Ok r =>
          Done {| table := t; replacer := LrukKey.SetEvictable r key true;
                  mus := mus c |}
      | LrukKey.PanicNilElement => Crash
      end
  | Crash => Crash
  | Timeout => Timeout
  end.

(** [Get]: [None] is the [nil] returned when the key is not found. *)
Definition Get (c : CacheManager) (key : string) : outcome (option V * CacheManager) :=
  let c := mutex c key in
  (* hash table *)
  match Find (table c) key with
  | Done None => Done (None, c)
  | Done (Some value) =>
      (* replacer *)
      match LrukKey.RecordAccess (replacer c) key with
      | LrukKey.Ok r =>
          Done (Some value, {| table := table c; replacer := r; mus := mus c |})
      | LrukKey.PanicNilElement => Crash
      end
  | Crash => Crash
  | Timeout => Timeout
  end.

(** The managers reached from a new one by calls of [Set] and [Get] that
    return. *)
Inductive reachable (bucketSize numFrames k : SizeT) : CacheManager → Prop :=
  | reach_new : reachable bucketSize numFrames k (NewCacheManager bucketSize numFrames k)
  | reach_Set c fuel key value c' :
      reachable bucketSize numFrames k c → Set_ fuel c key value = Done c' →
      reachable bucketSize numFrames k c'
  | reach_Get c key r c' :
      reachable bucketSize numFrames k c → Get c key = Done (r, c') →
      reachable bucketSize numFrames k c'.

(** What the table holds for a key. *)
Definition stored (c : CacheManager) (key : string) : option V :=
  match Find (table c) key with
  | Done r => r
  | _ => None
  end.

(** The invariant of the manager: the table is fine; the replacer tracks
    the keys the table holds, each with its flag set, and has no flag for
    another key; [currSize] is their number; a key with a count below [k]
    has its handle in [historyMap], a key that is not tracked has none; and
    every key of the table has a mutex. *)
Record mgr_inv (c : CacheManager) : Prop := mkMgrInv {
  mi_table : tbl_inv (table c);
  mi_tracked : ∀ key, is_Some (LrukKey.accessCount (replacer c) !! key) ↔
                      holds (table c) key;
  mi_flags : ∀ key, LrukKey.isEvictable (replacer c) !! key =
                    (λ _, true) <$> LrukKey.accessCount (replacer c) !! key;
  mi_size : LrukKey.currSize (replacer c) =
            N.of_nat (base.size (dom (LrukKey.accessCount (replacer c))));
  mi_hist : ∀ key, is_Some (LrukKey.historyMap (replacer c) !! key) ↔
                   ∃ n, LrukKey.accessCount (replacer c) !! key = Some n ∧
                        (n < LrukKey.k (replacer c))%N;
  mi_mus : ∀ key, holds (table c) key → key ∈ mus c
}.

End Manager.

Arguments CacheManager V : clear implicits.

#[local] Open Scope string_scope.

(** [Set] on a manager of strings, the manager itself if the call does not
    return. *)
Definition afterSet (c : CacheManager string) (key value : string) : CacheManager string :=
  match Set_ 8 c key value with
  | Done c' => c'
  | _ => c
  end.

(** A manager with bucket size 2 and [k = 2] after three calls of [Set]. *)
Definition managerA : CacheManager string :=
  afterSet (afterSet (afterSet (NewCacheManager 2 7 2) "a" "1") "b" "2") "a" "3".

End Cachemanager.

(** ** Properties of the replacer *)
Module LrukFacts.

Import Lruk.

(** *** Lists and their handle maps *)

Lemma elem_of_list_Remove l e x : x ∈ list_Remove l e ↔ eptr x ≠ e ∧ x ∈ l.
Proof. unfold list_Remove. by rewrite list_elem_of_filter. Qed.

Lemma list_Remove_NoDup l e : NoDup (eptr <$> l) → NoDup (eptr <$> list_Remove l e).
Proof.
  intros H. eapply sublist_NoDup; [exact H|].
  unfold list_Remove. apply fmap_sublist, sublist_filter.
Qed.

Lemma linked_inj l m x y : linked l m → x ∈ l → y ∈ l → eptr x = eptr y → x = y.
Proof.
  intros [Hnd _] Hx Hy Heq.
  apply list_elem_of_lookup in Hx as [i Hi], Hy as [j Hj].
  assert (i = j) as ->.
  { eapply NoDup_lookup; [exact Hnd| |].
    - rewrite list_lookup_fmap, Hi. reflexivity.
    - rewrite list_lookup_fmap, Hj. simpl. congruence. }
  congruence.
Qed.

Lemma linked_nil : linked [] ∅.
Proof.
  split; [constructor|]. intros f e. rewrite lookup_empty. split; [done|].
  intros H. by apply elem_of_nil in H.
Qed.

Lemma linked_remove l m f e :
  linked l m → m !! f = Some e → linked (list_Remove l e) (delete f m).
Proof.
  intros Hl Hm. pose proof Hl as [Hnd Hlm]. split; [by apply list_Remove_NoDup|].
  intros f' e'. rewrite elem_of_list_Remove. simpl.
  destruct (decide (f' = f)) as [->|Hne].
  - rewrite lookup_delete_eq. split; [done|]. intros [Hne He'].
    apply Hlm in He'. congruence.
  - rewrite lookup_delete_ne by done. rewrite Hlm. split; [|tauto].
    intros He'. split; [|done]. intros ->. apply Hlm in Hm.
    pose proof (linked_inj _ _ _ _ Hl He' Hm eq_refl). congruence.
Qed.

Lemma linked_push l m f n :
  linked l m → m !! f = None → (∀ x, x ∈ l → (eptr x < n)%nat) →
  linked (mkElement n f :: l) (<[f := n]> m).
Proof.
  intros [Hnd Hlm] Hm Hfresh. split.
  - rewrite fmap_cons. simpl. apply NoDup_cons. split; [|done].
    intros Hin. apply list_elem_of_fmap in Hin as (x & Hx & Hxl).
    apply Hfresh in Hxl. lia.
  - intros f' e'. rewrite elem_of_cons. destruct (decide (f' = f)) as [->|Hne].
    + rewrite lookup_insert_eq. split.
      * intros [= ->]. by left.
      * intros [[= ->]|Hin]; [done|]. apply Hlm in Hin. congruence.
    + rewrite lookup_insert_ne by done. rewrite Hlm. split; [by right|].
      intros [[= -> ->]|Hin]; [done|done].
Qed.

Lemma linked_move l m f e n :
  linked l m → m !! f = Some e → (∀ x, x ∈ l → (eptr x < n)%nat) →
  linked (mkElement n f :: list_Remove l e) (<[f := n]> m).
Proof.
  intros Hl Hm Hfresh. rewrite <- insert_delete_eq.
  apply linked_push; [by apply linked_remove|apply lookup_delete_eq|].
  intros x Hx. apply elem_of_list_Remove in Hx as [_ Hx]. by apply Hfresh.
Qed.

(** *** The evictable frames *)

Lemma elem_of_evictable_frames r f :
  f ∈ evictable_frames r ↔
  isEvictable r !! f = Some true ∧ is_Some (accessCount r !! f).
Proof. unfold evictable_frames. by rewrite elem_of_filter, elem_of_dom. Qed.

Lemma evictable_count_ext r r' :
  (∀ f, f ∈ evictable_frames r ↔ f ∈ evictable_frames r') →
  evictable_count r = evictable_count r'.
Proof.
  intros H. unfold evictable_count. f_equal. f_equal. apply set_eq. exact H.
Qed.

Lemma evictable_count_add r r' f :
  f ∉ evictable_frames r →
  (∀ x, x ∈ evictable_frames r' ↔ x = f ∨ x ∈ evictable_frames r) →
  evictable_count r' = evictable_count r + 1.
Proof.
  intros Hf H. unfold evictable_count.
  assert (evictable_frames r' = {[f]} ∪ evictable_frames r) as ->.
  { apply set_eq. intros x. rewrite H. set_solver. }
  rewrite size_union by set_solver. rewrite size_singleton. lia.
Qed.

Lemma evictable_count_sub r r' f :
  f ∈ evictable_frames r →
  (∀ x, x ∈ evictable_frames r' ↔ x ≠ f ∧ x ∈ evictable_frames r) →
  evictable_count r = evictable_count r' + 1.
Proof.
  intros Hf H. apply (evictable_count_add r' r f).
  - rewrite H. tauto.
  - intros x. rewrite H. destruct (decide (x = f)) as [->|]; tauto.
Qed.

Lemma evictable_true r f : evictable r f = true ↔ isEvictable r !! f = Some true.
Proof.
  unfold evictable. destruct (isEvictable r !! f) as [[]|]; simpl; split; congruence.
Qed.

(** *** The invariant holds in every reachable state *)

Lemma New_wf numFrames k0 : wf (NewLRUKReplacer numFrames k0).
Proof.
  constructor; simpl.
  - intros x Hx. by apply elem_of_nil in Hx.
  - intros x Hx. by apply elem_of_nil in Hx.
  - apply linked_nil.
  - apply linked_nil.
  - intros f. rewrite !lookup_empty. split; [by intros [? ?]|by intros (? & ? & ?)].
  - intros f. rewrite !lookup_empty. split; [by intros [? ?]|by intros (? & ? & ?)].
  - intros f. rewrite !lookup_empty. by intros [? ?].
  - unfold evictable_count, evictable_frames. simpl.
    rewrite dom_empty_L. rewrite filter_empty_L by apply _.
    by rewrite size_empty.
Qed.

Lemma recordAccess_wf r f r' : wf r → recordAccess r f = Ok r' → wf r'.
Proof.
  intros Hwf H. unfold recordAccess in H.
  set (count := default 0 (accessCount r !! f) + 1) in *.
  assert (Hsize : ∀ r1, isEvictable r1 = isEvictable r →
            accessCount r1 = <[f := count]> (accessCount r) →
            evictable_count r = evictable_count r1).
  { intros r1 He Ha. apply evictable_count_ext. intros x.
    rewrite !elem_of_evictable_frames, He, Ha.
    destruct (decide (x = f)) as [->|Hne].
    - rewrite lookup_insert_eq. split; [intros [? ?]; eauto|].
      intros [Hx _]. split; [done|]. apply (wf_flag_tracked _ Hwf). eauto.
    - by rewrite lookup_insert_ne. }
  assert (Htr : ∀ f', is_Some (isEvictable r !! f') →
            is_Some (<[f := count]> (accessCount r) !! f')).
  { intros f' Hs. destruct (decide (f' = f)) as [->|Hne].
    - rewrite lookup_insert_eq. eauto.
    - rewrite lookup_insert_ne by done. by apply (wf_flag_tracked _ Hwf). }
  simpl in H. destruct (count =? k r) eqn:Hk; [|destruct (k r <? count) eqn:Hlt].
  - (* history -> cache *)
    apply N.eqb_eq in Hk.
    destruct (historyMap r !! f) as [e|] eqn:Hm; [|done]. injection H as <-.
    destruct Hwf. constructor; simpl.
    + intros x Hx. apply elem_of_list_Remove in Hx as [_ Hx].
      apply wf_fresh_h0 in Hx. lia.
    + intros x Hx. apply elem_of_cons in Hx as [->|Hx]; simpl; [lia|].
      apply wf_fresh_c0 in Hx. lia.
    + by apply linked_remove.
    + apply linked_push; [done| |done].
      destruct (cacheMap r !! f) eqn:Hc; [|done]. exfalso.
      assert (is_Some (cacheMap r !! f)) as Hs by eauto.
      apply wf_cache_count0 in Hs as (c & Hc1 & Hc2).
      subst count. rewrite Hc1 in Hk. simpl in Hk. lia.
    + intros f'. destruct (decide (f' = f)) as [->|Hne].
      * rewrite lookup_delete_eq, lookup_insert_eq.
        split; [by intros [? ?]|]. intros (c & [= <-] & Hc). lia.
      * rewrite lookup_delete_ne, lookup_insert_ne by done. apply wf_hist_count0.
    + intros f'. destruct (decide (f' = f)) as [->|Hne].
      * rewrite !lookup_insert_eq. split; [|eauto].
        intros _. exists count. split; [done|lia].
      * rewrite !lookup_insert_ne by done. apply wf_cache_count0.
    + done.
    + rewrite wf_size0. by apply Hsize.
  - (* cache *)
    apply N.ltb_lt in Hlt. injection H as <-.
    assert (Hnh : historyMap r !! f = None).
    { destruct (historyMap r !! f) eqn:Hh; [|done]. exfalso.
      assert (is_Some (historyMap r !! f)) as Hs by eauto.
      apply (wf_hist_count _ Hwf) in Hs as (c & Hc1 & Hc2).
      subst count. rewrite Hc1 in Hlt. simpl in Hlt. lia. }
    destruct Hwf.
    destruct (cacheMap r !! f) as [e|] eqn:Hm; constructor; simpl; try done.
    + intros x Hx. apply wf_fresh_h0 in Hx. lia.
    + intros x Hx. apply elem_of_cons in Hx as [->|Hx]; simpl; [lia|].
      apply elem_of_list_Remove in Hx as [_ Hx]. apply wf_fresh_c0 in Hx. lia.
    + by apply linked_move.
    + intros f'. destruct (decide (f' = f)) as [->|Hne].
      * rewrite Hnh, lookup_insert_eq.
        split; [by intros [? ?]|]. intros (c & [= <-] & Hc). lia.
      * rewrite lookup_insert_ne by done. apply wf_hist_count0.
    + intros f'. destruct (decide (f' = f)) as [->|Hne].
      * rewrite !lookup_insert_eq. split; [|eauto].
        intros _. exists count. split; [done|lia].
      * rewrite !lookup_insert_ne by done. apply wf_cache_count0.
    + rewrite wf_size0. by apply Hsize.
    + intros x Hx. apply wf_fresh_h0 in Hx. lia.
    + intros x Hx. apply elem_of_cons in Hx as [->|Hx]; simpl; [lia|].
      apply wf_fresh_c0 in Hx. lia.
    + by apply linked_push.
    + intros f'. destruct (decide (f' = f)) as [->|Hne].
      * rewrite Hnh, lookup_insert_eq.
        split; [by intros [? ?]|]. intros (c & [= <-] & Hc). lia.
      * rewrite lookup_insert_ne by done. apply wf_hist_count0.
    + intros f'. destruct (decide (f' = f)) as [->|Hne].
      * rewrite !lookup_insert_eq. split; [|eauto].
        intros _. exists count. split; [done|lia].
      * rewrite !lookup_insert_ne by done. apply wf_cache_count0.
    + rewrite wf_size0. by apply Hsize.
  - (* history *)
    apply N.eqb_neq in Hk. apply N.ltb_ge in Hlt. injection H as <-.
    assert (Hnc : cacheMap r !! f = None).
    { destruct (cacheMap r !! f) eqn:Hc; [|done]. exfalso.
      assert (is_Some (cacheMap r !! f)) as Hs by eauto.
      apply (wf_cache_count _ Hwf) in Hs as (c & Hc1 & Hc2).
      subst count. rewrite Hc1 in Hlt, Hk. simpl in Hlt, Hk. lia. }
    destruct Hwf.
    destruct (historyMap r !! f) as [e|] eqn:Hm; constructor; simpl; try done.
    + intros x Hx. apply elem_of_cons in Hx as [->|Hx]; simpl; [lia|].
      apply elem_of_list_Remove in Hx as [_ Hx]. apply wf_fresh_h0 in Hx. lia.
    + intros x Hx. apply wf_fresh_c0 in Hx. lia.
    + by apply linked_move.
    + intros f'. destruct (decide (f' = f)) as [->|Hne].
      * rewrite !lookup_insert_eq. split; [|eauto].
        intros _. exists count. split; [done|lia].
      * rewrite !lookup_insert_ne by done. apply wf_hist_count0.
    + intros f'. destruct (decide (f' = f)) as [->|Hne].
      * rewrite Hnc, lookup_insert_eq.
        split; [by intros [? ?]|]. intros (c & [= <-] & Hc). lia.
      * rewrite lookup_insert_ne by done. apply wf_cache_count0.
    + rewrite wf_size0. by apply Hsize.
    + intros x Hx. apply elem_of_cons in Hx as [->|Hx]; simpl; [lia|].
      apply wf_fresh_h0 in Hx. lia.
    + intros x Hx. apply wf_fresh_c0 in Hx. lia.
    + by apply linked_push.
    + intros f'. destruct (decide (f' = f)) as [->|Hne].
      * rewrite !lookup_insert_eq. split; [|eauto].
        intros _. exists count. split; [done|lia].
      * rewrite !lookup_insert_ne by done. apply wf_hist_count0.
    + intros f'. destruct (decide (f' = f)) as [->|Hne].
      * rewrite Hnc, lookup_insert_eq.
        split; [by intros [? ?]|]. intros (c & [= <-] & Hc). lia.
      * rewrite lookup_insert_ne by done. apply wf_cache_count0.
    + rewrite wf_size0. by apply Hsize.
Qed.

Lemma setEvictable_frames r f b c r' :
  accessCount r !! f = Some c →
  accessCount r' = accessCount r →
  isEvictable r' = <[f := b]> (isEvictable r) →
  ∀ x, x ∈ evictable_frames r' ↔
       (x = f ∧ b = true) ∨ (x ≠ f ∧ x ∈ evictable_frames r).
Proof.
  intros Ha Ha' Hi x. rewrite !elem_of_evictable_frames, Ha', Hi.
  destruct (decide (x = f)) as [->|Hne].
  - rewrite lookup_insert_eq, Ha. split.
    + intros [[= ->] _]. by left.
    + intros [[_ ->]|[? _]]; [eauto|done].
  - rewrite lookup_insert_ne by done. split; [by right|].
    by intros [[? _]|[_ ?]].
Qed.

Lemma setEvictable_wf r f b : wf r → wf (setEvictable r f b).
Proof.
  intros Hwf. unfold setEvictable.
  destruct (accessCount r !! f) as [c|] eqn:Ha; [|done].
  assert (Hold : f ∈ evictable_frames r ↔ evictable r f = true).
  { rewrite elem_of_evictable_frames, evictable_true, Ha. split; [tauto|eauto]. }
  destruct Hwf. constructor; try done.
  - intros f' Hs. simpl in *.
    destruct (decide (f' = f)) as [->|Hne]; [eauto|].
    rewrite lookup_insert_ne in Hs by done. eauto.
  - simpl. rewrite wf_size0.
    destruct b, (evictable r f) eqn:He; simpl;
      match goal with |- _ = evictable_count ?s =>
        pose proof (setEvictable_frames r f _ c s Ha eq_refl eq_refl) as Hin;
        set (r' := s) in *
      end.
    + rewrite N.add_0_r. apply evictable_count_ext. intros x. rewrite Hin.
      destruct (decide (x = f)) as [->|]; [rewrite Hold|]; naive_solver.
    + apply eq_sym, (evictable_count_add r r' f).
      * rewrite Hold. congruence.
      * intros x. rewrite Hin. destruct (decide (x = f)); naive_solver.
    + pose proof (evictable_count_sub r r' f) as Hs.
      rewrite Hs; [lia|by apply Hold|].
      intros x. rewrite Hin. naive_solver.
    + rewrite N.sub_0_r. apply evictable_count_ext. intros x. rewrite Hin.
      destruct (decide (x = f)) as [->|]; [rewrite Hold|]; naive_solver.
Qed.

Lemma clear_size r r' f :
  wf r → evictable r f = true →
  isEvictable r' = delete f (isEvictable r) →
  accessCount r' = delete f (accessCount r) →
  evictable_count r = evictable_count r' + 1.
Proof.
  intros Hwf He Hi Ha. apply (evictable_count_sub r r' f).
  - rewrite elem_of_evictable_frames. apply evictable_true in He.
    split; [done|]. apply (wf_flag_tracked _ Hwf). eauto.
  - intros x. rewrite !elem_of_evictable_frames, Hi, Ha.
    destruct (decide (x = f)) as [->|Hne].
    + rewrite !lookup_delete_eq. naive_solver.
    + rewrite !lookup_delete_ne by done. naive_solver.
Qed.

Lemma clear_history_wf r f e :
  wf r → historyMap r !! f = Some e → evictable r f = true →
  wf (clearFrame (setHistory r (list_Remove (historyList r) e)
                    (delete f (historyMap r))) f).
Proof.
  intros Hwf Hm He.
  set (r' := clearFrame _ _).
  pose proof (clear_size r r' f Hwf He eq_refl eq_refl) as Hsz.
  assert (Hnc : cacheMap r !! f = None).
  { destruct (cacheMap r !! f) eqn:Hc; [|done]. exfalso.
    assert (is_Some (historyMap r !! f)) as Hs1 by eauto.
    assert (is_Some (cacheMap r !! f)) as Hs2 by eauto.
    apply (wf_hist_count _ Hwf) in Hs1 as (c1 & Hc1 & ?).
    apply (wf_cache_count _ Hwf) in Hs2 as (c2 & Hc2 & ?).
    rewrite Hc1 in Hc2. injection Hc2 as ->. lia. }
  destruct Hwf. subst r'. constructor; simpl in *; try done.
  - intros x Hx. apply elem_of_list_Remove in Hx as [_ Hx]. by apply wf_fresh_h0.
  - by apply linked_remove.
  - intros f'. destruct (decide (f' = f)) as [->|Hne].
    + rewrite !lookup_delete_eq. split; [by intros [? ?]|by intros (? & ? & ?)].
    + rewrite !lookup_delete_ne by done. apply wf_hist_count0.
  - intros f'. destruct (decide (f' = f)) as [->|Hne].
    + rewrite Hnc, lookup_delete_eq. split; [by intros [? ?]|by intros (? & ? & ?)].
    + rewrite lookup_delete_ne by done. apply wf_cache_count0.
  - intros f'. destruct (decide (f' = f)) as [->|Hne].
    + rewrite lookup_delete_eq. by intros [? ?].
    + rewrite !lookup_delete_ne by done. apply wf_flag_tracked0.
  - lia.
Qed.

Lemma clear_cache_wf r f e :
  wf r → cacheMap r !! f = Some e → evictable r f = true →
  wf (clearFrame (setCache r (list_Remove (cacheList r) e)
                    (delete f (cacheMap r))) f).
Proof.
  intros Hwf Hm He.
  set (r' := clearFrame _ _).
  pose proof (clear_size r r' f Hwf He eq_refl eq_refl) as Hsz.
  assert (Hnh : historyMap r !! f = None).
  { destruct (historyMap r !! f) eqn:Hc; [|done]. exfalso.
    assert (is_Some (historyMap r !! f)) as Hs1 by eauto.
    assert (is_Some (cacheMap r !! f)) as Hs2 by eauto.
    apply (wf_hist_count _ Hwf) in Hs1 as (c1 & Hc1 & ?).
    apply (wf_cache_count _ Hwf) in Hs2 as (c2 & Hc2 & ?).
    rewrite Hc1 in Hc2. injection Hc2 as ->. lia. }
  destruct Hwf. subst r'. constructor; simpl in *; try done.
  - intros x Hx. apply elem_of_list_Remove in Hx as [_ Hx]. by apply wf_fresh_c0.
  - by apply linked_remove.
  - intros f'. destruct (decide (f' = f)) as [->|Hne].
    + rewrite Hnh, lookup_delete_eq. split; [by intros [? ?]|by intros (? & ? & ?)].
    + rewrite lookup_delete_ne by done. apply wf_hist_count0.
  - intros f'. destruct (decide (f' = f)) as [->|Hne].
    + rewrite !lookup_delete_eq. split; [by intros [? ?]|by intros (? & ? & ?)].
    + rewrite !lookup_delete_ne by done. apply wf_cache_count0.
  - intros f'. destruct (decide (f' = f)) as [->|Hne].
    + rewrite lookup_delete_eq. by intros [? ?].
    + rewrite !lookup_delete_ne by done. apply wf_flag_tracked0.
  - lia.
Qed.

Lemma scan_Some r l e : scan r l = Some e → e ∈ l ∧ evictable r (Value e) = true.
Proof.
  induction l as [|x l IH]; simpl; [done|].
  destruct (evictable r (Value x)) eqn:He.
  - intros [= ->]. split; [by left|done].
  - intros H. apply IH in H as [? ?]. split; [by right|done].
Qed.

Lemma scan_None r l : scan r l = None ↔ ∀ x, x ∈ l → evictable r (Value x) = false.
Proof.
  induction l as [|x l IH]; simpl.
  - split; [|done]. intros _ x Hx. by apply elem_of_nil in Hx.
  - destruct (evictable r (Value x)) eqn:He.
    + split; [done|]. intros H. specialize (H x). rewrite He in H.
      discriminate H. by left.
    + rewrite IH. split.
      * intros H y Hy. apply elem_of_cons in Hy as [->|Hy]; eauto.
      * intros H y Hy. apply H. by right.
Qed.

Lemma linked_elem l m e : linked l m → e ∈ l → m !! Value e = Some (eptr e).
Proof. intros [_ H] He. apply H. by destruct e. Qed.

Lemma Evict_wf r : wf r → wf (snd (Evict r)).
Proof.
  intros Hwf. unfold Evict. destruct (currSize r =? 0); [done|].
  destruct (scan r (reverse (historyList r))) as [e|] eqn:Hh.
  - apply scan_Some in Hh as [Hin He]. rewrite elem_of_reverse in Hin.
    apply (clear_history_wf r (Value e) (eptr e)); [done| |done].
    by apply (linked_elem _ _ _ (wf_hist _ Hwf)).
  - destruct (scan r (reverse (cacheList r))) as [e|] eqn:Hc; [|done].
    apply scan_Some in Hc as [Hin He]. rewrite elem_of_reverse in Hin.
    apply (clear_cache_wf r (Value e) (eptr e)); [done| |done].
    by apply (linked_elem _ _ _ (wf_cache _ Hwf)).
Qed.

Lemma remove_wf r f r' : wf r → remove r f = Ok r' → wf r'.
Proof.
  intros Hwf. unfold remove.
  destruct (accessCount r !! f) as [c|]; [|by intros [= <-]].
  destruct (evictable r f) eqn:He; simpl; [|done].
  destruct (k r <=? c).
  - destruct (cacheMap r !! f) as [e|] eqn:Hm; [|done].
    intros [= <-]. by apply clear_cache_wf.
  - destruct (historyMap r !! f) as [e|] eqn:Hm; [|done].
    intros [= <-]. by apply clear_history_wf.
Qed.

Lemma bind_Ok {A B} (m : result A) (g : A → result B) b :
  bind m g = Ok b → ∃ a, m = Ok a ∧ g a = Ok b.
Proof. destruct m; simpl; [eauto|done]. Qed.

Lemma step_wf r o r' : wf r → step r o = Ok r' → wf r'.
Proof.
  intros Hwf. destruct o; simpl.
  - intros H. apply bind_Ok in H as (_ & _ & H). by eapply recordAccess_wf.
  - intros H. apply bind_Ok in H as (_ & _ & [= <-]). by apply setEvictable_wf.
  - intros [= <-]. by apply Evict_wf.
  - intros H. apply bind_Ok in H as (_ & _ & H). by eapply remove_wf.
Qed.

Lemma reachable_wf numFrames k0 r : reachable numFrames k0 r → wf r.
Proof.
  induction 1 as [|r o r' _ IH Hstep]; [apply New_wf|by eapply step_wf].
Qed.

(** *** What removing an element does to the frames of a list *)

Lemma frames_list_Remove l m f e :
  linked l m → m !! f = Some e →
  frames (list_Remove l e) = filter (λ x, x ≠ f) (frames l).
Proof.
  intros Hl Hm.
  assert (Hiff : ∀ x, x ∈ l → (eptr x ≠ e ↔ Value x ≠ f)).
  { intros x Hx. apply Hl in Hm. split; intros Hne Heq; apply Hne.
    - pose proof (linked_elem _ _ _ Hl Hx) as Hx'. rewrite Heq in Hx'.
      apply Hl in Hx'. apply Hl in Hx'.
      assert (m !! f = Some e) as He by by apply Hl. congruence.
    - assert (x = mkElement e f) as ->; [|done].
      by apply (linked_inj l m). }
  clear Hl Hm. unfold frames, list_Remove.
  induction l as [|x l IH]; [done|].
  rewrite fmap_cons, !filter_cons.
  assert (Hx := Hiff x ltac:(by left)).
  assert (IH' := IH ltac:(intros y Hy; apply Hiff; by right)).
  destruct (decide (eptr x ≠ e)), (decide (Value x ≠ f)); try tauto.
  rewrite fmap_cons. by f_equal.
Qed.

Lemma frames_elem l m f : linked l m → (f ∈ frames l ↔ is_Some (m !! f)).
Proof.
  intros Hl. unfold frames. rewrite list_elem_of_fmap. split.
  - intros (x & -> & Hx). rewrite (linked_elem _ _ _ Hl Hx). eauto.
  - intros [e He]. apply Hl in He. by exists (mkElement e f).
Qed.

Lemma scan_reverse_backmost r l e :
  scan r (reverse l) = Some e → backmost_evictable r l (Value e).
Proof.
  induction l as [|x l IH] using rev_ind; [done|].
  rewrite reverse_snoc. simpl. destruct (evictable r (Value x)) eqn:He.
  - intros [= ->]. exists l, e, []. split_and!; try done.
    intros y Hy. by apply elem_of_nil in Hy.
  - intros H. apply IH in H as (l1 & e' & l2 & -> & Hv & Hev & Hrest).
    exists l1, e', (l2 ++ [x]). split_and!; try done.
    + by rewrite <- app_assoc.
    + intros y Hy. apply elem_of_app in Hy as [Hy|Hy]; [by apply Hrest|].
      apply list_elem_of_singleton in Hy as ->. done.
Qed.

Lemma scan_reverse_None r l : scan r (reverse l) = None ↔ no_evictable r l.
Proof.
  rewrite scan_None. unfold no_evictable.
  split; intros H x Hx; apply H; by rewrite ?elem_of_reverse in *.
Qed.

(** With [currSize] not zero some list holds an evictable frame. *)
Lemma wf_some_evictable r :
  wf r → currSize r ≠ 0 →
  ¬ (no_evictable r (historyList r) ∧ no_evictable r (cacheList r)).
Proof.
  intros Hwf Hsz [Hh Hc]. rewrite (wf_size _ Hwf) in Hsz.
  unfold evictable_count in Hsz.
  destruct (decide (evictable_frames r = ∅)) as [He|Hne].
  { rewrite He, size_empty in Hsz. done. }
  apply set_choose_L in Hne as [f Hf].
  apply elem_of_evictable_frames in Hf as [Hflag [c Hcount]].
  apply evictable_true in Hflag.
  destruct (decide (c < k r)) as [Hlt|Hge].
  - assert (is_Some (historyMap r !! f)) as [e He].
    { apply (wf_hist_count _ Hwf). eauto. }
    apply (wf_hist _ Hwf) in He. apply Hh in He. simpl in He. congruence.
  - assert (is_Some (cacheMap r !! f)) as [e He].
    { apply (wf_cache_count _ Hwf). exists c. split; [done|lia]. }
    apply (wf_cache _ Hwf) in He. apply Hc in He. simpl in He. congruence.
Qed.

Lemma wf_history_not_cache r f :
  wf r → is_Some (historyMap r !! f) → cacheMap r !! f = None.
Proof.
  intros Hwf Hs1. destruct (cacheMap r !! f) eqn:Hc; [|done]. exfalso.
  assert (is_Some (cacheMap r !! f)) as Hs2 by eauto.
  apply (wf_hist_count _ Hwf) in Hs1 as (c1 & Hc1 & ?).
  apply (wf_cache_count _ Hwf) in Hs2 as (c2 & Hc2 & ?).
  rewrite Hc1 in Hc2. injection Hc2 as ->. lia.
Qed.

Lemma wf_cache_not_history r f :
  wf r → is_Some (cacheMap r !! f) → historyMap r !! f = None.
Proof.
  intros Hwf Hs. destruct (historyMap r !! f) eqn:Hh; [|done].
  assert (is_Some (historyMap r !! f)) as Hs' by eauto.
  apply (wf_history_not_cache _ _ Hwf) in Hs'. rewrite Hs' in Hs.
  by destruct Hs.
Qed.

Lemma filter_not_elem (l : list N) f : f ∉ filter (λ x, x ≠ f) l.
Proof. rewrite list_elem_of_filter. tauto. Qed.

Lemma filter_absent (l : list N) f : f ∉ l → filter (λ x, x ≠ f) l = l.
Proof.
  induction l as [|x l IH]; [done|]. rewrite not_elem_of_cons. intros [? ?].
  rewrite filter_cons_True by done. by rewrite IH.
Qed.

Lemma clear_history_cleared r f e :
  wf r → historyMap r !! f = Some e → evictable r f = true →
  cleared r (clearFrame (setHistory r (list_Remove (historyList r) e)
                           (delete f (historyMap r))) f) f.
Proof.
  intros Hwf Hm He.
  pose proof (clear_history_wf r f e Hwf Hm He) as Hwf'.
  set (r' := clearFrame _ _) in *.
  assert (Hnc : cacheMap r !! f = None) by (apply wf_history_not_cache; eauto).
  assert (Hnf : f ∉ frames (cacheList r)).
  { rewrite (frames_elem _ _ _ (wf_cache _ Hwf)), Hnc. by intros [? ?]. }
  pose proof (clear_size r r' f Hwf He eq_refl eq_refl) as Hsz.
  rewrite <- (wf_size _ Hwf), <- (wf_size _ Hwf') in Hsz.
  assert (Hfr : frames (historyList r') = filter (λ x, x ≠ f) (frames (historyList r))).
  { apply (frames_list_Remove _ (historyMap r)); [apply Hwf|done]. }
  constructor; try done.
  - simpl. by rewrite filter_absent.
  - rewrite Hfr. apply filter_not_elem.
  - simpl. apply lookup_delete_eq.
  - simpl. apply lookup_delete_eq.
  - simpl. apply lookup_delete_eq.
  - intros x Hx. simpl. by rewrite !lookup_delete_ne.
Qed.

Lemma clear_cache_cleared r f e :
  wf r → cacheMap r !! f = Some e → evictable r f = true →
  cleared r (clearFrame (setCache r (list_Remove (cacheList r) e)
                           (delete f (cacheMap r))) f) f.
Proof.
  intros Hwf Hm He.
  pose proof (clear_cache_wf r f e Hwf Hm He) as Hwf'.
  set (r' := clearFrame _ _) in *.
  assert (Hnh : historyMap r !! f = None) by (apply wf_cache_not_history; eauto).
  assert (Hnf : f ∉ frames (historyList r)).
  { rewrite (frames_elem _ _ _ (wf_hist _ Hwf)), Hnh. by intros [? ?]. }
  pose proof (clear_size r r' f Hwf He eq_refl eq_refl) as Hsz.
  rewrite <- (wf_size _ Hwf), <- (wf_size _ Hwf') in Hsz.
  assert (Hfr : frames (cacheList r') = filter (λ x, x ≠ f) (frames (cacheList r))).
  { apply (frames_list_Remove _ (cacheMap r)); [apply Hwf|done]. }
  constructor; try done.
  - simpl. by rewrite filter_absent.
  - rewrite Hfr. apply filter_not_elem.
  - simpl. apply lookup_delete_eq.
  - simpl. apply lookup_delete_eq.
  - simpl. apply lookup_delete_eq.
  - intros x Hx. simpl. by rewrite !lookup_delete_ne.
Qed.

Lemma run_reachable numFrames k0 r os r' :
  reachable numFrames k0 r → run r os = Ok r' → reachable numFrames k0 r'.
Proof.
  revert r. induction os as [|o os IH]; simpl; intros r Hr.
  - by intros [= <-].
  - intros H. apply bind_Ok in H as (r1 & Hstep & Hrun).
    apply (IH r1); [|done]. by apply (reach_step _ _ r o).
Qed.

Lemma after_reachable numFrames k0 os :
  (∃ r, run (NewLRUKReplacer numFrames k0) os = Ok r) →
  reachable numFrames k0 (after numFrames k0 os).
Proof.
  unfold after. intros [r H]. rewrite H.
  eapply run_reachable; [apply reach_new|exact H].
Qed.

Example scenarioA_lists :
  frames (historyList (after 7 2 scenarioA)) = [6; 5; 4; 3; 2] ∧
  frames (cacheList (after 7 2 scenarioA)) = [1] ∧
  Size (after 7 2 scenarioA) = 5.
Proof. vm_compute. done. Qed.

(** The evictions [TestSampleLRUK] expects: 2, 3, 4, then 3, 6, 5, 4, 1,
    then none; the replacer ends empty. *)
Example testSampleLRUK_evictions :
  evicted (NewLRUKReplacer 7 2) testSampleLRUK =
    [(2, true); (3, true); (4, true); (3, true); (6, true); (5, true);
     (4, true); (1, true); (0, false)] ∧
  Size (after 7 2 testSampleLRUK) = 0.
Proof. vm_compute. done. Qed.

Example scenarioA_evicts :
  fst (Evict (after 7 2 scenarioA)) = (2, true) ∧
  fst (Evict (snd (Evict (after 7 2 scenarioA)))) = (3, true).
Proof. vm_compute. done. Qed.

(** *** Evict *)

(** C3. In every reachable state: with [currSize = 0], [Evict] returns
    [(0, false)] and leaves the state as it is; otherwise it succeeds, and
    the frame it returns is the backmost evictable frame of the history
    list when that list has an evictable frame, else the backmost evictable
    frame of the cache list; the frame was evictable, it is gone from its
    list and from the four maps (the other frames keep their entries), and
    [currSize] is one less. *)
Theorem Evict_spec numFrames k0 r :
  reachable numFrames k0 r →
  (currSize r = 0 → Evict r = ((0, false), r)) ∧
  (currSize r ≠ 0 →
   ∃ f r', Evict r = ((f, true), r') ∧
     (backmost_evictable r (historyList r) f ∨
      (no_evictable r (historyList r) ∧ backmost_evictable r (cacheList r) f)) ∧
     evictable r f = true ∧
     cleared r r' f).
Proof.
  intros Hr. pose proof (reachable_wf _ _ _ Hr) as Hwf. split.
  - intros H0. unfold Evict. by rewrite H0.
  - intros Hne. unfold Evict. apply N.eqb_neq in Hne as Hne'. rewrite Hne'.
    destruct (scan r (reverse (historyList r))) as [e|] eqn:Hh.
    + pose proof (scan_reverse_backmost _ _ _ Hh) as Hb.
      apply scan_Some in Hh as [Hin He]. rewrite elem_of_reverse in Hin.
      pose proof (linked_elem _ _ _ (wf_hist _ Hwf) Hin) as Hm.
      eexists _, _. split; [reflexivity|]. split_and!; [by left|done|].
      by apply clear_history_cleared.
    + apply scan_reverse_None in Hh.
      destruct (scan r (reverse (cacheList r))) as [e|] eqn:Hc.
      * pose proof (scan_reverse_backmost _ _ _ Hc) as Hb.
        apply scan_Some in Hc as [Hin He]. rewrite elem_of_reverse in Hin.
        pose proof (linked_elem _ _ _ (wf_cache _ Hwf) Hin) as Hm.
        eexists _, _. split; [reflexivity|]. split_and!; [by right|done|].
        by apply clear_cache_cleared.
      * apply scan_reverse_None in Hc.
        by destruct (wf_some_evictable r Hwf Hne).
Qed.

Lemma Evict_spec_witness :
  reachable 7 2 (after 7 2 scenarioA) ∧
  currSize (after 7 2 scenarioA) ≠ 0 ∧
  ∃ r', Evict (after 7 2 scenarioA) = ((2, true), r') ∧
        cleared (after 7 2 scenarioA) r' 2.
Proof.
  assert (Hr : reachable 7 2 (after 7 2 scenarioA)).
  { apply after_reachable. eexists. vm_compute. reflexivity. }
  assert (Hne : currSize (after 7 2 scenarioA) ≠ 0).
  { vm_compute. discriminate. }
  split; [exact Hr|]. split; [exact Hne|].
  destruct (Evict_spec 7 2 _ Hr) as [_ H].
  destruct (H Hne) as (f & r' & HE & _ & _ & Hcl).
  exists r'.
  assert (f = 2) as ->.
  { change f with (fst (fst ((f, true), r'))). rewrite <- HE.
    vm_compute. reflexivity. }
  split; [exact HE|exact Hcl].
Defined.

(** *** The size counter *)

(** C5. In every state reached by calls that do not abort, [currSize] is
    the number of tracked frames (keys of [accessCount]) whose
    [isEvictable] flag is true, and [Size] returns that number. *)
Theorem currSize_counts_evictable numFrames k0 r :
  reachable numFrames k0 r →
  currSize r = evictable_count r ∧ Size r = evictable_count r.
Proof.
  intros Hr. pose proof (reachable_wf _ _ _ Hr) as Hwf.
  split; apply (wf_size _ Hwf).
Qed.

Lemma currSize_counts_evictable_witness :
  reachable 7 2 (after 7 2 scenarioA) ∧
  currSize (after 7 2 scenarioA) = evictable_count (after 7 2 scenarioA) ∧
  Size (after 7 2 scenarioA) = evictable_count (after 7 2 scenarioA).
Proof.
  assert (Hr : reachable 7 2 (after 7 2 scenarioA)).
  { apply after_reachable. eexists. vm_compute. reflexivity. }
  split; [exact Hr|]. exact (currSize_counts_evictable 7 2 _ Hr).
Defined.

(** *** The range check *)



(** An access aborts only on a frame that is not tracked, with [k = 1]. *)
Lemma recordAccess_Ok r f :
  wf r → (∃ r', recordAccess r f = Ok r') ↔ k r ≠ 1 ∨ is_Some (accessCount r !! f).
Proof.
  intros Hwf. unfold recordAccess.
  set (count := default 0 (accessCount r !! f) + 1). simpl.
  destruct (count =? k r) eqn:Hk; [|destruct (k r <? count) eqn:Hlt].
  - apply N.eqb_eq in Hk. destruct (historyMap r !! f) as [e|] eqn:Hm.
    + split; [|eauto]. intros _. right.
      assert (is_Some (historyMap r !! f)) as Hs by eauto.
      apply (wf_hist_count _ Hwf) in Hs as (c & Hc & _). eauto.
    + split; [by intros [? ?]|]. intros [Hne|[c Hc]]; exfalso.
      * destruct (accessCount r !! f) as [c|] eqn:Hc; [|subst count; simpl in Hk; lia].
        assert (is_Some (historyMap r !! f)) as [? ?]; [|congruence].
        apply (wf_hist_count _ Hwf). exists c. split; [done|].
        subst count. simpl in Hk. lia.
      * assert (is_Some (historyMap r !! f)) as [? ?]; [|congruence].
        apply (wf_hist_count _ Hwf). exists c. split; [done|].
        subst count. rewrite Hc in Hk. simpl in Hk. lia.
  - apply N.eqb_neq in Hk. split; [|eauto]. intros _.
    destruct (accessCount r !! f) as [c|] eqn:Hc; [eauto|].
    left. subst count. simpl in Hk. lia.
  - apply N.eqb_neq in Hk. split; [|eauto]. intros _.
    destruct (accessCount r !! f) as [c|] eqn:Hc; [eauto|].
    left. subst count. simpl in Hk. lia.
Qed.






(** *** Remove *)

(** C7. For a frame id in range, in every reachable state: an untracked id
    makes [Remove] return with the state as it was; a tracked id whose flag
    is not set makes it abort; a tracked, evictable id is in the cache list
    exactly when its count is at least [k] and in the history list
    otherwise, and [Remove] takes it out of that list and of the maps and
    decrements [currSize]. *)
Theorem Remove_spec numFrames k0 r f :
  reachable numFrames k0 r → f ≤ replacerSize r →
  (accessCount r !! f = None → Remove r f = Ok r) ∧
  (is_Some (accessCount r !! f) → evictable r f = false →
   Remove r f = Panic (ErrCannotRemove f)) ∧
  (∀ c, accessCount r !! f = Some c → evictable r f = true →
   ∃ r', Remove r f = Ok r' ∧
     (f ∈ frames (cacheList r) ↔ k r ≤ c) ∧
     (f ∈ frames (historyList r) ↔ c < k r) ∧
     cleared r r' f).
Proof.
  intros Hr Hrange. pose proof (reachable_wf _ _ _ Hr) as Hwf.
  unfold Remove, checkOverstep.
  assert ((replacerSize r <? f) = false) as -> by by apply N.ltb_ge.
  simpl. unfold remove. split_and!.
  - by intros ->.
  - intros [c ->] ->. done.
  - intros c Hc He. rewrite Hc, He. simpl.
    assert (Hcache : f ∈ frames (cacheList r) ↔ k r ≤ c).
    { rewrite (frames_elem _ _ _ (wf_cache _ Hwf)), (wf_cache_count _ Hwf).
      rewrite Hc. split; [by intros (? & [= <-] & ?)|eauto]. }
    assert (Hhist : f ∈ frames (historyList r) ↔ c < k r).
    { rewrite (frames_elem _ _ _ (wf_hist _ Hwf)), (wf_hist_count _ Hwf).
      rewrite Hc. split; [by intros (? & [= <-] & ?)|eauto]. }
    destruct (k r <=? c) eqn:Hk.
    + apply N.leb_le in Hk. apply Hcache in Hk as Hin.
      apply (frames_elem _ _ _ (wf_cache _ Hwf)) in Hin as [e Hm]. rewrite Hm.
      eexists. split; [reflexivity|]. split_and!; try done.
      by apply clear_cache_cleared.
    + apply N.leb_gt in Hk. apply Hhist in Hk as Hin.
      apply (frames_elem _ _ _ (wf_hist _ Hwf)) in Hin as [e Hm]. rewrite Hm.
      eexists. split; [reflexivity|]. split_and!; try done.
      by apply clear_history_cleared.
Qed.

Lemma Remove_spec_witness :
  reachable 7 2 (after 7 2 scenarioA) ∧ 1 ≤ replacerSize (after 7 2 scenarioA) ∧
  accessCount (after 7 2 scenarioA) !! 1 = Some 2 ∧
  evictable (after 7 2 scenarioA) 1 = true ∧
  ∃ r', Remove (after 7 2 scenarioA) 1 = Ok r' ∧
        1 ∈ frames (cacheList (after 7 2 scenarioA)) ∧
        cleared (after 7 2 scenarioA) r' 1.
Proof.
  assert (Hr : reachable 7 2 (after 7 2 scenarioA)).
  { apply after_reachable. eexists. vm_compute. reflexivity. }
  assert (Hrange : 1 ≤ replacerSize (after 7 2 scenarioA)).
  { vm_compute. discriminate. }
  assert (Hc : accessCount (after 7 2 scenarioA) !! 1 = Some 2).
  { vm_compute. reflexivity. }
  assert (He : evictable (after 7 2 scenarioA) 1 = true).
  { vm_compute. reflexivity. }
  split; [exact Hr|]. split; [exact Hrange|]. split; [exact Hc|]. split; [exact He|].
  destruct (Remove_spec 7 2 _ 1 Hr Hrange) as (_ & _ & H).
  destruct (H 2 Hc He) as (r' & HR & Hcache & _ & Hcl).
  exists r'. split; [exact HR|]. split; [|exact Hcl].
  apply Hcache. vm_compute. discriminate.
Defined.

(** *** The first access of a frame *)

Lemma step_config r o r' :
  step r o = Ok r' → k r' = k r ∧ replacerSize r' = replacerSize r.
Proof.
  destruct o; simpl.
  - intros H. apply bind_Ok in H as (_ & _ & H). unfold recordAccess in H.
    repeat case_match; simplify_eq; done.
  - intros H. apply bind_Ok in H as (_ & _ & [= <-]). unfold setEvictable.
    by case_match.
  - intros [= <-]. unfold Evict. repeat case_match; done.
  - intros H. apply bind_Ok in H as (_ & _ & H). unfold remove in H.
    repeat case_match; simplify_eq; done.
Qed.

Lemma reachable_config numFrames k0 r :
  reachable numFrames k0 r → k r = k0 ∧ replacerSize r = numFrames.
Proof.
  induction 1 as [|r o r' _ [IHk IHn] Hstep]; [done|].
  apply step_config in Hstep as [-> ->]. done.
Qed.

(** C9 as amended.  On a replacer built with [k = 1], the first
    [RecordAccess] of any in-range frame not seen before takes the
    graduation branch and hands [list.Remove] the nil handle of a node that
    was never inserted: the call aborts.  For every other [k] the call
    completes: with [k = 0] through the cache branch, with [k >= 2] through
    the history branch. *)
Theorem RecordAccess_unseen numFrames k0 r f :
  reachable numFrames k0 r → f ≤ numFrames → accessCount r !! f = None →
  (k0 = 1 → RecordAccess r f = Panic ErrNilElement) ∧
  (k0 = 0 → ∃ r', RecordAccess r f = Ok r' ∧ accessCount r' !! f = Some 1 ∧
                  frames (cacheList r') = f :: frames (cacheList r)) ∧
  (2 ≤ k0 → ∃ r', RecordAccess r f = Ok r' ∧ accessCount r' !! f = Some 1 ∧
                  frames (historyList r') = f :: frames (historyList r)) ∧
  ((∃ r', RecordAccess r f = Ok r') ↔ k0 ≠ 1).
Proof.
  intros Hr Hrange Hnone. pose proof (reachable_wf _ _ _ Hr) as Hwf.
  destruct (reachable_config _ _ _ Hr) as [Hk Hn].
  assert (Hh : historyMap r !! f = None).
  { destruct (historyMap r !! f) eqn:Hh; [|done].
    assert (is_Some (historyMap r !! f)) as Hs by eauto.
    apply (wf_hist_count _ Hwf) in Hs as (c & Hc & _). congruence. }
  assert (Hc : cacheMap r !! f = None).
  { destruct (cacheMap r !! f) eqn:Hc; [|done].
    assert (is_Some (cacheMap r !! f)) as Hs by eauto.
    apply (wf_cache_count _ Hwf) in Hs as (c & Hc' & _). congruence. }
  unfold RecordAccess, checkOverstep.
  assert ((replacerSize r <? f) = false) as -> by (apply N.ltb_ge; lia).
  unfold bind, recordAccess. rewrite Hnone.
  cbn [k historyMap cacheMap default]. rewrite N.add_0_l, Hk, Hh, Hc.
  destruct (decide (k0 = 1)) as [->|Hne1]; [|destruct (decide (k0 = 0)) as [->|Hne0]].
  - rewrite N.eqb_refl. split_and!; try done; try lia.
    split; [by intros [? ?]|done].
  - change (1 =? 0) with false. change (0 <? 1) with true. cbv iota.
    split_and!; try done; try lia.
    + intros _. eexists. split; [reflexivity|]. simpl.
      by rewrite lookup_insert_eq.
    + split; [done|eauto].
  - assert ((1 =? k0) = false) as -> by (apply N.eqb_neq; lia).
    assert ((k0 <? 1) = false) as -> by (apply N.ltb_ge; lia).
    split_and!; try done; try lia.
    + intros _. eexists. split; [reflexivity|]. simpl.
      by rewrite lookup_insert_eq.
    + split; [done|eauto].
Qed.

Lemma RecordAccess_unseen_witness :
  reachable 7 2 (after 7 2 scenarioA) ∧ 7 ≤ 7 ∧
  accessCount (after 7 2 scenarioA) !! 7 = None ∧
  ∃ r', RecordAccess (after 7 2 scenarioA) 7 = Ok r' ∧
        accessCount r' !! 7 = Some 1 ∧
        frames (historyList r') = 7 :: frames (historyList (after 7 2 scenarioA)).
Proof.
  assert (Hr : reachable 7 2 (after 7 2 scenarioA)).
  { apply after_reachable. eexists. vm_compute. reflexivity. }
  assert (Hrange : 7 ≤ 7) by reflexivity.
  assert (Hc : accessCount (after 7 2 scenarioA) !! 7 = None).
  { vm_compute. reflexivity. }
  split; [exact Hr|]. split; [exact Hrange|]. split; [exact Hc|].
  destruct (RecordAccess_unseen 7 2 _ 7 Hr Hrange Hc) as (_ & _ & H & _).
  apply H. vm_compute. discriminate.
Defined.

(** With [k = 0] the first access of a frame completes, so the failure is
    not what happens for every [k] below 2. *)
Lemma RecordAccess_unseen_k0_completes :
  ¬ (∀ numFrames k0 f r',
       RecordAccess (NewLRUKReplacer numFrames k0) f = Ok r' → 2 ≤ k0).
Proof.
  intros H.
  destruct (RecordAccess (NewLRUKReplacer 7 0) 1) as [r'|] eqn:E.
  - specialize (H 7 0 1 r' E). vm_compute in H. by apply H.
  - vm_compute in E. discriminate E.
Qed.

Example RecordAccess_k1_aborts :
  RecordAccess (NewLRUKReplacer 7 1) 1 = Panic ErrNilElement.
Proof. vm_compute. reflexivity. Qed.

(** *** The order of the history list *)

(** C4, the code at the failing input.  With [k = 3], frame 1 is accessed
    first, then frame 2, then frame 1 again (its count stays below [k]):
    the repeat access moves frame 1 in front of frame 2 in the history
    list, and [Evict] returns frame 2, not the frame accessed first. *)
Theorem repeat_access_moves_to_front :
  frames (historyList (after 7 3 [OpRecordAccess 1; OpRecordAccess 2])) = [2; 1] ∧
  accessCount (after 7 3 repeatAccess) !! 1 = Some 2 ∧
  frames (historyList (after 7 3 repeatAccess)) = [1; 2] ∧
  fst (Evict (after 7 3 repeatAccess)) = (2, true).
Proof. vm_compute. done. Qed.

End LrukFacts.

(** ** Properties of the hash table *)
Module EhtFacts.

Import Eht.

Open Scope Z_scope.

(** *** Buckets *)

Section BucketFacts.

Context {V : Type}.
Implicit Types (b : Bucket V) (l : list (Entry V)) (k : string) (v : V).

Lemma find_entry_None l k : find_entry l k = None ↔ k ∉ keys l.
Proof.
  induction l as [|x l IH]; simpl.
  - split; [|done]. intros _ H. by apply elem_of_nil in H.
  - rewrite not_elem_of_cons. destruct (decide (key x = k)) as [<-|Hne].
    + split; [done|]. by intros [? _].
    + rewrite IH. split; [|tauto]. intros H. split; [congruence|done].
Qed.

Lemma find_entry_Some l k v : find_entry l k = Some v → k ∈ keys l.
Proof.
  intros H. destruct (decide (k ∈ keys l)) as [|Hn]; [done|].
  apply find_entry_None in Hn. congruence.
Qed.

Lemma update_entry_None l k v : update_entry l k v = None ↔ k ∉ keys l.
Proof.
  induction l as [|x l IH]; simpl.
  - split; [|done]. intros _ H. by apply elem_of_nil in H.
  - rewrite not_elem_of_cons. destruct (decide (key x = k)) as [<-|Hne].
    + split; [done|]. by intros [? _].
    + rewrite fmap_None, IH. split; [|tauto]. intros H. split; [congruence|done].
Qed.

Lemma update_entry_keys l k v l' : update_entry l k v = Some l' → keys l' = keys l.
Proof.
  revert l'. induction l as [|x l IH]; simpl; intros l'; [done|].
  destruct (decide (key x = k)) as [<-|Hne].
  - by intros [= <-].
  - destruct (update_entry l k v) as [l0|]; simpl; [|done].
    intros [= <-]. simpl. f_equal. by apply IH.
Qed.

Lemma update_entry_length l k v l' : update_entry l k v = Some l' → length l' = length l.
Proof.
  intros H. apply update_entry_keys in H. unfold keys in H.
  by rewrite <- (length_fmap key l'), H, length_fmap.
Qed.

Lemma update_entry_find l k v l' : update_entry l k v = Some l' → find_entry l' k = Some v.
Proof.
  revert l'. induction l as [|x l IH]; simpl; intros l'; [done|].
  destruct (decide (key x = k)) as [Heq|Hne].
  - intros [= <-]. simpl. by rewrite decide_True.
  - destruct (update_entry l k v) as [l0|]; simpl; [|done].
    intros [= <-]. simpl. rewrite decide_False by done. by apply IH.
Qed.

Lemma update_entry_find_ne l k v l' k' :
  k' ≠ k → update_entry l k v = Some l' → find_entry l' k' = find_entry l k'.
Proof.
  intros Hk. revert l'. induction l as [|x l IH]; simpl; intros l'; [done|].
  destruct (decide (key x = k)) as [Heq|Hne].
  - intros [= <-]. simpl. rewrite !decide_False by congruence. done.
  - destruct (update_entry l k v) as [l0|]; simpl; [|done].
    intros [= <-]. simpl. destruct (decide (key x = k')); [done|]. by apply IH.
Qed.

(** Writing the value a key already has changes nothing. *)
Lemma update_entry_same l k v : find_entry l k = Some v → update_entry l k v = Some l.
Proof.
  induction l as [|x l IH]; simpl; [done|].
  destruct (decide (key x = k)) as [Heq|Hne].
  - intros [= <-]. by destruct x.
  - intros H. by rewrite IH.
Qed.

Lemma find_entry_app_new l k v :
  k ∉ keys l → find_entry (l ++ [{| key := k; value := v |}]) k = Some v.
Proof.
  induction l as [|x l IH]; simpl.
  - intros _. by rewrite decide_True.
  - rewrite not_elem_of_cons. intros [Hne Hl]. rewrite decide_False by congruence.
    by apply IH.
Qed.

Lemma find_entry_app_ne l k v k' :
  k' ≠ k → find_entry (l ++ [{| key := k; value := v |}]) k' = find_entry l k'.
Proof.
  intros Hk. induction l as [|x l IH]; simpl.
  - by rewrite decide_False.
  - destruct (decide (key x = k')); [done|]. apply IH.
Qed.

Lemma remove_entry_None l k : remove_entry l k = None ↔ k ∉ keys l.
Proof.
  induction l as [|x l IH]; simpl.
  - split; [|done]. intros _ H. by apply elem_of_nil in H.
  - rewrite not_elem_of_cons. destruct (decide (key x = k)) as [<-|Hne].
    + split; [done|]. by intros [? _].
    + rewrite fmap_None, IH. split; [|tauto]. intros H. split; [congruence|done].
Qed.

(** What [Bucket.Insert] does, by cases. *)
Lemma Bucket_Insert_cases b k v :
  (k ∈ keys (items b) ∧ ∃ l, update_entry (items b) k v = Some l ∧
     Bucket_Insert b k v = (true, {| size := size b; depth := depth b; items := l |})) ∨
  ((k ∉ keys (items b)) ∧ IsFull b = true ∧ Bucket_Insert b k v = (false, b)) ∨
  ((k ∉ keys (items b)) ∧ IsFull b = false ∧
     Bucket_Insert b k v =
       (true, {| size := size b; depth := depth b;
                 items := items b ++ [{| key := k; value := v |}] |})).
Proof.
  unfold Bucket_Insert. destruct (update_entry (items b) k v) as [l|] eqn:Hu.
  - left. split; [|eauto]. destruct (decide (k ∈ keys (items b))) as [|Hn]; [done|].
    apply (update_entry_None _ _ v) in Hn. congruence.
  - right. apply update_entry_None in Hu. destruct (IsFull b); [left|right]; done.
Qed.

Lemma Bucket_Insert_depth b k v : depth (snd (Bucket_Insert b k v)) = depth b.
Proof.
  destruct (Bucket_Insert_cases b k v) as [(_ & l & _ & ->)|[(_ & _ & ->)|(_ & _ & ->)]];
    done.
Qed.

Lemma Bucket_Insert_size b k v : size (snd (Bucket_Insert b k v)) = size b.
Proof.
  destruct (Bucket_Insert_cases b k v) as [(_ & l & _ & ->)|[(_ & _ & ->)|(_ & _ & ->)]];
    done.
Qed.

Lemma Bucket_Insert_accepted b k v b' :
  Bucket_Insert b k v = (true, b') → Bucket_Find b' k = Some v.
Proof.
  destruct (Bucket_Insert_cases b k v)
    as [(_ & l & Hu & ->)|[(_ & _ & ->)|(Hn & _ & ->)]]; intros [= <-].
  - by apply update_entry_find in Hu.
  - by apply find_entry_app_new.
Qed.

Lemma Bucket_Insert_rejected b k v b' :
  Bucket_Insert b k v = (false, b') → b' = b ∧ IsFull b = true ∧ k ∉ keys (items b).
Proof.
  destruct (Bucket_Insert_cases b k v)
    as [(_ & l & Hu & ->)|[(? & ? & ->)|(Hn & _ & ->)]]; by intros [= <-].
Qed.

(** A full bucket without [k] stays so whatever is inserted into it. *)
Lemma Bucket_Insert_full b k k' v' :
  IsFull b = true → k ∉ keys (items b) →
  IsFull (snd (Bucket_Insert b k' v')) = true ∧
  k ∉ keys (items (snd (Bucket_Insert b k' v'))).
Proof.
  intros Hfull Hk.
  destruct (Bucket_Insert_cases b k' v')
    as [(_ & l & Hu & ->)|[(_ & _ & ->)|(_ & Hnf & _)]]; simpl; [|done|congruence].
  unfold IsFull in *. simpl.
  rewrite (update_entry_length _ _ _ _ Hu), (update_entry_keys _ _ _ _ Hu). done.
Qed.

End BucketFacts.

(** *** Hashes, masks and indices *)

Lemma testbit_small a n i : 0 ≤ n → 0 ≤ a < 2^n → n ≤ i → Z.testbit a i = false.
Proof.
  intros Hn Ha Hi. rewrite <- (Z.mod_small a (2^n)) by lia.
  rewrite Z.testbit_mod_pow2 by lia. destruct (i <? n) eqn:E; [lia|done].
Qed.

Lemma lxor_range a b n :
  0 ≤ n → 0 ≤ a < 2^n → 0 ≤ b < 2^n → 0 ≤ Z.lxor a b < 2^n.
Proof.
  intros Hn Ha Hb.
  assert (Z.lxor a b mod 2^n = Z.lxor a b) as <-.
  { apply Z.bits_inj'. intros i Hi. rewrite Z.testbit_mod_pow2 by lia.
    destruct (i <? n) eqn:E; [done|]. simpl. rewrite Z.lxor_spec.
    rewrite (testbit_small a n i), (testbit_small b n i) by lia. done. }
  apply Z.mod_pos_bound. lia.
Qed.

Lemma fnv1_range h s : 0 ≤ h < 2^32 → 0 ≤ fnv1 h s < 2^32.
Proof.
  revert h. induction s as [|c s IH]; simpl; intros h Hh; [done|].
  apply IH. apply lxor_range; [lia| |].
  - apply Z.mod_pos_bound. lia.
  - pose proof (Ascii.N_ascii_bounded c) as Hc. lia.
Qed.

Lemma Hash32_range k : 0 ≤ Hash32 k < 2^32.
Proof. apply fnv1_range. unfold offset32. lia. Qed.

Lemma mask32_spec gd : mask32 gd = Z.ones (Z.min (Z.of_N gd) 32).
Proof.
  unfold mask32, wrap32. rewrite Z.shiftl_1_l, Z.ones_equiv.
  destruct (Z.lt_ge_cases (Z.of_N gd) 32) as [Hlt|Hge].
  - rewrite Z.min_l by lia.
    assert (0 < 2 ^ Z.of_N gd < 2^32).
    { split; [apply Z.pow_pos_nonneg; lia|apply Z.pow_lt_mono_r; lia]. }
    rewrite (Z.mod_small (2 ^ Z.of_N gd)) by lia. rewrite Z.mod_small by lia. lia.
  - rewrite Z.min_r by lia.
    replace (Z.of_N gd) with ((Z.of_N gd - 32) + 32) by lia.
    rewrite Z.pow_add_r by lia. rewrite Z.mod_mul by lia. done.
Qed.

Lemma IndexOf_spec {V} (e : ExtendibleHashTable V) k :
  IndexOf e k = Hash32 k mod 2 ^ Z.min (Z.of_N (globalDepth e)) 32.
Proof. unfold IndexOf. rewrite mask32_spec. apply Z.land_ones. lia. Qed.

Lemma IndexOf_range {V} (e : ExtendibleHashTable V) k :
  0 ≤ IndexOf e k < 2 ^ Z.of_N (globalDepth e).
Proof.
  rewrite IndexOf_spec.
  pose proof (Z.mod_pos_bound (Hash32 k) (2 ^ Z.min (Z.of_N (globalDepth e)) 32)
                ltac:(apply Z.pow_pos_nonneg; lia)) as H.
  split; [lia|]. eapply Z.lt_le_trans; [apply H|].
  apply Z.pow_le_mono_r; lia.
Qed.

Lemma agree_bits n a b :
  agree n a b ↔ ∀ m, 0 ≤ m < Z.of_N n → Z.testbit a m = Z.testbit b m.
Proof.
  unfold agree. split.
  - intros H m Hm.
    rewrite <- (Z.mod_pow2_bits_low a (Z.of_N n) m) by lia.
    rewrite <- (Z.mod_pow2_bits_low b (Z.of_N n) m) by lia. by rewrite H.
  - intros H. apply Z.bits_inj'. intros m Hm.
    rewrite !Z.testbit_mod_pow2 by lia.
    destruct (m <? Z.of_N n) eqn:E; [|done]. simpl. apply H. lia.
Qed.

Lemma agree_refl n a : agree n a a.
Proof. done. Qed.

Lemma agree_sym n a b : agree n a b → agree n b a.
Proof. unfold agree. done. Qed.

Lemma agree_trans n a b c : agree n a b → agree n b c → agree n a c.
Proof. unfold agree. congruence. Qed.

Lemma agree_le n n' a b : (n' ≤ n)%N → agree n a b → agree n' a b.
Proof. rewrite !agree_bits. intros Hle H m Hm. apply H. lia. Qed.

Lemma agree_mod n g a : (n ≤ g)%N → agree n (a mod 2 ^ Z.of_N g) a.
Proof.
  intros Hle. apply agree_bits. intros m Hm. apply Z.mod_pow2_bits_low. lia.
Qed.

Lemma agree_succ n a b :
  agree (n + 1) a b ↔ agree n a b ∧ Z.testbit a (Z.of_N n) = Z.testbit b (Z.of_N n).
Proof.
  rewrite !agree_bits. split.
  - intros H. split; [intros m Hm|]; apply H; lia.
  - intros [H Hn] m Hm. destruct (decide (m = Z.of_N n)) as [->|]; [done|].
    apply H. lia.
Qed.

(** [i & (1 << n) == 0] reads bit [n] of [i]. *)
Lemma land_pow2_testbit i n :
  0 ≤ n → (Z.land i (2 ^ n) =? 0) = negb (Z.testbit i n).
Proof.
  intros Hn. destruct (Z.testbit i n) eqn:Hb; simpl.
  - apply Z.eqb_neq. intros H0.
    assert (Z.testbit (Z.land i (2 ^ n)) n = true) as Ht.
    { rewrite Z.land_spec, Hb, Z.pow2_bits_true by lia. done. }
    rewrite H0, Z.bits_0 in Ht. done.
  - apply Z.eqb_eq. apply Z.bits_inj'. intros m Hm.
    rewrite Z.land_spec, Z.bits_0, Z.pow2_bits_eqb by lia.
    destruct (Z.eqb_spec n m) as [<-|]; [by rewrite Hb|by rewrite andb_false_r].
Qed.

Lemma localDepthMask_spec n : Z.of_N n < 32 → wrap32 (Z.shiftl 1 (Z.of_N n)) = 2 ^ Z.of_N n.
Proof.
  intros Hn. unfold wrap32. rewrite Z.shiftl_1_l. apply Z.mod_small.
  split; [apply Z.pow_nonneg; lia|apply Z.pow_lt_mono_r; lia].
Qed.

(** *** Tables: lookups after an update of the heap *)

Section TableFacts.

Context {V : Type}.
Implicit Types (e : ExtendibleHashTable V) (b : Bucket V) (k : string) (v : V).

Lemma bucketAt_Some e i p b :
  bucketAt e i = Some (p, b) ↔ dir e !! Z.to_nat i = Some p ∧ heap e !! p = Some b.
Proof.
  unfold bucketAt. destruct (dir e !! Z.to_nat i) as [q|].
  - destruct (heap e !! q) as [c|] eqn:Hq.
    + split; [by intros [= <- <-]|]. intros [[= <-] Hb]. congruence.
    + split; [done|]. intros [[= <-] Hb]. congruence.
  - split; [done|]. by intros [? _].
Qed.

Lemma IndexOf_setHeap e h k : IndexOf (setHeap e h) k = IndexOf e k.
Proof. done. Qed.

Lemma bucketAt_setHeap_eq e i p b b' :
  bucketAt e i = Some (p, b) → bucketAt (setHeap e (<[p := b']> (heap e))) i = Some (p, b').
Proof.
  rewrite !bucketAt_Some. simpl. intros [Hd Hh]. split; [done|].
  apply list_lookup_insert_eq. by eapply lookup_lt_Some.
Qed.

Lemma setHeap_id e p b : heap e !! p = Some b → setHeap e (<[p := b]> (heap e)) = e.
Proof. intros H. unfold setHeap. rewrite list_insert_id by done. by destruct e. Qed.

(** C1, the part that holds of either doubling loop: whenever the loop of
    [Insert] returns, the pair has been placed. *)
Lemma insertLoop_Find double fuel e k v e' :
  insertLoop double fuel e k v = Done e' → Find e' k = Done (Some v).
Proof.
  revert e. induction fuel as [|fuel IH]; simpl; intros e; [done|].
  destruct (bucketAt e (IndexOf e k)) as [[p b]|] eqn:Hb; [|done].
  destruct (Bucket_Insert b k v) as [[] b'] eqn:Hi.
  - intros [= <-]. unfold Find. rewrite IndexOf_setHeap.
    rewrite (bucketAt_setHeap_eq _ _ _ _ b' Hb).
    by rewrite (Bucket_Insert_accepted _ _ _ _ Hi).
  - destruct (splitStep double _ k) as [e1| |]; [|done|done]. apply IH.
Qed.

(** The loop returns at once when the bucket of the key takes the pair. *)
Lemma insertLoop_accepted double fuel e k v p b b' :
  bucketAt e (IndexOf e k) = Some (p, b) →
  Bucket_Insert b k v = (true, b') →
  insertLoop double (S fuel) e k v = Done (setHeap e (<[p := b']> (heap e))).
Proof. intros Hb Hi. simpl. by rewrite Hb, Hi. Qed.

(** *** The two doubling loops *)

Lemma appendUpTo_spec todo i d :
  (i + todo ≤ length d)%nat → appendUpTo todo i d = d ++ take todo (drop i d).
Proof.
  revert i d. induction todo as [|todo IH]; intros i d Hle; simpl.
  - by rewrite take_0, app_nil_r.
  - destruct (d !! i) as [p|] eqn:Hp.
    + rewrite IH by (rewrite length_app; simpl; lia).
      rewrite (drop_S d p i Hp). simpl. rewrite <- app_assoc. simpl.
      rewrite drop_app_le by lia.
      rewrite take_app_le by (rewrite length_drop; lia). done.
    + apply lookup_ge_None in Hp. lia.
Qed.

Lemma appendCapacity_spec d : appendCapacity d = d ++ d.
Proof.
  unfold appendCapacity. rewrite appendUpTo_spec by lia.
  by rewrite drop_0, firstn_all.
Qed.

(** The loop whose bound grows with the slice never ends on a directory
    that has a slot. *)
Lemma appendLoop_Some fuel i d d' :
  appendLoop fuel i d = Some d' → (length d ≤ i)%nat ∧ d' = d.
Proof.
  revert i d. induction fuel as [|fuel IH]; intros i d; simpl; [done|].
  destruct (decide (i < length d)%nat) as [Hlt|Hge].
  - destruct (d !! i) as [p|]; [|done]. intros H. apply IH in H as [H _].
    rewrite length_app in H. simpl in H. lia.
  - intros [= <-]. split; [lia|done].
Qed.

Lemma appendLoop_diverges fuel d : d ≠ [] → appendLoop fuel 0 d = None.
Proof.
  intros Hd. destruct (appendLoop fuel 0 d) as [d'|] eqn:H; [|done].
  apply appendLoop_Some in H as [H _]. destruct d; [done|]. simpl in H. lia.
Qed.

Lemma appendLoop_doubles fuel : doubles (appendLoop fuel 0).
Proof.
  intros d d' H. apply appendLoop_Some in H as [H ->].
  destruct d; [done|]. simpl in H. lia.
Qed.

Lemma appendCapacity_doubles : doubles (λ d, Some (appendCapacity d)).
Proof. intros d d' [= <-]. apply appendCapacity_spec. Qed.

(** A slot of the doubled directory is the slot of the index without its
    top bit. *)
Lemma lookup_double (d : list nat) i p :
  (d ++ d) !! i = Some p ↔
  (i < 2 * length d)%nat ∧
  d !! Z.to_nat (Z.of_nat i mod Z.of_nat (length d)) = Some p.
Proof.
  destruct (decide (i < length d)%nat) as [Hlt|Hge].
  - rewrite lookup_app_l by lia. rewrite Z.mod_small by lia.
    rewrite Nat2Z.id. split; [intros H; split; [lia|done]|by intros [_ ?]].
  - rewrite lookup_app_r by lia.
    destruct (decide (i < 2 * length d)%nat) as [Hlt2|Hge2].
    + replace (Z.of_nat i) with (Z.of_nat (i - length d) + 1 * Z.of_nat (length d)) by lia.
      rewrite Z.mod_add by lia. rewrite Z.mod_small by lia. rewrite Nat2Z.id.
      split; [intros H; split; [lia|done]|by intros [_ ?]].
    + split; [|intros [? _]; lia]. intros H. apply lookup_lt_Some in H. lia.
Qed.

(** *** The loop that redirects the slots *)

Lemma redirect_length t n0 n1 m (d : list nat) i :
  length (redirect t n0 n1 m d i) = length d.
Proof.
  unfold redirect. repeat case_match; rewrite ?length_insert; done.
Qed.

Lemma redirect_lookup t n0 n1 m (d : list nat) i j :
  redirect t n0 n1 m d i !! j =
  if decide (j = i) then
    (λ p, if decide (p = t) then if Z.land (Z.of_nat i) m =? 0 then n0 else n1 else p)
      <$> d !! i
  else d !! j.
Proof.
  unfold redirect. destruct (decide (j = i)) as [->|Hne].
  - destruct (d !! i) as [p|] eqn:Hp; simpl; [|done].
    assert (i < length d)%nat by by eapply lookup_lt_Some.
    destruct (decide (p = t)); [|done].
    destruct (Z.land (Z.of_nat i) m =? 0); by rewrite list_lookup_insert_eq.
  - repeat case_match; rewrite ?list_lookup_insert_ne; done.
Qed.

Lemma redirect_fold t n0 n1 m n (d : list nat) j :
  foldl (redirect t n0 n1 m) d (seq 0 n) !! j =
  if decide (j < n)%nat then
    (λ p, if decide (p = t) then if Z.land (Z.of_nat j) m =? 0 then n0 else n1 else p)
      <$> d !! j
  else d !! j.
Proof.
  induction n as [|n IH].
  - cbn [seq foldl]. destruct (decide (j < 0)%nat); [lia|done].
  - rewrite seq_S, foldl_app. cbn [foldl Nat.add]. rewrite redirect_lookup.
    destruct (decide (j = n)) as [->|Hne].
    + rewrite IH. destruct (decide (n < n)%nat); [lia|].
      destruct (decide (n < S n)%nat); [done|lia].
    + rewrite IH. destruct (decide (j < n)%nat), (decide (j < S n)%nat); try lia; done.
Qed.

Lemma redistribute_length t n0 n1 m (d : list nat) :
  length (redistribute t n0 n1 m d) = length d.
Proof.
  unfold redistribute. generalize (Z.to_nat (wrap32 (Z.of_nat (length d)))).
  intros n. induction n as [|n IH]; [done|].
  rewrite seq_S, foldl_app. cbn [foldl Nat.add]. by rewrite redirect_length.
Qed.

(** With fewer than 2^32 slots the loop visits every slot. *)
Lemma redistribute_lookup t n0 n1 m (d : list nat) j :
  Z.of_nat (length d) < 2^32 →
  redistribute t n0 n1 m d !! j =
  (λ p, if decide (p = t) then if Z.land (Z.of_nat j) m =? 0 then n0 else n1 else p)
    <$> d !! j.
Proof.
  intros Hlen. unfold redistribute, wrap32. rewrite Z.mod_small by lia.
  rewrite Nat2Z.id, redirect_fold. destruct (decide (j < length d)%nat) as [|Hge]; [done|].
  rewrite lookup_ge_None_2 by lia. done.
Qed.

(** With a multiple of 2^32 slots the bound [uint32(len(e.dir))] is 0 and
    the loop visits none. *)
Lemma redistribute_none t n0 n1 m (d : list nat) :
  wrap32 (Z.of_nat (length d)) = 0 → redistribute t n0 n1 m d = d.
Proof. intros H. unfold redistribute. by rewrite H. Qed.

End TableFacts.

(** *** The invariant of the table *)

Section Invariant.

Context {V : Type}.
Implicit Types (e : ExtendibleHashTable V) (b : Bucket V) (k : string) (v : V).

Lemma New_inv bs : tbl_inv (NewExtendibleHashTable (V:=V) bs).
Proof.
  constructor; simpl.
  - lia.
  - done.
  - intros [|i] p; [|done]. intros [= <-]. eexists. split; [done|].
    constructor; simpl; try done; try lia.
    + constructor.
    + intros x Hx. by apply elem_of_nil in Hx.
  - intros [|i] [|j] p b; simpl; try lia; try done.
Qed.

Lemma tbl_inv_bucketAt e k :
  tbl_inv e → ∃ p b, bucketAt e (IndexOf e k) = Some (p, b) ∧
                     bucket_ok e (Z.to_nat (IndexOf e k)) b.
Proof.
  intros Hinv. pose proof (IndexOf_range e k) as Hr.
  destruct (dir e !! Z.to_nat (IndexOf e k)) as [p|] eqn:Hp.
  - destruct (ti_slot _ Hinv _ _ Hp) as (b & Hb & Hok).
    exists p, b. split; [|done]. by apply bucketAt_Some.
  - apply lookup_ge_None in Hp. pose proof (ti_length _ Hinv). lia.
Qed.

Lemma IndexOf_low e k :
  (globalDepth e ≤ 32)%N → IndexOf e k = Hash32 k mod 2 ^ Z.of_N (globalDepth e).
Proof. intros H. rewrite IndexOf_spec. by rewrite Z.min_l by lia. Qed.

Lemma grown_lookup e i p :
  tbl_inv e → dir (grown e) !! i = Some p →
  ∃ i0, dir e !! i0 = Some p ∧
        Z.of_nat i0 = Z.of_nat i mod 2 ^ Z.of_N (globalDepth e).
Proof.
  intros Hinv Hi. simpl in Hi. apply lookup_double in Hi as [Hlt Hi].
  rewrite (ti_length _ Hinv) in Hi. eexists. split; [exact Hi|].
  rewrite Z2Nat.id; [done|]. apply Z.mod_pos_bound. apply Z.pow_pos_nonneg; lia.
Qed.

Lemma grown_inv e : tbl_inv e → (globalDepth e ≤ 30)%N → tbl_inv (grown e).
Proof.
  intros Hinv Hgd. pose proof (ti_length _ Hinv) as Hlen.
  assert (Hpos : 0 < 2 ^ Z.of_N (globalDepth e)) by (apply Z.pow_pos_nonneg; lia).
  constructor.
  - simpl. lia.
  - simpl. rewrite length_app, N2Z.inj_add, Z.pow_add_r by lia. lia.
  - intros i p Hi. destruct (grown_lookup _ _ _ Hinv Hi) as (i0 & Hi0 & Heq).
    destruct (ti_slot _ Hinv _ _ Hi0) as (b & Hb & Hok). exists b. split; [done|].
    destruct Hok. constructor; simpl; try done; try lia.
    intros x Hx. eapply agree_trans; [by apply bo_hash0|].
    rewrite Heq. by apply agree_mod.
  - intros i j p b Hi Hb Hj.
    destruct (grown_lookup _ _ _ Hinv Hi) as (i0 & Hi0 & Heqi).
    destruct (ti_slot _ Hinv _ _ Hi0) as (b' & Hb' & Hok).
    assert (b' = b) as -> by (simpl in Hb; congruence).
    pose proof (bo_depth _ _ _ Hok) as Hd.
    simpl in Hj. rewrite length_app in Hj.
    set (j0 := Z.to_nat (Z.of_nat j mod 2 ^ Z.of_N (globalDepth e))).
    assert (Heqj : Z.of_nat j0 = Z.of_nat j mod 2 ^ Z.of_N (globalDepth e)).
    { subst j0. rewrite Z2Nat.id; [done|]. by apply Z.mod_pos_bound. }
    assert (Hj0 : (j0 < length (dir e))%nat).
    { pose proof (Z.mod_pos_bound (Z.of_nat j) _ Hpos). lia. }
    assert (Hdj : dir (grown e) !! j = Some p ↔ dir e !! j0 = Some p).
    { simpl. rewrite lookup_double, Hlen. subst j0. split; [by intros [_ ?]|].
      intros H. split; [lia|done]. }
    rewrite Hdj, (ti_route _ Hinv i0 j0 p b Hi0 Hb' Hj0).
    assert (agree (depth b) (Z.of_nat i0) (Z.of_nat i)).
    { rewrite Heqi. by apply agree_mod. }
    assert (agree (depth b) (Z.of_nat j0) (Z.of_nat j)).
    { rewrite Heqj. by apply agree_mod. }
    unfold agree in *. split; congruence.
Qed.

(** *** The loop that inserts the items of the old bucket again *)

Lemma extended_nil b : extended b [] = b.
Proof. unfold extended. rewrite app_nil_r. by destruct b. Qed.

Lemma reinsert_spec n (n0 n1 : nat) l :
  ∀ e B0 B1,
  n0 ≠ n1 → heap e !! n0 = Some B0 → heap e !! n1 = Some B1 →
  (∀ x, x ∈ l → dir e !! Z.to_nat (IndexOf e (key x)) =
                 Some (if hash_side n x then n1 else n0)) →
  NoDup (keys l) →
  (∀ x, x ∈ l → (key x ∉ keys (items B0)) ∧ (key x ∉ keys (items B1))) →
  (N.of_nat (length (items B0) + length l) ≤ size B0)%N →
  (N.of_nat (length (items B1) + length l) ≤ size B1)%N →
  ∃ e', reinsert e l = Done e' ∧ same_frame e e' ∧
        heap e' !! n0 = Some (extended B0 (filter (λ x, hash_side n x = false) l)) ∧
        heap e' !! n1 = Some (extended B1 (filter (λ x, hash_side n x = true) l)) ∧
        ∀ q, q ≠ n0 → q ≠ n1 → heap e' !! q = heap e !! q.
Proof.
  induction l as [|x l IH]; intros e B0 B1 Hne H0 H1 Hroute Hnd Hfresh Hc0 Hc1.
  - exists e. simpl. rewrite !filter_nil, !extended_nil. by repeat split.
  - simpl. rewrite (proj2 (bucketAt_Some e _ (if hash_side n x then n1 else n0)
                             (if hash_side n x then B1 else B0))).
    2:{ split; [apply Hroute; by left|]. by destruct (hash_side n x). }
    apply NoDup_cons in Hnd as [Hx Hnd]. fold (keys l) in Hx, Hnd.
    destruct (Hfresh x ltac:(by left)) as [Hx0 Hx1].
    assert (Hins : ∀ b, key x ∉ keys (items b) →
              (N.of_nat (length (items b) + length (x :: l)) ≤ size b)%N →
              snd (Bucket_Insert b (key x) (value x)) = extended b [x]).
    { intros b Hk Hc.
      destruct (Bucket_Insert_cases b (key x) (value x))
        as [(Hin & _)|[(_ & Hfull & _)|(_ & _ & ->)]]; [done| |].
      - unfold IsFull in Hfull. apply N.eqb_eq in Hfull. simpl in Hc. lia.
      - simpl. unfold extended. by destruct x. }
    assert (Hfresh' : ∀ b y, y ∈ l → key y ∉ keys (items b) →
              key y ∉ keys (items (extended b [x]))).
    { intros b y Hy Hk. simpl. unfold keys. rewrite fmap_app, elem_of_app.
      intros [?|Hyx]; [done|]. simpl in Hyx.
      apply list_elem_of_singleton in Hyx. apply Hx. rewrite <- Hyx.
      by apply list_elem_of_fmap_2. }
    destruct (hash_side n x) eqn:Hside.
    + rewrite (Hins B1) by done.
      destruct (IH (setHeap e (<[n1 := extended B1 [x]]> (heap e))) B0 (extended B1 [x]))
        as (e' & Hre & Hsf & Hh0 & Hh1 & Hrest); try done.
      * simpl. by rewrite list_lookup_insert_ne.
      * simpl. apply list_lookup_insert_eq. by eapply lookup_lt_Some.
      * intros y Hy. simpl. rewrite IndexOf_setHeap. apply Hroute. by right.
      * intros y Hy. destruct (Hfresh y ltac:(by right)). split; [done|].
        by apply Hfresh'.
      * simpl in *. lia.
      * simpl in *. rewrite length_app. simpl. lia.
      * exists e'. split; [done|]. split_and!.
        -- destruct Hsf as (? & ? & ? & ? & Hl). simpl in *.
           rewrite length_insert in Hl. by repeat split.
        -- rewrite Hh0. f_equal. rewrite filter_cons_False; [done|].
           rewrite Hside. done.
        -- rewrite Hh1. f_equal. rewrite filter_cons_True by done.
           unfold extended. simpl. by rewrite <- app_assoc.
        -- intros q Hq0 Hq1. rewrite Hrest by done. simpl.
           by rewrite list_lookup_insert_ne.
    + rewrite (Hins B0) by done.
      destruct (IH (setHeap e (<[n0 := extended B0 [x]]> (heap e))) (extended B0 [x]) B1)
        as (e' & Hre & Hsf & Hh0 & Hh1 & Hrest); try done.
      * simpl. apply list_lookup_insert_eq. by eapply lookup_lt_Some.
      * simpl. by rewrite list_lookup_insert_ne.
      * intros y Hy. simpl. rewrite IndexOf_setHeap. apply Hroute. by right.
      * intros y Hy. destruct (Hfresh y ltac:(by right)). split; [|done].
        by apply Hfresh'.
      * simpl in *. rewrite length_app. simpl. lia.
      * simpl in *. lia.
      * exists e'. split; [done|]. split_and!.
        -- destruct Hsf as (? & ? & ? & ? & Hl). simpl in *.
           rewrite length_insert in Hl. by repeat split.
        -- rewrite Hh0. f_equal. rewrite filter_cons_True by done.
           unfold extended. simpl. by rewrite <- app_assoc.
        -- rewrite Hh1. f_equal. rewrite filter_cons_False; [done|].
           rewrite Hside. done.
        -- intros q Hq0 Hq1. rewrite Hrest by done. simpl.
           by rewrite list_lookup_insert_ne.
Qed.

(** *** Splitting a bucket *)

Lemma keys_filter_NoDup (P : Entry V → Prop) `{∀ x, Decision (P x)} (l : list (Entry V)) :
  NoDup (keys l) → NoDup (keys (filter P l)).
Proof.
  intros Hnd. eapply sublist_NoDup; [exact Hnd|].
  unfold keys. apply fmap_sublist, sublist_filter.
Qed.

(** What [splitBucket] returns on a table that satisfies the invariant,
    when the bucket of the key is less deep than the directory: the slots
    of the old bucket [p] are shared out between two new buckets, which
    hold its items by bit [depth b] of their hashes; the other buckets are
    as before. *)
Lemma splitBucket_run e k p b :
  tbl_inv e → bucketAt e (IndexOf e k) = Some (p, b) →
  (depth b < globalDepth e)%N →
  let n0 := length (heap e) in
  let n1 := S (length (heap e)) in
  ∃ e', splitBucket e k = Done e' ∧
    globalDepth e' = globalDepth e ∧ bucketSize e' = bucketSize e ∧
    numBuckets e' = (numBuckets e + 1)%N ∧
    length (dir e') = length (dir e) ∧
    (∀ i, dir e' !! i =
          (λ q, if decide (q = p) then split_slot (depth b) n0 n1 i else q) <$> dir e !! i) ∧
    heap e' !! n0 = Some (extended (NewBucket (bucketSize e) (depth b + 1))
                            (filter (λ x, hash_side (depth b) x = false) (items b))) ∧
    heap e' !! n1 = Some (extended (NewBucket (bucketSize e) (depth b + 1))
                            (filter (λ x, hash_side (depth b) x = true) (items b))) ∧
    (∀ q, (q < n0)%nat → q ≠ p → heap e' !! q = heap e !! q).
Proof.
  intros Hinv Hb Hlt n0 n1. pose proof Hb as Hb'.
  apply bucketAt_Some in Hb' as [Hdp Hhp].
  destruct (ti_slot _ Hinv _ _ Hdp) as (b' & Hb'' & Hok).
  assert (b' = b) as -> by congruence. clear Hb''.
  pose proof (ti_depth _ Hinv) as Hgd. pose proof (ti_length _ Hinv) as Hlen.
  assert (Hlen32 : Z.of_nat (length (dir e)) < 2^32).
  { rewrite Hlen. apply Z.pow_lt_mono_r; lia. }
  assert (Hp : (p < length (heap e))%nat) by by eapply lookup_lt_Some.
  unfold splitBucket. rewrite Hb.
  cbn [IncrementDepth depth items].
  replace (depth b + 1 - 1)%N with (depth b) by lia.
  rewrite localDepthMask_spec by lia.
  rewrite length_app, !length_insert. cbn [length]. rewrite Nat.add_1_r.
  fold n0 n1. rewrite <- app_assoc. cbn [app].
  set (b1 := {| size := size b; depth := (depth b + 1)%N; items := items b |}).
  set (NB := NewBucket (bucketSize e) (depth b + 1)).
  set (e2 := mkTable _ _ _ _ _).
  assert (Hd2 : ∀ i, dir e2 !! i =
            (λ q, if decide (q = p) then split_slot (depth b) n0 n1 i else q) <$> dir e !! i).
  { intros i. subst e2. cbn [dir]. rewrite redistribute_lookup by done.
    destruct (dir e !! i) as [q|]; [|done]. simpl. f_equal.
    destruct (decide (q = p)); [|done]. rewrite land_pow2_testbit by lia.
    unfold split_slot. by destruct (Z.testbit (Z.of_nat i) (Z.of_N (depth b))). }
  assert (Hh0 : heap e2 !! n0 = Some NB).
  { subst e2. cbn [heap]. apply list_lookup_middle. by rewrite length_insert. }
  assert (Hh1 : heap e2 !! n1 = Some NB).
  { subst e2. cbn [heap]. rewrite lookup_app_r by (rewrite length_insert; lia).
    rewrite length_insert. subst n1 n0. by rewrite Nat.sub_succ_l, Nat.sub_diag by lia. }
  assert (Hhq : ∀ q, (q < n0)%nat → q ≠ p → heap e2 !! q = heap e !! q).
  { intros q Hq Hqp. subst e2. cbn [heap].
    rewrite lookup_app_l by (rewrite length_insert; lia).
    by rewrite list_lookup_insert_ne. }
  assert (Hroute : ∀ x, x ∈ items b →
            dir e2 !! Z.to_nat (IndexOf e2 (key x)) =
            Some (if hash_side (depth b) x then n1 else n0)).
  { intros x Hx. rewrite Hd2.
    pose proof (bo_hash _ _ _ Hok x Hx) as Hagree.
    assert (Hidx : IndexOf e2 (key x) = Hash32 (key x) mod 2 ^ Z.of_N (globalDepth e)).
    { change (IndexOf e2 (key x)) with (IndexOf e (key x)). apply IndexOf_low. lia. }
    pose proof (IndexOf_range e (key x)) as Hr.
    change (IndexOf e (key x)) with (IndexOf e2 (key x)) in Hr.
    assert (Hj : dir e !! Z.to_nat (IndexOf e2 (key x)) = Some p).
    { pose proof (IndexOf_range e k).
      apply (ti_route _ Hinv _ _ p b Hdp Hhp); [lia|].
      rewrite Z2Nat.id in Hagree by lia.
      rewrite !Z2Nat.id by lia. rewrite Hidx.
      eapply agree_trans; [apply agree_sym, Hagree|].
      apply agree_sym, agree_mod. lia. }
    rewrite Hj. simpl. rewrite decide_True by done. f_equal.
    unfold split_slot, hash_side. rewrite Z2Nat.id by lia. rewrite Hidx.
    rewrite Z.mod_pow2_bits_low by lia. done. }
  assert (Hcap : (N.of_nat (length (items NB) + length (items b)) ≤ size NB)%N).
  { simpl. pose proof (bo_length _ _ _ Hok). pose proof (bo_size _ _ _ Hok). lia. }
  assert (Hfresh : ∀ x, x ∈ items b →
            (key x ∉ keys (items NB)) ∧ (key x ∉ keys (items NB))).
  { intros x Hx. simpl. split; intros H; by apply elem_of_nil in H. }
  assert (Hne : n0 ≠ n1) by (subst n1 n0; lia).
  destruct (reinsert_spec (depth b) n0 n1 (items b) e2 NB NB Hne Hh0 Hh1 Hroute
              (bo_nodup _ _ _ Hok) Hfresh Hcap Hcap)
    as (e' & Hre & (Hsg & Hsb & Hsn & Hsd & Hsl) & Hr0 & Hr1 & Hrest).
  exists e'. split; [done|]. split_and!; try done.
  - rewrite Hsd. subst e2. cbn [dir]. by rewrite redistribute_length.
  - intros i. by rewrite Hsd.
  - intros q Hq Hqp. rewrite Hrest by (subst n1 n0; lia). by apply Hhq.
Qed.

Lemma IndexOf_depth e e' k : globalDepth e' = globalDepth e → IndexOf e' k = IndexOf e k.
Proof. unfold IndexOf. by intros ->. Qed.

Lemma splitBucket_spec e k p b :
  tbl_inv e → bucketAt e (IndexOf e k) = Some (p, b) →
  (depth b < globalDepth e)%N →
  ∃ e', splitBucket e k = Done e' ∧ tbl_inv e' ∧
    globalDepth e' = globalDepth e ∧ bucketSize e' = bucketSize e ∧
    numBuckets e' = (numBuckets e + 1)%N ∧
    ∃ q b', bucketAt e' (IndexOf e' k) = Some (q, b') ∧
      depth b' = (depth b + 1)%N ∧ size b' = bucketSize e ∧
      items b' = half b (Z.testbit (Hash32 k) (Z.of_N (depth b))).
Proof.
  intros Hinv Hb Hlt.
  destruct (splitBucket_run e k p b Hinv Hb Hlt)
    as (e' & Hrun & Hg & Hbs & Hnb & Hlen & Hd' & Hr0 & Hr1 & Hrest).
  set (n0 := length (heap e)) in *. set (n1 := S (length (heap e))) in *.
  set (NB := NewBucket (bucketSize e) (depth b + 1)) in *.
  pose proof Hb as Hb'. apply bucketAt_Some in Hb' as [Hdp Hhp].
  destruct (ti_slot _ Hinv _ _ Hdp) as (b0 & Hb0 & Hok).
  assert (b0 = b) as -> by congruence. clear Hb0.
  pose proof (ti_depth _ Hinv) as Hgd.
  assert (Hvalid : ∀ i q, dir e !! i = Some q → (q < n0)%nat).
  { intros i q Hq. destruct (ti_slot _ Hinv _ _ Hq) as (bq & Hbq & _).
    by eapply lookup_lt_Some. }
  assert (Hheap : ∀ c : bool,
            heap e' !! (if c then n1 else n0) = Some (extended NB (half b c))).
  { by intros []. }
  assert (Hnew : ∀ i, dir e !! i = Some p →
            bucket_ok e' i (extended NB (half b (Z.testbit (Z.of_nat i) (Z.of_N (depth b)))))).
  { intros i Hi. constructor; simpl.
    - rewrite Hg. lia.
    - by rewrite Hbs.
    - pose proof (length_filter (λ x, hash_side (depth b) x =
                     Z.testbit (Z.of_nat i) (Z.of_N (depth b))) (items b)).
      pose proof (bo_length _ _ _ Hok). pose proof (bo_size _ _ _ Hok).
      unfold half. lia.
    - apply keys_filter_NoDup, (bo_nodup _ _ _ Hok).
    - intros x Hx. unfold half in Hx. apply list_elem_of_filter in Hx as [Hside Hx].
      apply agree_succ. split; [|exact Hside].
      eapply agree_trans; [apply (bo_hash _ _ _ Hok x Hx)|].
      apply (ti_route _ Hinv _ _ p b Hdp Hhp); [by eapply lookup_lt_Some|done]. }
  exists e'. split; [done|]. split_and!; try done.
  - constructor.
    + by rewrite Hg.
    + rewrite Hlen, Hg. apply (ti_length _ Hinv).
    + intros i q' Hi. rewrite Hd' in Hi.
      destruct (dir e !! i) as [q|] eqn:Hq; [|done]. simpl in Hi. injection Hi as <-.
      destruct (decide (q = p)) as [->|Hne].
      * eexists. split; [apply Hheap|]. by apply Hnew.
      * destruct (ti_slot _ Hinv _ _ Hq) as (bq & Hbq & Hokq). exists bq. split.
        -- rewrite Hrest; [done| |done]. by eapply Hvalid.
        -- destruct Hokq. constructor; rewrite ?Hg, ?Hbs; done.
    + intros i j q' b' Hi Hb'' Hj. rewrite Hd' in Hi. rewrite Hlen in Hj.
      destruct (dir e !! i) as [q|] eqn:Hq; [|done]. simpl in Hi. injection Hi as <-.
      destruct (lookup_lt_is_Some_2 _ _ Hj) as [qj Hqj].
      rewrite Hd', Hqj. simpl.
      destruct (decide (q = p)) as [->|Hne].
      * unfold split_slot in Hb''. rewrite Hheap in Hb''. injection Hb'' as <-.
        simpl. rewrite agree_succ.
        pose proof (ti_route _ Hinv i j p b Hq Hhp Hj) as Hroute. rewrite Hqj in Hroute.
        destruct (decide (qj = p)) as [->|Hnej].
        -- unfold split_slot. subst n0 n1.
           destruct (Z.testbit (Z.of_nat i) (Z.of_N (depth b))),
                    (Z.testbit (Z.of_nat j) (Z.of_N (depth b)));
             split; try done.
           ++ intros _. split; [by apply Hroute|done].
           ++ intros [= H]. lia.
           ++ by intros [_ ?].
           ++ intros [= H]. lia.
           ++ by intros [_ ?].
           ++ intros _. split; [by apply Hroute|done].
        -- pose proof (Hvalid _ _ Hqj). split.
           ++ intros [= ->]. unfold split_slot in *. subst n0 n1.
              destruct (Z.testbit (Z.of_nat i) (Z.of_N (depth b))); lia.
           ++ intros [Ha _]. apply Hroute in Ha. congruence.
      * rewrite Hrest in Hb''; [|by eapply Hvalid|done].
        pose proof (ti_route _ Hinv i j q b' Hq Hb'' Hj) as Hroute. rewrite Hqj in Hroute.
        destruct (decide (qj = p)) as [->|Hnej]; [|done].
        pose proof (Hvalid _ _ Hq). split.
        -- intros [= <-]. unfold split_slot in *. subst n0 n1.
           destruct (Z.testbit (Z.of_nat j) (Z.of_N (depth b))); lia.
        -- intros Ha. apply Hroute in Ha. congruence.
  - pose proof (IndexOf_range e k) as Hr.
    rewrite (IndexOf_depth e e' k Hg).
    eexists _, _. split.
    + apply bucketAt_Some. split.
      * rewrite Hd', Hdp. simpl. by rewrite decide_True.
      * unfold split_slot. apply Hheap.
    + simpl. split_and!; try done. f_equal.
      rewrite Z2Nat.id by lia. rewrite IndexOf_low by lia.
      apply Z.mod_pow2_bits_low. lia.
Qed.

(** *** One turn of the loop *)

(** After the directory doubled the key is still routed to its bucket. *)
Lemma grown_bucketAt e k p b :
  Z.of_nat (length (dir e)) = 2 ^ Z.of_N (globalDepth e) →
  bucketAt e (IndexOf e k) = Some (p, b) →
  bucketAt (grown e) (IndexOf (grown e) k) = Some (p, b).
Proof.
  intros Hlen. rewrite !bucketAt_Some. intros [Hd Hh]. split; [|done].
  pose proof (IndexOf_range (grown e) k) as Hr1.
  pose proof (IndexOf_range e k) as Hr.
  assert (Hpos : 0 < 2 ^ Z.of_N (globalDepth e)) by (apply Z.pow_pos_nonneg; lia).
  simpl. apply lookup_double. split.
  - simpl in Hr1. rewrite N2Z.inj_add, Z.pow_add_r in Hr1 by lia. lia.
  - rewrite Z2Nat.id by lia. rewrite Hlen.
    assert (IndexOf (grown e) k mod 2 ^ Z.of_N (globalDepth e) = IndexOf e k) as ->; [|done].
    rewrite !IndexOf_spec. simpl.
    destruct (Z.le_gt_cases 32 (Z.of_N (globalDepth e))) as [Hge|Hlt].
    + rewrite !Z.min_r by lia. apply Z.mod_small.
      pose proof (Z.mod_pos_bound (Hash32 k) (2^32) ltac:(lia)).
      assert (2^32 ≤ 2 ^ Z.of_N (globalDepth e)) by (apply Z.pow_le_mono_r; lia).
      lia.
    + rewrite (Z.min_l (Z.of_N (globalDepth e))), (Z.min_l (Z.of_N (globalDepth e + 1))) by lia.
      apply (agree_mod (globalDepth e) (globalDepth e + 1)). lia.
Qed.

Lemma tbl_inv_ok e i p b :
  tbl_inv e → dir e !! i = Some p → heap e !! p = Some b → bucket_ok e i b.
Proof.
  intros Hinv Hd Hh. destruct (ti_slot _ Hinv _ _ Hd) as (b' & Hb' & Hok). congruence.
Qed.

(** A turn of the loop on a bucket less than 31 deep: either the doubling
    loop ran out of fuel, or the turn returns a table that satisfies the
    invariant, in which the bucket of the key is one deeper and holds the
    items of the old one whose hash has bit [depth b] as that of the key. *)
Lemma splitStep_spec double e k p b :
  doubles double → tbl_inv e → bucketAt e (IndexOf e k) = Some (p, b) →
  (depth b < 31)%N →
  (splitStep double e k = Timeout ∧ depth b = globalDepth e ∧ double (dir e) = None) ∨
  ∃ e', splitStep double e k = Done e' ∧ tbl_inv e' ∧ bucketSize e' = bucketSize e ∧
    ∃ q b', bucketAt e' (IndexOf e' k) = Some (q, b') ∧
      depth b' = (depth b + 1)%N ∧ size b' = bucketSize e ∧
      items b' = half b (Z.testbit (Hash32 k) (Z.of_N (depth b))).
Proof.
  intros Hdbl Hinv Hb Hlt. pose proof Hb as Hb'.
  apply bucketAt_Some in Hb' as [Hd Hh].
  pose proof (tbl_inv_ok _ _ _ _ Hinv Hd Hh) as Hok.
  pose proof (bo_depth _ _ _ Hok) as Hdepth.
  unfold splitStep, growDirectory. rewrite Hb.
  destruct (N.eqb_spec (depth b) (globalDepth e)) as [Heq|Hne].
  - destruct (double (dir e)) as [d|] eqn:Hdd; [|by left]. right.
    apply Hdbl in Hdd as ->. fold (grown e).
    assert (Hinv1 : tbl_inv (grown e)) by (apply grown_inv; [done|lia]).
    pose proof (grown_bucketAt e k p b (ti_length _ Hinv) Hb) as Hb1.
    destruct (splitBucket_spec (grown e) k p b Hinv1 Hb1)
      as (e' & Hrun & Hinv' & Hg & Hbs & Hnb & Htarget); [simpl; lia|].
    exists e'. split_and!; done.
  - right.
    destruct (splitBucket_spec e k p b Hinv Hb)
      as (e' & Hrun & Hinv' & Hg & Hbs & Hnb & Htarget); [lia|].
    exists e'. split_and!; done.
Qed.

(** *** Tables on which [Insert] cannot return *)

Lemma reinsert_keeps_full k l :
  ∀ e e' p bp,
  reinsert e l = Done e' →
  heap e !! p = Some bp → IsFull bp = true → k ∉ keys (items bp) →
  same_frame e e' ∧
  ∃ bp', heap e' !! p = Some bp' ∧ IsFull bp' = true ∧ (k ∉ keys (items bp')).
Proof.
  induction l as [|x l IH]; intros e e' p bp; simpl.
  - intros [= <-] Hp Hfull Hk. split; [by repeat split|eauto].
  - destruct (bucketAt e (IndexOf e (key x))) as [[q bq]|] eqn:Hq; [|done].
    intros Hre Hp Hfull Hk. apply bucketAt_Some in Hq as [Hdq Hhq].
    assert (∃ bp1, heap (setHeap e (<[q := snd (Bucket_Insert bq (key x) (value x))]>
                                       (heap e))) !! p = Some bp1 ∧
                   IsFull bp1 = true ∧ (k ∉ keys (items bp1))) as (bp1 & Hp1 & Hf1 & Hk1).
    { simpl. destruct (decide (q = p)) as [->|Hne].
      - assert (bq = bp) as -> by congruence.
        eexists. split; [apply list_lookup_insert_eq; by eapply lookup_lt_Some|].
        by apply Bucket_Insert_full.
      - exists bp. by rewrite list_lookup_insert_ne. }
    destruct (IH _ _ _ _ Hre Hp1 Hf1 Hk1) as [(? & ? & ? & ? & Hl) Hres].
    split; [|done]. simpl in *. rewrite length_insert in Hl. by repeat split.
Qed.

Lemma wrap32_pow2 n : 32 ≤ n → wrap32 (2 ^ n) = 0.
Proof.
  intros Hn. unfold wrap32. replace n with ((n - 32) + 32) by lia.
  rewrite Z.pow_add_r by lia. apply Z.mod_mul. lia.
Qed.

Lemma doomed_step double e k e' :
  doubles double → doomed e k → splitStep double e k = Done e' → doomed e' k.
Proof.
  intros Hdbl (Hlen & p & b & Hb & Hfull & Hk & Hbig).
  unfold splitStep.
  assert (∃ e1, growDirectory double e k = Done e1 ∨
                (growDirectory double e k = Timeout ∧ e1 = e)) as [e1 Hgrow].
  { unfold growDirectory. rewrite Hb. destruct (depth b =? globalDepth e)%N.
    - destruct (double (dir e)); eauto.
    - eauto. }
  destruct Hgrow as [Hgrow|[Hgrow _]]; rewrite Hgrow; [|done].
  assert (He1 : Z.of_nat (length (dir e1)) = 2 ^ Z.of_N (globalDepth e1) ∧
                (32 ≤ globalDepth e1)%N ∧
                bucketAt e1 (IndexOf e1 k) = Some (p, b)).
  { unfold growDirectory in Hgrow. rewrite Hb in Hgrow.
    destruct (N.eqb_spec (depth b) (globalDepth e)) as [Heq|Hne].
    - destruct (double (dir e)) as [d|] eqn:Hdd; [|done].
      apply Hdbl in Hdd as ->. injection Hgrow as <-. fold (grown e). split_and!.
      + simpl. rewrite length_app, N2Z.inj_add, Z.pow_add_r by lia. lia.
      + simpl. lia.
      + by apply grown_bucketAt.
    - injection Hgrow as <-. split_and!; [done|lia|done]. }
  destruct He1 as (Hlen1 & Hgd1 & Hb1). clear Hgrow.
  unfold splitBucket. rewrite Hb1. intros Hre.
  apply bucketAt_Some in Hb1 as [Hd1 Hh1].
  assert (Hp : (p < length (heap e1))%nat) by by eapply lookup_lt_Some.
  rewrite redistribute_none in Hre by (rewrite Hlen1; apply wrap32_pow2; lia).
  eapply (reinsert_keeps_full k _ _ _ p (IncrementDepth b)) in Hre
      as [(Hsg & _ & _ & Hsd & _) (bp' & Hp' & Hf' & Hk')]; [| |done|done].
  2:{ cbn [heap]. rewrite <- app_assoc. rewrite lookup_app_l by (rewrite length_insert; lia).
      by apply list_lookup_insert_eq. }
  cbn [globalDepth dir] in Hsg, Hsd.
  split; [by rewrite Hsd, Hsg|].
  exists p, bp'. split_and!; try done.
  - rewrite (IndexOf_depth e1 e' k Hsg). apply bucketAt_Some. by rewrite Hsd.
  - left. by rewrite Hsg.
Qed.

Lemma doomed_never double fuel k v :
  doubles double → ∀ e e', doomed e k → insertLoop double fuel e k v ≠ Done e'.
Proof.
  intros Hdbl. induction fuel as [|fuel IH]; intros e e' Hdoom; simpl; [done|].
  pose proof Hdoom as (_ & p & b & Hb & Hfull & Hk & _). rewrite Hb.
  destruct (Bucket_Insert_cases b k v)
    as [(Hin & _)|[(_ & _ & ->)|(_ & Hnf & _)]]; [done| |congruence].
  apply bucketAt_Some in Hb as [_ Hh]. rewrite (setHeap_id _ _ _ Hh).
  destruct (splitStep double e k) as [e1| |] eqn:Hs; [|done|done].
  apply IH. by eapply doomed_step.
Qed.

(** *** The invariant is kept *)

Lemma bucket_ok_hash_key e i b k :
  bucket_ok e i b → k ∈ keys (items b) → agree (depth b) (Hash32 k) (Z.of_nat i).
Proof.
  intros Hok Hk. apply list_elem_of_fmap in Hk as (x & -> & Hx).
  by apply (bo_hash _ _ _ Hok).
Qed.

(** Replacing a bucket by one of the same depth that is fine wherever the
    old one was keeps the invariant. *)
Lemma update_inv e p b b' :
  tbl_inv e → heap e !! p = Some b → depth b' = depth b →
  (∀ i, dir e !! i = Some p → bucket_ok e i b') →
  tbl_inv (setHeap e (<[p := b']> (heap e))).
Proof.
  intros Hinv Hp Hdepth Hok'.
  assert (Hlt : (p < length (heap e))%nat) by by eapply lookup_lt_Some.
  constructor; simpl.
  - apply (ti_depth _ Hinv).
  - apply (ti_length _ Hinv).
  - intros i q Hq. destruct (decide (q = p)) as [->|Hne].
    + exists b'. split; [by apply list_lookup_insert_eq|].
      destruct (Hok' i Hq). by constructor.
    + destruct (ti_slot _ Hinv _ _ Hq) as (bq & Hbq & Hokq). exists bq.
      split; [by rewrite list_lookup_insert_ne|]. destruct Hokq. by constructor.
  - intros i j q bq Hq Hbq Hj. destruct (decide (q = p)) as [->|Hne].
    + rewrite list_lookup_insert_eq in Hbq by done. injection Hbq as <-.
      rewrite Hdepth. by apply (ti_route _ Hinv).
    + rewrite list_lookup_insert_ne in Hbq by done. by apply (ti_route _ Hinv).
Qed.

Lemma Bucket_Insert_ok e i b k v b' :
  bucket_ok e i b → agree (depth b) (Hash32 k) (Z.of_nat i) →
  Bucket_Insert b k v = (true, b') → bucket_ok e i b'.
Proof.
  intros Hok Hagree. pose proof Hok as [Hd Hs Hl Hn Hh].
  destruct (Bucket_Insert_cases b k v)
    as [(_ & l & Hu & ->)|[(_ & _ & ->)|(Hk & Hnf & ->)]]; intros [= <-].
  - pose proof (update_entry_keys _ _ _ _ Hu) as Hkeys.
    pose proof (update_entry_length _ _ _ _ Hu) as Hlen.
    constructor; simpl; rewrite ?Hkeys, ?Hlen; try done.
    intros x Hx. apply (bucket_ok_hash_key e i b); [done|].
    rewrite <- Hkeys. by apply list_elem_of_fmap_2.
  - unfold IsFull in Hnf. apply N.eqb_neq in Hnf.
    constructor; simpl; try done.
    + rewrite length_app. simpl. lia.
    + unfold keys. rewrite fmap_app. simpl. apply NoDup_app. split_and!; [done| |].
      * intros x Hx Hxk. apply list_elem_of_singleton in Hxk as ->. done.
      * apply NoDup_singleton.
    + intros x Hx. apply elem_of_app in Hx as [Hx|Hx]; [by apply Hh|].
      apply list_elem_of_singleton in Hx as ->. done.
Qed.

(** The bucket of a key agrees with the hash of the key wherever it is
    referenced. *)
Lemma route_agree e k p b i :
  tbl_inv e → bucketAt e (IndexOf e k) = Some (p, b) → dir e !! i = Some p →
  agree (depth b) (Hash32 k) (Z.of_nat i).
Proof.
  intros Hinv Hb Hi. apply bucketAt_Some in Hb as [Hd Hh].
  pose proof (tbl_inv_ok _ _ _ _ Hinv Hd Hh) as Hok.
  pose proof (IndexOf_range e k) as Hr.
  pose proof (ti_depth _ Hinv) as Hgd.
  eapply agree_trans; [|apply (ti_route _ Hinv _ i p b Hd Hh);
                         [by eapply lookup_lt_Some|done]].
  rewrite Z2Nat.id by lia. rewrite IndexOf_low by lia.
  apply agree_sym, agree_mod. apply (bo_depth _ _ _ Hok).
Qed.

Lemma accept_inv e k v p b b' :
  tbl_inv e → bucketAt e (IndexOf e k) = Some (p, b) →
  Bucket_Insert b k v = (true, b') →
  tbl_inv (setHeap e (<[p := b']> (heap e))).
Proof.
  intros Hinv Hb Hi. pose proof Hb as Hb'. apply bucketAt_Some in Hb' as [Hd Hh].
  apply (update_inv e p b b' Hinv Hh).
  - pose proof (Bucket_Insert_depth b k v) as H. by rewrite Hi in H.
  - intros i Hdi. apply (Bucket_Insert_ok e i b k v); [|by eapply route_agree|done].
    by eapply tbl_inv_ok.
Qed.

Lemma remove_entry_sublist (l : list (Entry V)) k l' :
  remove_entry l k = Some l' → l' `sublist_of` l.
Proof.
  revert l'. induction l as [|x l IH]; simpl; intros l'; [done|].
  destruct (decide (key x = k)).
  - intros [= <-]. by apply sublist_cons.
  - destruct (remove_entry l k) as [l0|]; simpl; [|done].
    intros [= <-]. apply sublist_skip. by apply IH.
Qed.

Lemma Bucket_Remove_ok e i b k :
  bucket_ok e i b → bucket_ok e i (snd (Bucket_Remove b k)).
Proof.
  intros Hok. unfold Bucket_Remove.
  destruct (remove_entry (items b) k) as [l|] eqn:Hr; [|done].
  apply remove_entry_sublist in Hr. destruct Hok as [Hd Hs Hl Hn Hh].
  constructor; simpl; try done.
  - apply sublist_length in Hr. lia.
  - eapply sublist_NoDup; [exact Hn|]. by apply fmap_sublist.
  - intros x Hx. apply Hh. by eapply elem_of_sublist.
Qed.

Lemma Bucket_Remove_depth b k : depth (snd (Bucket_Remove b k)) = depth b.
Proof. unfold Bucket_Remove. by destruct (remove_entry (items b) k). Qed.

Lemma Remove_inv e k r e' : tbl_inv e → Remove e k = Done (r, e') → tbl_inv e'.
Proof.
  intros Hinv. unfold Remove.
  destruct (bucketAt e (IndexOf e k)) as [[p b]|] eqn:Hb; [|done].
  destruct (Bucket_Remove b k) as [r' b'] eqn:Hr. intros [= <- <-].
  apply bucketAt_Some in Hb as [Hd Hh].
  assert (b' = snd (Bucket_Remove b k)) as -> by by rewrite Hr.
  apply (update_inv e p b _ Hinv Hh).
  - apply Bucket_Remove_depth.
  - intros i Hi. apply Bucket_Remove_ok. by eapply tbl_inv_ok.
Qed.

Lemma Remove_bucketSize e k r e' : Remove e k = Done (r, e') → bucketSize e' = bucketSize e.
Proof.
  unfold Remove. destruct (bucketAt e (IndexOf e k)) as [[p b]|]; [|done].
  destruct (Bucket_Remove b k). by intros [= <- <-].
Qed.

(** Whenever the loop of [Insert] returns, with either doubling loop, the
    table it returns satisfies the invariant. *)
Lemma insertLoop_inv double fuel k v :
  doubles double →
  ∀ e e', tbl_inv e → insertLoop double fuel e k v = Done e' →
          tbl_inv e' ∧ bucketSize e' = bucketSize e.
Proof.
  intros Hdbl. induction fuel as [|fuel IH]; intros e e' Hinv; simpl; [done|].
  destruct (tbl_inv_bucketAt e k Hinv) as (p & b & Hb & Hok). rewrite Hb.
  destruct (Bucket_Insert b k v) as [[] b'] eqn:Hi.
  - intros [= <-]. split; [by eapply accept_inv|done].
  - apply Bucket_Insert_rejected in Hi as (-> & Hfull & Hk).
    pose proof Hb as Hb'. apply bucketAt_Some in Hb' as [_ Hh].
    rewrite (setHeap_id _ _ _ Hh).
    destruct (decide (depth b < 31)%N) as [Hlt|Hge].
    + destruct (splitStep_spec double e k p b Hdbl Hinv Hb Hlt)
        as [(-> & _)|(e1 & -> & Hinv1 & Hbs1 & _)]; [done|].
      intros H. apply IH in H as [? ?]; [|done]. split; [done|congruence].
    + intros H. exfalso.
      assert (Hdoom : doomed e k).
      { split; [apply (ti_length _ Hinv)|]. exists p, b. split_and!; try done.
        right. pose proof (bo_depth _ _ _ Hok). pose proof (ti_depth _ Hinv). lia. }
      destruct (splitStep double e k) as [e1| |] eqn:Hs; [|done|done].
      eapply doomed_never; [done| |exact H]. by eapply doomed_step.
Qed.

(** *** Reachable tables *)

Lemma Insert_inv fuel e k v e' :
  tbl_inv e → Insert fuel e k v = Done e' → tbl_inv e' ∧ bucketSize e' = bucketSize e.
Proof. apply insertLoop_inv, appendLoop_doubles. Qed.

Lemma Insert_capacity_inv fuel e k v e' :
  tbl_inv e → Insert_capacity fuel e k v = Done e' →
  tbl_inv e' ∧ bucketSize e' = bucketSize e.
Proof. apply insertLoop_inv, appendCapacity_doubles. Qed.

Lemma reachable_inv ins bs e :
  (∀ fuel e k v e', tbl_inv e → ins fuel e k v = Done e' →
                    tbl_inv e' ∧ bucketSize e' = bucketSize e) →
  reachable ins bs e → tbl_inv e ∧ bucketSize e = bs.
Proof.
  intros Hins. induction 1 as [|e fuel k v e' _ [IH1 IH2] Hi|e k r e' _ [IH1 IH2] Hr].
  - split; [apply New_inv|done].
  - destruct (Hins _ _ _ _ _ IH1 Hi). split; [done|congruence].
  - split; [by eapply Remove_inv|]. apply Remove_bucketSize in Hr. congruence.
Qed.

Lemma reachable_either_inv bs e :
  reachable Insert bs e ∨ reachable Insert_capacity bs e → tbl_inv e ∧ bucketSize e = bs.
Proof.
  intros [H|H]; (eapply reachable_inv; [|exact H]); intros fuel e0 k v e0'.
  - apply Insert_inv.
  - apply Insert_capacity_inv.
Qed.

Lemma insertAll_reachable ins bs fuel kvs :
  ∀ e e', reachable ins bs e → insertAll ins fuel e kvs = Done e' → reachable ins bs e'.
Proof.
  induction kvs as [|[k v] kvs IH]; intros e e' Hr; simpl.
  - by intros [= <-].
  - destruct (ins fuel e k v) as [e1| |] eqn:Hi; [|done|done].
    apply IH. by eapply reach_Insert.
Qed.

Lemma Find_None_holds e k : tbl_inv e → (Find e k = Done None ↔ ¬ holds e k).
Proof.
  intros Hinv. destruct (tbl_inv_bucketAt e k Hinv) as (p & b & Hb & Hok).
  unfold Find. rewrite Hb. pose proof Hb as Hb'. apply bucketAt_Some in Hb' as [Hd Hh].
  split.
  - intros [= Hf]. apply find_entry_None in Hf. intros (i & q & bq & Hi & Hq & Hk).
    apply Hf. assert (q = p) as ->; [|congruence].
    pose proof (tbl_inv_ok _ _ _ _ Hinv Hi Hq) as Hokq.
    pose proof (bucket_ok_hash_key _ _ _ _ Hokq Hk) as Hagree.
    pose proof (IndexOf_range e k) as Hr. pose proof (ti_depth _ Hinv) as Hgd.
    pose proof (ti_length _ Hinv) as Hlen.
    assert (dir e !! Z.to_nat (IndexOf e k) = Some q) as Hq'; [|congruence].
    apply (ti_route _ Hinv i _ q bq Hi Hq); [lia|].
    rewrite Z2Nat.id by lia. rewrite IndexOf_low by lia.
    eapply agree_trans; [apply agree_sym, Hagree|].
    apply agree_sym, agree_mod. apply (bo_depth _ _ _ Hokq).
  - intros Hn. f_equal. apply find_entry_None. intros Hk. apply Hn.
    by exists (Z.to_nat (IndexOf e k)), p, b.
Qed.

End Invariant.

(** *** When the loop of [Insert] returns *)

Section Termination.

Context {V : Type}.
Implicit Types (e : ExtendibleHashTable V) (b : Bucket V) (k : string) (v : V).

Lemma filter_all {A} (P : A → Prop) `{∀ x, Decision (P x)} (l : list A) :
  (∀ x, x ∈ l → P x) → filter P l = l.
Proof.
  induction l as [|x l IH]; intros Hall; [done|].
  rewrite filter_cons_True by (apply Hall; by left).
  f_equal. apply IH. intros y Hy. apply Hall. by right.
Qed.

Lemma crowd_half k b :
  (depth b < 31)%N →
  crowd k (half b (Z.testbit (Hash32 k) (Z.of_N (depth b)))) = crowd k (items b).
Proof.
  intros Hlt. unfold crowd, half. rewrite list_filter_filter.
  apply list_filter_iff. intros x. split; [tauto|]. intros Ha. split; [done|].
  unfold hash_side. apply agree_bits with (m := Z.of_N (depth b)) in Ha; [done|lia].
Qed.

Lemma half_all k b :
  (depth b < 31)%N →
  (∀ x, x ∈ items b → agree 31 (Hash32 (key x)) (Hash32 k)) →
  half b (Z.testbit (Hash32 k) (Z.of_N (depth b))) = items b.
Proof.
  intros Hlt Hall. unfold half. apply filter_all. intros x Hx.
  unfold hash_side. apply Hall in Hx.
  apply agree_bits with (m := Z.of_N (depth b)) in Hx; [done|lia].
Qed.

Lemma insertLoop_S double fuel e k v :
  insertLoop double (S fuel) e k v =
  match bucketAt e (IndexOf e k) with
  | None => Crash
  | Some (p, b) =>
      let (accepted, b) := Bucket_Insert b k v in
      if accepted then Done (setHeap e (<[p := b]> (heap e)))
      else
        match splitStep double (setHeap e (<[p := b]> (heap e))) k with
        | Done e => insertLoop double fuel e k v
        | Crash => Crash
        | Timeout => Timeout
        end
  end.
Proof. done. Qed.

Lemma insertLoop_mono double fuel k v :
  ∀ e e', insertLoop double fuel e k v = Done e' →
          ∀ n, insertLoop double (fuel + n) e k v = Done e'.
Proof.
  induction fuel as [|fuel IH]; intros e e'; [done|]. intros H n.
  change (S fuel + n)%nat with (S (fuel + n)). rewrite insertLoop_S in *.
  destruct (bucketAt e (IndexOf e k)) as [[p b]|]; [|done].
  destruct (Bucket_Insert b k v) as [[] b']; [done|].
  destruct (splitStep double _ k) as [e1| |]; [|done|done]. by apply IH.
Qed.

(** A full bucket in a table that satisfies the invariant holds
    [bucketSize] entries. *)
Lemma full_length e i b :
  bucket_ok e i b → IsFull b = true → length (items b) = N.to_nat (bucketSize e).
Proof.
  intros Hok Hfull. unfold IsFull in Hfull. apply N.eqb_eq in Hfull.
  pose proof (bo_size _ _ _ Hok). lia.
Qed.

(** In a bucket of depth 31 every entry is in the crowd of the key routed
    to it. *)
Lemma deep_crowd e k p b :
  tbl_inv e → bucketAt e (IndexOf e k) = Some (p, b) → depth b = 31%N →
  ∀ x, x ∈ items b → agree 31 (Hash32 (key x)) (Hash32 k).
Proof.
  intros Hinv Hb Hd x Hx. pose proof Hb as Hb'. apply bucketAt_Some in Hb' as [Hdi Hh].
  pose proof (tbl_inv_ok _ _ _ _ Hinv Hdi Hh) as Hok.
  pose proof (bo_hash _ _ _ Hok x Hx) as H1.
  pose proof (route_agree e k p b _ Hinv Hb Hdi) as H2.
  rewrite Hd in H1, H2. eapply agree_trans; [exact H1|by apply agree_sym].
Qed.

(** With the doubling loop that stops at [capacity], the loop of [Insert]
    returns within [31 - depth] splits when the crowd of the key in its
    bucket is smaller than a bucket. *)
Lemma insertLoop_returns k v m :
  ∀ e p b,
  tbl_inv e → bucketAt e (IndexOf e k) = Some (p, b) →
  (31 - N.to_nat (depth b) ≤ m)%nat →
  (length (crowd k (items b)) < N.to_nat (bucketSize e))%nat →
  ∃ e', insertLoop (λ d, Some (appendCapacity d)) (S m) e k v = Done e'.
Proof.
  induction m as [|m IH]; intros e p b Hinv Hb Hm Hcrowd;
    rewrite insertLoop_S, Hb;
    (destruct (Bucket_Insert b k v) as [[] b'] eqn:Hi; [eauto|]);
    apply Bucket_Insert_rejected in Hi as (-> & Hfull & Hk);
    pose proof Hb as Hb'; apply bucketAt_Some in Hb' as [Hd Hh];
    pose proof (tbl_inv_ok _ _ _ _ Hinv Hd Hh) as Hok;
    pose proof (full_length _ _ _ Hok Hfull) as Hlen;
    pose proof (bo_depth _ _ _ Hok) as Hdepth;
    pose proof (ti_depth _ Hinv) as Hgd;
    rewrite (setHeap_id _ _ _ Hh);
    (assert (Hlt : (depth b < 31)%N);
     [destruct (decide (depth b < 31)%N) as [|Hge]; [done|]; exfalso;
      assert (depth b = 31%N) as Hd31 by lia;
      unfold crowd in Hcrowd;
      rewrite (filter_all _ _ (deep_crowd e k p b Hinv Hb Hd31)) in Hcrowd; lia|]).
  - lia.
  - destruct (splitStep_spec _ e k p b appendCapacity_doubles Hinv Hb Hlt)
      as [(_ & _ & ?)|(e1 & -> & Hinv1 & Hbs1 & q & b' & Hb1 & Hd1 & Hs1 & Hi1)]; [done|].
    apply (IH e1 q b' Hinv1 Hb1).
    + lia.
    + rewrite Hi1, crowd_half, Hbs1 by done. done.
Qed.

(** A full bucket all of whose entries are in the crowd of a key it lacks
    can never take the key: the loop splits for ever, with either doubling
    loop. *)
Lemma crowded_never double fuel k v :
  doubles double →
  ∀ e e' p b,
  tbl_inv e → bucketAt e (IndexOf e k) = Some (p, b) →
  IsFull b = true → k ∉ keys (items b) →
  (∀ x, x ∈ items b → agree 31 (Hash32 (key x)) (Hash32 k)) →
  insertLoop double fuel e k v ≠ Done e'.
Proof.
  intros Hdbl. induction fuel as [|fuel IH]; intros e e' p b Hinv Hb Hfull Hk Hall; [done|].
  rewrite insertLoop_S, Hb.
  destruct (Bucket_Insert_cases b k v)
    as [(Hin & _)|[(_ & _ & ->)|(_ & Hnf & _)]]; [done| |congruence].
  pose proof Hb as Hb'. apply bucketAt_Some in Hb' as [Hd Hh].
  pose proof (tbl_inv_ok _ _ _ _ Hinv Hd Hh) as Hok.
  rewrite (setHeap_id _ _ _ Hh).
  destruct (decide (depth b < 31)%N) as [Hlt|Hge].
  - destruct (splitStep_spec double e k p b Hdbl Hinv Hb Hlt)
      as [(-> & _)|(e1 & -> & Hinv1 & Hbs1 & q & b' & Hb1 & Hd1 & Hs1 & Hi1)]; [done|].
    rewrite (half_all k b Hlt Hall) in Hi1.
    apply (IH e1 e' q b' Hinv1 Hb1).
    + unfold IsFull in *. rewrite Hi1, Hs1, <- (bo_size _ _ _ Hok). done.
    + by rewrite Hi1.
    + by rewrite Hi1.
  - assert (Hdoom : doomed e k).
    { split; [apply (ti_length _ Hinv)|]. exists p, b. split_and!; try done.
      right. pose proof (bo_depth _ _ _ Hok). pose proof (ti_depth _ Hinv). lia. }
    destruct (splitStep double e k) as [e1| |] eqn:Hs; [|done|done].
    apply doomed_never; [done|]. by eapply doomed_step.
Qed.

(** In extendiblehashtable.go a turn that has to double the directory never
    ends: [Insert] does not return, whatever the fuel. *)
Lemma Insert_overflow fuel e k v p b :
  bucketAt e (IndexOf e k) = Some (p, b) → Bucket_Insert b k v = (false, b) →
  depth b = globalDepth e →
  Insert fuel e k v = Timeout.
Proof.
  intros Hb Hi Hd. unfold Insert. destruct fuel as [|fuel]; [done|].
  rewrite insertLoop_S, Hb, Hi. pose proof Hb as Hb'.
  apply bucketAt_Some in Hb' as [Hdi Hh]. rewrite (setHeap_id _ _ _ Hh).
  unfold splitStep, growDirectory. rewrite Hb, Hd, N.eqb_refl.
  rewrite appendLoop_diverges; [done|]. intros Hnil. by rewrite Hnil in Hdi.
Qed.

End Termination.

(** *** Scenario D of the specification *)

Open Scope string_scope.

Example tableD_shape :
  globalDepth tableD = 3%N ∧ numBuckets tableD = 5%N ∧
  dir tableD = [3; 5; 7; 6; 3; 5; 8; 6]%nat.
Proof. vm_compute. done. Qed.

Example tableD_finds :
  Find tableD "9" = Done (Some "i") ∧ Find tableD "8" = Done (Some "h") ∧
  Find tableD "2" = Done (Some "b") ∧ Find tableD "10" = Done None.
Proof. vm_compute. done. Qed.

Example tableD_removes :
  (∃ e, Remove tableD "8" = Done (true, e)) ∧
  Remove tableD "20" = Done (false, tableD).
Proof. split; [eexists|]; vm_compute; reflexivity. Qed.

(** [TestConcurrentInsert] expects global depth 1 after three keys in
    buckets of size 2: the later revision gives it, extendiblehashtable.go
    does not return from the third insertion. *)
Example threeKeys_depth :
  match insertAll Insert_capacity 2 (NewExtendibleHashTable 2) threeKeys with
  | Done e => GetGlobalDepth e = 1%N
  | _ => False
  end ∧
  insertAll Insert 8 (NewExtendibleHashTable 2) threeKeys = Timeout.
Proof. vm_compute. done. Qed.

Lemma tableD_reachable : reachable Insert_capacity 2 tableD.
Proof.
  apply (insertAll_reachable Insert_capacity 2 8 scenarioD (NewExtendibleHashTable 2)).
  - apply reach_new.
  - vm_compute. reflexivity.
Qed.

Section Claims.

Context {V : Type}.
Implicit Types (e : ExtendibleHashTable V) (b : Bucket V) (k : string) (v : V).

(** C2. Every table reached by calls of [Insert] (of either revision),
    [Remove] and [Find] that return has a directory of [2^globalDepth]
    slots; every slot holds a bucket, whose depth is at most
    [globalDepth]; and two slots that hold the same bucket have indices
    with the same low [depth] bits. *)
Theorem directory_invariant bs e :
  reachable Insert bs e ∨ reachable Insert_capacity bs e →
  Z.of_nat (length (dir e)) = 2 ^ Z.of_N (globalDepth e) ∧
  (∀ i p, dir e !! i = Some p →
          ∃ b, heap e !! p = Some b ∧ (depth b ≤ globalDepth e)%N) ∧
  (∀ i j p b, dir e !! i = Some p → dir e !! j = Some p → heap e !! p = Some b →
              Z.of_nat i mod 2 ^ Z.of_N (depth b) = Z.of_nat j mod 2 ^ Z.of_N (depth b)).
Proof.
  intros Hr. apply reachable_either_inv in Hr as [Hinv _]. split_and!.
  - apply (ti_length _ Hinv).
  - intros i p Hi. destruct (ti_slot _ Hinv _ _ Hi) as (b & Hb & Hok).
    exists b. split; [done|apply (bo_depth _ _ _ Hok)].
  - intros i j p b Hi Hj Hb.
    apply (ti_route _ Hinv i j p b Hi Hb); [by eapply lookup_lt_Some|done].
Qed.

(** C8. On a table in which [Find] finds [k], [Insert(k, v2)] (of either
    revision) returns in its first turn, without a split: afterwards [Find]
    gives [v2] for [k] and what it gave before for the other keys;
    [numBuckets], [globalDepth] and the directory are as before; and the
    same insertion once more changes nothing. *)
Theorem Insert_duplicate e k v1 v2 :
  Find e k = Done (Some v1) →
  ∃ e', (∀ fuel, Insert (S fuel) e k v2 = Done e') ∧
        (∀ fuel, Insert_capacity (S fuel) e k v2 = Done e') ∧
        Find e' k = Done (Some v2) ∧
        (∀ k', k' ≠ k → Find e' k' = Find e k') ∧
        numBuckets e' = numBuckets e ∧ globalDepth e' = globalDepth e ∧
        dir e' = dir e ∧ length (heap e') = length (heap e) ∧
        (∀ fuel, Insert (S fuel) e' k v2 = Done e') ∧
        (∀ fuel, Insert_capacity (S fuel) e' k v2 = Done e').
Proof.
  unfold Find. destruct (bucketAt e (IndexOf e k)) as [[p b]|] eqn:Hb; [|done].
  intros [= Hf]. unfold Bucket_Find in Hf.
  pose proof (find_entry_Some _ _ _ Hf) as Hk.
  destruct (Bucket_Insert_cases b k v2)
    as [(_ & l & Hu & Hi)|[(? & _)|(? & _)]]; [|done|done].
  set (b' := {| size := size b; depth := depth b; items := l |}) in *.
  set (e' := setHeap e (<[p := b']> (heap e))).
  pose proof (bucketAt_setHeap_eq e _ p b b' Hb) as Hb'. fold e' in Hb'.
  pose proof Hb as Hbb. apply bucketAt_Some in Hbb as [Hd Hh].
  assert (Hp : (p < length (heap e))%nat) by by eapply lookup_lt_Some.
  assert (Hfind' : find_entry l k = Some v2) by by eapply update_entry_find.
  assert (Hi' : Bucket_Insert b' k v2 = (true, b')).
  { unfold Bucket_Insert. simpl. by rewrite (update_entry_same _ _ _ Hfind'). }
  assert (He' : setHeap e' (<[p := b']> (heap e')) = e').
  { apply setHeap_id. simpl. by apply list_lookup_insert_eq. }
  exists e'. split_and!; try done.
  - intros fuel. by apply (insertLoop_accepted _ _ _ _ _ _ b).
  - intros fuel. by apply (insertLoop_accepted _ _ _ _ _ _ b).
  - change (IndexOf e k) with (IndexOf e' k) in Hb'. rewrite Hb'.
    unfold Bucket_Find. simpl. by rewrite Hfind'.
  - intros k' Hne. change (IndexOf e' k') with (IndexOf e k').
    unfold bucketAt. simpl. destruct (dir e !! Z.to_nat (IndexOf e k')) as [q|]; [|done].
    destruct (decide (q = p)) as [->|Hqp].
    + rewrite list_lookup_insert_eq by done. rewrite Hh. unfold Bucket_Find. simpl.
      f_equal. by eapply update_entry_find_ne.
    + by rewrite list_lookup_insert_ne.
  - simpl. by rewrite length_insert.
  - intros fuel. rewrite <- He' at 2. by apply (insertLoop_accepted _ _ _ _ _ _ b').
  - intros fuel. rewrite <- He' at 2. by apply (insertLoop_accepted _ _ _ _ _ _ b').
Qed.

(** C10. In every reachable table, when no bucket of the directory has an
    entry with key [k], [Remove(k)] returns [false] and the table, with its
    directory, depths, [numBuckets] and the entries of every bucket, is the
    one it was given. *)
Theorem Remove_absent bs e k :
  reachable Insert bs e ∨ reachable Insert_capacity bs e →
  ¬ holds e k →
  Find e k = Done None ∧ Remove e k = Done (false, e).
Proof.
  intros Hr Hn. apply reachable_either_inv in Hr as [Hinv _].
  apply (Find_None_holds e k Hinv) in Hn as Hf. split; [done|].
  unfold Find in Hf. unfold Remove.
  destruct (bucketAt e (IndexOf e k)) as [[p b]|] eqn:Hb; [|done].
  injection Hf as Hf. apply find_entry_None, remove_entry_None in Hf.
  unfold Bucket_Remove. rewrite Hf. apply bucketAt_Some in Hb as [_ Hh].
  by rewrite (setHeap_id _ _ _ Hh).
Qed.

Lemma filter_length_all {A} (P : A → Prop) `{∀ x, Decision (P x)} (l : list A) :
  length (filter P l) = length l → ∀ x, x ∈ l → P x.
Proof.
  intros Hlen x Hx. destruct (decide (P x)) as [|Hn]; [done|].
  pose proof (length_filter_lt P l x Hx Hn). lia.
Qed.

(** C1 as amended.  In every reachable table, for the bucket [b] that the
    key is routed to: whenever [Insert(k, v)] returns, with either doubling
    loop, [Find(k)] gives [v]; it returns in its first turn when [b] holds
    [k] or has room; with the doubling loop that stops at [capacity] it
    returns after at most 31 splits when fewer than [bucketSize] entries of
    [b] have a hash with the low 31 bits of the hash of [k]; and when [b]
    lacks [k] and holds [bucketSize] such entries, it never returns. *)
Theorem Insert_then_Find bs e k v :
  reachable Insert bs e ∨ reachable Insert_capacity bs e →
  ∃ p b, bucketAt e (IndexOf e k) = Some (p, b) ∧
    (∀ fuel e', Insert fuel e k v = Done e' ∨ Insert_capacity fuel e k v = Done e' →
                Find e' k = Done (Some v)) ∧
    (k ∈ keys (items b) ∨ IsFull b = false →
     ∃ e', (∀ fuel, Insert (S fuel) e k v = Done e') ∧
           (∀ fuel, Insert_capacity (S fuel) e k v = Done e') ∧
           Find e' k = Done (Some v)) ∧
    ((length (crowd k (items b)) < N.to_nat bs)%nat →
     ∃ e', (∀ fuel, (32 ≤ fuel)%nat → Insert_capacity fuel e k v = Done e') ∧
           Find e' k = Done (Some v)) ∧
    (k ∉ keys (items b) → length (crowd k (items b)) = N.to_nat bs →
     ∀ fuel e', Insert fuel e k v ≠ Done e' ∧ Insert_capacity fuel e k v ≠ Done e').
Proof.
  intros Hr. apply reachable_either_inv in Hr as [Hinv Hbs].
  destruct (tbl_inv_bucketAt e k Hinv) as (p & b & Hb & Hok).
  exists p, b. split; [done|]. split_and!.
  - intros fuel e' [H|H]; by eapply insertLoop_Find.
  - intros Hroom.
    assert (∃ b', Bucket_Insert b k v = (true, b')) as [b' Hi].
    { destruct (Bucket_Insert_cases b k v)
        as [(_ & l & _ & ->)|[(Hk & Hfull & _)|(_ & _ & ->)]]; eauto.
      destruct Hroom; [done|congruence]. }
    exists (setHeap e (<[p := b']> (heap e))). split_and!.
    + intros fuel. by apply (insertLoop_accepted _ _ _ _ _ _ b).
    + intros fuel. by apply (insertLoop_accepted _ _ _ _ _ _ b).
    + apply (insertLoop_Find (λ d, Some (appendCapacity d)) 1 e).
      by apply (insertLoop_accepted _ _ _ _ _ _ b).
  - intros Hcrowd. rewrite <- Hbs in Hcrowd.
    destruct (insertLoop_returns k v 31 e p b Hinv Hb ltac:(lia) Hcrowd) as [e' He'].
    exists e'. split; [|by eapply insertLoop_Find].
    intros fuel Hfuel. replace fuel with (32 + (fuel - 32))%nat by lia.
    by apply insertLoop_mono.
  - intros Hk Hcrowd fuel e'.
    pose proof (bo_length _ _ _ Hok) as Hlen. pose proof (bo_size _ _ _ Hok) as Hsize.
    pose proof (length_filter (λ x, agree 31 (Hash32 (key x)) (Hash32 k)) (items b)) as Hle.
    unfold crowd in Hcrowd.
    assert (Hall : ∀ x, x ∈ items b → agree 31 (Hash32 (key x)) (Hash32 k)).
    { apply (filter_length_all (λ x, agree 31 (Hash32 (key x)) (Hash32 k))). lia. }
    assert (Hfull : IsFull b = true).
    { unfold IsFull. apply N.eqb_eq. lia. }
    split.
    + by apply (crowded_never _ _ _ _ (appendLoop_doubles fuel) e e' p b).
    + by apply (crowded_never _ _ _ _ appendCapacity_doubles e e' p b).
Qed.

End Claims.

Lemma directory_invariant_witness :
  (reachable Insert 2 tableD ∨ reachable Insert_capacity 2 tableD) ∧
  Z.of_nat (length (dir tableD)) = 2 ^ Z.of_N (globalDepth tableD) ∧
  (∀ i p, dir tableD !! i = Some p →
          ∃ b, heap tableD !! p = Some b ∧ (depth b ≤ globalDepth tableD)%N) ∧
  (∀ i j p b, dir tableD !! i = Some p → dir tableD !! j = Some p →
              heap tableD !! p = Some b →
              Z.of_nat i mod 2 ^ Z.of_N (depth b) = Z.of_nat j mod 2 ^ Z.of_N (depth b)).
Proof.
  assert (Hr : reachable Insert 2 tableD ∨ reachable Insert_capacity 2 tableD).
  { right. exact tableD_reachable. }
  split; [exact Hr|]. exact (directory_invariant 2 tableD Hr).
Defined.

Lemma Insert_duplicate_witness :
  Find tableD "5" = Done (Some "e") ∧
  ∃ e', Insert_capacity 1 tableD "5" "z" = Done e' ∧
        Find e' "5" = Done (Some "z") ∧ numBuckets e' = numBuckets tableD ∧
        globalDepth e' = globalDepth tableD ∧ dir e' = dir tableD.
Proof.
  assert (Hf : Find tableD "5" = Done (Some "e")) by (vm_compute; reflexivity).
  split; [exact Hf|].
  destruct (Insert_duplicate tableD "5" "e" "z" Hf)
    as (e' & _ & Hi & Hf' & _ & Hn & Hg & Hd & _).
  exists e'. split; [exact (Hi O)|]. split; [exact Hf'|].
  split; [exact Hn|]. split; [exact Hg|exact Hd].
Defined.

Example tableD_insert_10 :
  match Insert_capacity 1 tableD "10" "j" with
  | Done e' => Find e' "10" = Done (Some "j")
  | _ => False
  end.
Proof. vm_compute. reflexivity. Qed.

Lemma Insert_then_Find_witness :
  (reachable Insert 2 tableD ∨ reachable Insert_capacity 2 tableD) ∧
  ∃ e', (∀ fuel, (32 ≤ fuel)%nat → Insert_capacity fuel tableD "11" "k" = Done e') ∧
        Find e' "11" = Done (Some "k").
Proof.
  assert (Hr : reachable Insert 2 tableD ∨ reachable Insert_capacity 2 tableD).
  { right. exact tableD_reachable. }
  split; [exact Hr|].
  destruct (Insert_then_Find 2 tableD "11" "k" Hr) as (p & b & Hb & _ & _ & H & _).
  apply H.
  assert (Hb' : bucketAt tableD (IndexOf tableD "11") =
                Some (6%nat, {| size := 2; depth := 2;
                                items := [{| key := "4"; value := "d" |};
                                          {| key := "8"; value := "h" |}] |})).
  { vm_compute. reflexivity. }
  rewrite Hb' in Hb. injection Hb as <- <-. vm_compute. lia.
Defined.

Example collision : Hash32 "479599" = Hash32 "662382".
Proof. vm_compute. reflexivity. Qed.

Lemma tableC_reachable :
  reachable Insert 1 tableC ∧ reachable Insert_capacity 1 tableC.
Proof.
  split.
  - apply (reach_Insert _ _ (NewExtendibleHashTable 1) 1 "479599" "a");
      [apply reach_new|vm_compute; reflexivity].
  - apply (reach_Insert _ _ (NewExtendibleHashTable 1) 1 "479599" "a");
      [apply reach_new|vm_compute; reflexivity].
Qed.

(** Two distinct keys and buckets of size 1: [Insert] of the second key
    never returns, in either revision. *)
Lemma Insert_collision_never_returns :
  reachable Insert 1 tableC ∧ reachable Insert_capacity 1 tableC ∧
  Find tableC "479599" = Done (Some "a") ∧ "479599" ≠ "662382" ∧
  ∀ fuel e', Insert fuel tableC "662382" "b" ≠ Done e' ∧
             Insert_capacity fuel tableC "662382" "b" ≠ Done e'.
Proof.
  destruct tableC_reachable as [Hr1 Hr2]. split_and!; try done.
  intros fuel e'.
  assert (Hinv : tbl_inv tableC).
  { apply (reachable_either_inv 1). by right. }
  set (b := {| size := 1%N; depth := 0%N;
               items := [{| key := "479599"; value := "a" |}] |}).
  assert (Hb : bucketAt tableC (IndexOf tableC "662382") = Some (O, b)).
  { vm_compute. reflexivity. }
  assert (Hk : "662382" ∉ keys (items b)).
  { simpl. intros H. apply list_elem_of_singleton in H. discriminate H. }
  assert (Hall : ∀ x, x ∈ items b → agree 31 (Hash32 (key x)) (Hash32 "662382")).
  { simpl. intros x Hx. apply list_elem_of_singleton in Hx as ->.
    vm_compute. reflexivity. }
  split.
  - by apply (crowded_never _ _ _ _ (appendLoop_doubles fuel) tableC e' O b).
  - by apply (crowded_never _ _ _ _ appendCapacity_doubles tableC e' O b).
Qed.

(** The shortest run on which extendiblehashtable.go does not return: the
    second of two insertions into buckets of size 1, the first that has to
    double the directory.  The later revision returns, with global depth
    1. *)
Example Insert_first_split_never_returns :
  Insert 1 (NewExtendibleHashTable 1) "1" "a" = Done tableOne ∧
  (∀ fuel, Insert fuel tableOne "2" "b" = Timeout) ∧
  match Insert_capacity 2 tableOne "2" "b" with
  | Done e' => Find e' "2" = Done (Some "b") ∧ globalDepth e' = 1%N
  | _ => False
  end.
Proof.
  split; [vm_compute; reflexivity|]. split.
  - intros fuel.
    apply (Insert_overflow fuel tableOne "2" "b" O
             {| size := 1%N; depth := 0%N; items := [{| key := "1"; value := "a" |}] |});
      vm_compute; reflexivity.
  - vm_compute. done.
Qed.

Lemma tableD_lacks_20 : ¬ holds tableD "20".
Proof.
  apply (Find_None_holds tableD "20").
  - apply (reachable_either_inv 2). right. exact tableD_reachable.
  - vm_compute. reflexivity.
Qed.

Lemma Remove_absent_witness :
  (reachable Insert 2 tableD ∨ reachable Insert_capacity 2 tableD) ∧
  ¬ holds tableD "20" ∧
  Find tableD "20" = Done None ∧ Remove tableD "20" = Done (false, tableD).
Proof.
  assert (Hr : reachable Insert 2 tableD ∨ reachable Insert_capacity 2 tableD).
  { right. exact tableD_reachable. }
  split; [exact Hr|]. split; [exact tableD_lacks_20|].
  exact (Remove_absent 2 tableD "20" Hr tableD_lacks_20).
Defined.

End EhtFacts.

(** ** Further properties of the buckets and of the hash table *)
Module EhtMore.

Import Eht EhtFacts.

Open Scope Z_scope.

Section BucketMore.

Context {V : Type}.
Implicit Types (b : Bucket V) (l : list (Entry V)) (k : string) (v : V).

Lemma remove_entry_length l k l' :
  remove_entry l k = Some l' → length l = S (length l').
Proof.
  revert l'. induction l as [|x l IH]; simpl; intros l'; [done|].
  destruct (decide (key x = k)).
  - by intros [= <-].
  - destruct (remove_entry l k) as [l0|]; simpl; [|done].
    intros [= <-]. simpl. f_equal. by apply IH.
Qed.

Lemma remove_entry_find_ne l k l' k' :
  k' ≠ k → remove_entry l k = Some l' → find_entry l' k' = find_entry l k'.
Proof.
  intros Hk. revert l'. induction l as [|x l IH]; simpl; intros l'; [done|].
  destruct (decide (key x = k)) as [Heq|Hne].
  - intros [= <-]. rewrite decide_False by congruence. done.
  - destruct (remove_entry l k) as [l0|]; simpl; [|done].
    intros [= <-]. simpl. destruct (decide (key x = k')); [done|]. by apply IH.
Qed.

Lemma remove_entry_gone l k l' :
  NoDup (keys l) → remove_entry l k = Some l' → k ∉ keys l'.
Proof.
  revert l'. induction l as [|x l IH]; simpl; intros l' Hnd; [done|].
  apply NoDup_cons in Hnd as [Hx Hnd].
  destruct (decide (key x = k)) as [<-|Hne].
  - by intros [= <-].
  - destruct (remove_entry l k) as [l0|]; simpl; [|done].
    intros [= <-]. simpl. rewrite not_elem_of_cons. split; [congruence|by apply IH].
Qed.

(** X1. [Bucket.Insert] returns false exactly when the key is absent and
    the bucket is full, and then the bucket is as it was.  When it returns
    true, [Find] gives the new value for the key and what it gave before
    for every other key; the size and the depth are as before; the bucket
    has one entry more when the key was absent and as many as before when
    it was present; and a bucket that held at most [size] entries still
    does. *)
Theorem Bucket_Insert_spec b k v :
  (fst (Bucket_Insert b k v) = false ↔ Bucket_Find b k = None ∧ IsFull b = true) ∧
  (fst (Bucket_Insert b k v) = false → snd (Bucket_Insert b k v) = b) ∧
  (fst (Bucket_Insert b k v) = true →
     Bucket_Find (snd (Bucket_Insert b k v)) k = Some v ∧
     length (items (snd (Bucket_Insert b k v))) =
       match Bucket_Find b k with
       | Some _ => length (items b)
       | None => S (length (items b))
       end) ∧
  (∀ k', k' ≠ k → Bucket_Find (snd (Bucket_Insert b k v)) k' = Bucket_Find b k') ∧
  size (snd (Bucket_Insert b k v)) = size b ∧
  depth (snd (Bucket_Insert b k v)) = depth b ∧
  ((N.of_nat (length (items b)) ≤ size b)%N →
   (N.of_nat (length (items (snd (Bucket_Insert b k v)))) ≤ size b)%N).
Proof.
  unfold Bucket_Find.
  destruct (Bucket_Insert_cases b k v)
    as [(Hk & l & Hu & ->)|[(Hk & Hfull & ->)|(Hk & Hnf & ->)]]; simpl.
  - destruct (find_entry (items b) k) as [w|] eqn:Hf.
    2:{ apply find_entry_None in Hf. done. }
    split_and!; try done.
    + split; [done|]. by intros [? _].
    + intros _. split; [by eapply update_entry_find|by eapply update_entry_length].
    + intros k' Hne. by eapply update_entry_find_ne.
    + by rewrite (update_entry_length _ _ _ _ Hu).
  - apply find_entry_None in Hk as Hf. rewrite Hf. split_and!; done.
  - apply find_entry_None in Hk as Hf. rewrite Hf. split_and!; try done.
    + split; [done|]. intros [_ ?]. congruence.
    + intros _. split; [by apply find_entry_app_new|].
      rewrite length_app. simpl. lia.
    + intros k' Hne. by apply find_entry_app_ne.
    + intros Hle. unfold IsFull in Hnf. apply N.eqb_neq in Hnf.
      rewrite length_app. simpl. lia.
Qed.

(** X2. [Bucket.Remove] returns true exactly when the key is present; the
    bucket then has one entry less, else it is as it was.  [Find] gives
    what it gave before for every other key, the size and depth stay, and
    in a bucket without a repeated key the removed key is no longer
    found. *)
Theorem Bucket_Remove_spec b k :
  (fst (Bucket_Remove b k) = true ↔ ∃ v, Bucket_Find b k = Some v) ∧
  (fst (Bucket_Remove b k) = true →
     length (items b) = S (length (items (snd (Bucket_Remove b k))))) ∧
  (fst (Bucket_Remove b k) = false → snd (Bucket_Remove b k) = b) ∧
  (∀ k', k' ≠ k → Bucket_Find (snd (Bucket_Remove b k)) k' = Bucket_Find b k') ∧
  size (snd (Bucket_Remove b k)) = size b ∧
  depth (snd (Bucket_Remove b k)) = depth b ∧
  (NoDup (keys (items b)) → Bucket_Find (snd (Bucket_Remove b k)) k = None).
Proof.
  unfold Bucket_Remove, Bucket_Find.
  destruct (remove_entry (items b) k) as [l|] eqn:Hr; simpl.
  - assert (k ∈ keys (items b)) as Hk.
    { destruct (decide (k ∈ keys (items b))) as [|Hn]; [done|].
      apply remove_entry_None in Hn. congruence. }
    split_and!; try done.
    + split; [|done]. intros _.
      destruct (find_entry (items b) k) as [w|] eqn:Hf; [eauto|].
      apply find_entry_None in Hf. done.
    + intros _. by eapply remove_entry_length.
    + intros k' Hne. by eapply remove_entry_find_ne.
    + intros Hnd. apply find_entry_None. by eapply remove_entry_gone.
  - apply remove_entry_None in Hr. apply find_entry_None in Hr as Hf.
    rewrite Hf. split_and!; try done. split; [done|]. by intros [? ?].
Qed.

End BucketMore.

Section TableMore.

Context {V : Type}.
Implicit Types (e : ExtendibleHashTable V) (b : Bucket V) (k : string) (v : V).

Lemma find_entry_filter (P : Entry V → Prop) `{∀ x, Decision (P x)} (l : list (Entry V)) k :
  (∀ x, x ∈ l → key x = k → P x) → find_entry (filter P l) k = find_entry l k.
Proof.
  induction l as [|x l IH]; intros HP; [done|].
  assert (IH' := IH ltac:(intros y Hy; apply HP; by right)).
  rewrite filter_cons. simpl. destruct (decide (key x = k)) as [Hk|Hk].
  - rewrite decide_True by (apply HP; [by left|done]). simpl. by rewrite decide_True.
  - destruct (decide (P x)); [|done]. simpl. by rewrite decide_False.
Qed.

Lemma Find_setHeap e p b b' k :
  heap e !! p = Some b → Bucket_Find b' k = Bucket_Find b k →
  Find (setHeap e (<[p := b']> (heap e))) k = Find e k.
Proof.
  intros Hp Hf. unfold Find, bucketAt. simpl.
  change (IndexOf (setHeap e (<[p := b']> (heap e))) k) with (IndexOf e k).
  destruct (dir e !! Z.to_nat (IndexOf e k)) as [q|]; [|done].
  destruct (decide (q = p)) as [->|Hne].
  - rewrite list_lookup_insert_eq by by eapply lookup_lt_Some. by rewrite Hp, Hf.
  - by rewrite list_lookup_insert_ne.
Qed.

Lemma Find_bucketAt e k p b : bucketAt e (IndexOf e k) = Some (p, b) → Find e k = Done (Bucket_Find b k).
Proof. intros H. unfold Find. by rewrite H. Qed.

Lemma grown_Find e k : tbl_inv e → Find (grown e) k = Find e k.
Proof.
  intros Hinv. destruct (tbl_inv_bucketAt e k Hinv) as (p & b & Hb & _).
  rewrite (Find_bucketAt _ _ _ _ Hb).
  apply (Find_bucketAt _ _ p b). by apply grown_bucketAt; [apply (ti_length _ Hinv)|].
Qed.

Lemma referenced_elem e x : x ∈ referenced e ↔ ∃ i, dir e !! i = Some x.
Proof. unfold referenced. by rewrite elem_of_list_to_set, list_elem_of_lookup. Qed.

Lemma grown_referenced e : referenced (grown e) = referenced e.
Proof. unfold referenced. simpl. rewrite list_to_set_app_L. set_solver. Qed.

(** The index with bit [n] flipped. *)
Lemma flip_bit i n g :
  0 ≤ i < 2 ^ g → 0 ≤ n < g →
  0 ≤ Z.lxor i (2 ^ n) < 2 ^ g ∧
  (∀ m, 0 ≤ m < n → Z.testbit (Z.lxor i (2 ^ n)) m = Z.testbit i m) ∧
  Z.testbit (Z.lxor i (2 ^ n)) n = negb (Z.testbit i n).
Proof.
  intros Hi Hn. split; [|split].
  - apply lxor_range; [lia|done|].
    split; [apply Z.pow_nonneg; lia|apply Z.pow_lt_mono_r; lia].
  - intros m Hm. rewrite Z.lxor_spec, Z.pow2_bits_false by lia. by rewrite xorb_false_r.
  - rewrite Z.lxor_spec, Z.pow2_bits_true by lia. by rewrite xorb_true_r.
Qed.

(** What a split leaves besides the invariant: every key is found as
    before, and the directory refers to one bucket more. *)
Lemma splitBucket_more e k p b e' :
  tbl_inv e → bucketAt e (IndexOf e k) = Some (p, b) →
  (depth b < globalDepth e)%N → splitBucket e k = Done e' →
  (∀ k', Find e' k' = Find e k') ∧
  globalDepth e' = globalDepth e ∧
  numBuckets e' = (numBuckets e + 1)%N ∧
  distinct_buckets e' = (distinct_buckets e + 1)%N.
Proof.
  intros Hinv Hb Hlt Hsplit.
  destruct (splitBucket_run e k p b Hinv Hb Hlt)
    as (e'' & Hrun & Hg & Hbs & Hnb & Hlen & Hd' & Hr0 & Hr1 & Hrest).
  assert (e'' = e') as -> by congruence. clear Hrun.
  set (n0 := length (heap e)) in *. set (n1 := S (length (heap e))) in *.
  set (NB := NewBucket (bucketSize e) (depth b + 1)) in *.
  pose proof Hb as Hb'. apply bucketAt_Some in Hb' as [Hdp Hhp].
  pose proof (tbl_inv_ok _ _ _ _ Hinv Hdp Hhp) as Hok.
  pose proof (ti_depth _ Hinv) as Hgd. pose proof (ti_length _ Hinv) as Hlength.
  assert (Hvalid : ∀ i q, dir e !! i = Some q → (q < n0)%nat).
  { intros i q Hq. destruct (ti_slot _ Hinv _ _ Hq) as (bq & Hbq & _).
    by eapply lookup_lt_Some. }
  assert (Hheap : ∀ c : bool,
            heap e' !! (if c then n1 else n0) = Some (extended NB (half b c))).
  { by intros []. }
  split_and!; try done.
  - intros k'. destruct (tbl_inv_bucketAt e k' Hinv) as (q & bq & Hq & Hokq).
    rewrite (Find_bucketAt _ _ _ _ Hq). pose proof Hq as Hq'.
    apply bucketAt_Some in Hq' as [Hdq Hhq].
    pose proof (IndexOf_range e k') as Hr.
    unfold Find, bucketAt. rewrite (IndexOf_depth e e' k' Hg), Hd', Hdq. simpl.
    destruct (decide (q = p)) as [->|Hne].
    + assert (bq = b) as -> by congruence.
      unfold split_slot. rewrite Hheap. f_equal. unfold Bucket_Find. simpl.
      unfold half. apply find_entry_filter. intros x Hx <-.
      unfold hash_side. rewrite Z2Nat.id by lia. rewrite IndexOf_low by lia.
      symmetry. apply Z.mod_pow2_bits_low. lia.
    + rewrite Hrest; [|by eapply Hvalid|done]. by rewrite Hhq.
  - assert (Hset : referenced e' = (referenced e ∖ {[p]}) ∪ {[n0; n1]}).
    { apply set_eq. intros x. rewrite elem_of_union, elem_of_difference.
      rewrite !referenced_elem. split.
      - intros [i Hi]. rewrite Hd' in Hi.
        destruct (dir e !! i) as [q|] eqn:Hq; [|done]. simpl in Hi. injection Hi as <-.
        destruct (decide (q = p)) as [->|Hne].
        + right. unfold split_slot.
          destruct (Z.testbit (Z.of_nat i) (Z.of_N (depth b))); set_solver.
        + left. split; [eauto|set_solver].
      - intros [[[i Hi] Hxp]|Hx].
        + exists i. rewrite Hd', Hi. simpl. rewrite decide_False; [done|set_solver].
        + pose proof (IndexOf_range e k) as Hr.
          destruct (flip_bit (IndexOf e k) (Z.of_N (depth b)) (Z.of_N (globalDepth e)))
            as (Hj & Hlow & Hbit); [done|lia|].
          set (j := Z.to_nat (Z.lxor (IndexOf e k) (2 ^ Z.of_N (depth b)))).
          assert (HjZ : Z.of_nat j = Z.lxor (IndexOf e k) (2 ^ Z.of_N (depth b))).
          { subst j. rewrite Z2Nat.id; lia. }
          assert (Hdj : dir e !! j = Some p).
          { apply (ti_route _ Hinv _ j p b Hdp Hhp); [lia|].
            rewrite Z2Nat.id by lia. apply agree_bits. intros m Hm.
            rewrite HjZ. symmetry. by apply Hlow. }
          assert (Hside : ∀ i, dir e !! i = Some p →
                    dir e' !! i = Some (split_slot (depth b) n0 n1 i)).
          { intros i Hi. rewrite Hd', Hi. simpl. by rewrite decide_True. }
          pose proof (Hside _ Hdp) as H1. pose proof (Hside _ Hdj) as H2.
          unfold split_slot in H1, H2. rewrite HjZ, Hbit in H2.
          rewrite Z2Nat.id in H1 by lia.
          apply elem_of_union in Hx as [Hx|Hx]; apply elem_of_singleton in Hx as ->;
            destruct (Z.testbit (IndexOf e k) (Z.of_N (depth b))); simpl in H2; eauto. }
    unfold distinct_buckets. rewrite Hset.
    assert (Hin : p ∈ referenced e) by (apply referenced_elem; eauto).
    assert (Hfresh : ∀ x, x ∈ referenced e → (x < n0)%nat).
    { intros x Hx. apply referenced_elem in Hx as [i Hi]. by eapply Hvalid. }
    rewrite size_union.
    2:{ intros x Hx1 Hx2. apply elem_of_difference in Hx1 as [Hx1 _].
        apply Hfresh in Hx1. subst n1.
        apply elem_of_union in Hx2 as [Hx2|Hx2]; apply elem_of_singleton in Hx2; lia. }
    rewrite size_difference by set_solver. rewrite size_singleton.
    rewrite size_union
      by (apply disjoint_singleton_l; rewrite elem_of_singleton; subst n0 n1; lia).
    rewrite !size_singleton.
    assert (base.size (referenced e) ≠ 0)%nat.
    { intros H0. apply size_empty_inv in H0. set_solver. }
    lia.
Qed.

(** A turn of the loop keeps what [Find] returns for every key, deepens the
    directory by at most one and adds one bucket. *)
Lemma splitStep_more double e k p b e' :
  doubles double → tbl_inv e → bucketAt e (IndexOf e k) = Some (p, b) →
  (depth b < 31)%N → splitStep double e k = Done e' →
  (∀ k', Find e' k' = Find e k') ∧
  (globalDepth e ≤ globalDepth e' ≤ globalDepth e + 1)%N ∧
  numBuckets e' = (numBuckets e + 1)%N ∧
  distinct_buckets e' = (distinct_buckets e + 1)%N.
Proof.
  intros Hdbl Hinv Hb Hlt. pose proof Hb as Hb'.
  apply bucketAt_Some in Hb' as [Hd Hh].
  pose proof (tbl_inv_ok _ _ _ _ Hinv Hd Hh) as Hok.
  pose proof (bo_depth _ _ _ Hok) as Hdepth.
  unfold splitStep, growDirectory. rewrite Hb.
  destruct (N.eqb_spec (depth b) (globalDepth e)) as [Heq|Hne].
  - destruct (double (dir e)) as [d|] eqn:Hdd; [|done].
    apply Hdbl in Hdd as ->. fold (grown e). intros Hsplit.
    assert (Hinv1 : tbl_inv (grown e)) by (apply grown_inv; [done|lia]).
    pose proof (grown_bucketAt e k p b (ti_length _ Hinv) Hb) as Hb1.
    destruct (splitBucket_more (grown e) k p b e' Hinv1 Hb1 ltac:(simpl; lia) Hsplit)
      as (Hf & Hg & Hn & Hdist).
    split_and!.
    + intros k'. rewrite Hf. by apply grown_Find.
    + rewrite Hg. simpl. lia.
    + rewrite Hg. simpl. lia.
    + done.
    + rewrite Hdist. unfold distinct_buckets. by rewrite grown_referenced.
  - intros Hsplit.
    destruct (splitBucket_more e k p b e' Hinv Hb ltac:(lia) Hsplit)
      as (Hf & Hg & Hn & Hdist).
    split_and!; try done; lia.
Qed.

(** The loop of [Insert], by its turns: a property [P] that the turns keep
    gives [Q] of the table returned, when an accepted insertion takes [P]
    to [Q]. *)
Lemma insertLoop_invariant double k v (P Q : ExtendibleHashTable V → Prop) :
  doubles double →
  (∀ e p b b', tbl_inv e → P e → bucketAt e (IndexOf e k) = Some (p, b) →
               Bucket_Insert b k v = (true, b') →
               Q (setHeap e (<[p := b']> (heap e)))) →
  (∀ e e1 p b, tbl_inv e → P e → bucketAt e (IndexOf e k) = Some (p, b) →
               (depth b < 31)%N → splitStep double e k = Done e1 → P e1) →
  ∀ fuel e e', tbl_inv e → P e → insertLoop double fuel e k v = Done e' → Q e'.
Proof.
  intros Hdbl Hacc Hturn. induction fuel as [|fuel IH]; intros e e' Hinv HP; [done|].
  rewrite insertLoop_S.
  destruct (tbl_inv_bucketAt e k Hinv) as (p & b & Hb & Hok). rewrite Hb.
  destruct (Bucket_Insert b k v) as [[] b'] eqn:Hi.
  - intros [= <-]. by eapply Hacc.
  - apply Bucket_Insert_rejected in Hi as (-> & Hfull & Hk).
    pose proof Hb as Hb'. apply bucketAt_Some in Hb' as [_ Hh].
    rewrite (setHeap_id _ _ _ Hh).
    destruct (splitStep double e k) as [e1| |] eqn:Hs; [|done|done].
    destruct (decide (depth b < 31)%N) as [Hlt|Hge].
    + destruct (splitStep_spec double e k p b Hdbl Hinv Hb Hlt)
        as [(Ht & _)|(e1' & He1 & Hinv1 & _)]; [congruence|].
      assert (e1' = e1) as -> by congruence.
      intros H. apply (IH e1 e' Hinv1); [|exact H].
      by apply (Hturn e e1 p b).
    + intros H. exfalso.
      assert (Hdoom : doomed e k).
      { split; [apply (ti_length _ Hinv)|]. exists p, b. split_and!; try done.
        right. pose proof (bo_depth _ _ _ Hok). pose proof (ti_depth _ Hinv). lia. }
      eapply doomed_never; [done| |exact H]. by eapply doomed_step.
Qed.


Lemma Bucket_Insert_Find_ne b k v k' :
  k' ≠ k → Bucket_Find (snd (Bucket_Insert b k v)) k' = Bucket_Find b k'.
Proof.
  intros Hne. unfold Bucket_Find.
  destruct (Bucket_Insert_cases b k v)
    as [(Hk & l & Hu & ->)|[(Hk & Hfull & ->)|(Hk & Hnf & ->)]]; simpl.
  - by eapply update_entry_find_ne.
  - done.
  - by apply find_entry_app_ne.
Qed.

Lemma find_entry_NoDup (l : list (Entry V)) x :
  NoDup (keys l) → x ∈ l → find_entry l (key x) = Some (value x).
Proof.
  induction l as [|y l IH]; intros Hnd Hx; [by apply elem_of_nil in Hx|].
  apply NoDup_cons in Hnd as [Hy Hnd]. simpl.
  apply elem_of_cons in Hx as [->|Hx]; [by rewrite decide_True|].
  rewrite decide_False; [by apply IH|].
  intros Heq. apply Hy. rewrite Heq. by apply list_elem_of_fmap_2.
Qed.

Lemma size_list_to_set_le (l : list nat) :
  (base.size (list_to_set l : gset nat) ≤ length l)%nat.
Proof.
  induction l as [|x l IH]; [done|]. simpl.
  rewrite size_union_alt, size_singleton.
  pose proof (subseteq_size (list_to_set l ∖ {[x]}) (list_to_set l : gset nat)
                ltac:(set_solver)). lia.
Qed.

Lemma Find_Some_holds e k : tbl_inv e → (holds e k ↔ ∃ v, Find e k = Done (Some v)).
Proof.
  intros Hinv. destruct (tbl_inv_bucketAt e k Hinv) as (p & b & Hb & _).
  rewrite (Find_bucketAt _ _ _ _ Hb). unfold Bucket_Find.
  destruct (find_entry (items b) k) as [w|] eqn:Hf.
  - split; [eauto|]. intros _. apply find_entry_Some in Hf.
    apply bucketAt_Some in Hb as [Hd Hh]. by exists (Z.to_nat (IndexOf e k)), p, b.
  - assert (Hn : Find e k = Done None) by by rewrite (Find_bucketAt _ _ _ _ Hb), <- Hf.
    apply (Find_None_holds e k Hinv) in Hn. split; [done|]. by intros [? [=]].
Qed.

(** Either revision of [Insert] is the loop with a doubling step. *)
Lemma either_insertLoop fuel e k v e' :
  Insert fuel e k v = Done e' ∨ Insert_capacity fuel e k v = Done e' →
  ∃ double, doubles double ∧ insertLoop double fuel e k v = Done e'.
Proof.
  intros [H|H]; [exists (appendLoop fuel 0)|exists (λ d, Some (appendCapacity d))];
    (split; [|done]); [apply appendLoop_doubles|apply appendCapacity_doubles].
Qed.

(** What an insertion that returns keeps: the other keys, and the
    counters. *)
Lemma insertLoop_more double fuel e k v e' :
  doubles double → tbl_inv e → insertLoop double fuel e k v = Done e' →
  (∀ k', k' ≠ k → Find e' k' = Find e k') ∧
  (globalDepth e ≤ globalDepth e')%N ∧ (numBuckets e ≤ numBuckets e')%N ∧
  (globalDepth e' - globalDepth e ≤ numBuckets e' - numBuckets e)%N ∧
  (numBuckets e = distinct_buckets e → numBuckets e' = distinct_buckets e').
Proof.
  intros Hdbl Hinv Hrun.
  set (P := λ e1 : ExtendibleHashTable V,
         (∀ k', Find e1 k' = Find e k') ∧
         (globalDepth e ≤ globalDepth e1)%N ∧ (numBuckets e ≤ numBuckets e1)%N ∧
         (globalDepth e1 - globalDepth e ≤ numBuckets e1 - numBuckets e)%N ∧
         (numBuckets e = distinct_buckets e → numBuckets e1 = distinct_buckets e1)).
  set (Q := λ e1 : ExtendibleHashTable V,
         (∀ k', k' ≠ k → Find e1 k' = Find e k') ∧
         (globalDepth e ≤ globalDepth e1)%N ∧ (numBuckets e ≤ numBuckets e1)%N ∧
         (globalDepth e1 - globalDepth e ≤ numBuckets e1 - numBuckets e)%N ∧
         (numBuckets e = distinct_buckets e → numBuckets e1 = distinct_buckets e1)).
  change (Q e').
  refine (insertLoop_invariant double k v P Q Hdbl _ _ fuel e e' Hinv _ Hrun).
  - unfold Q. intros e1 p b b' _ (Hf & Hg & Hn & Hgn & Hd) Hb Hi. split_and!; try done.
    intros k' Hne. rewrite <- Hf. apply bucketAt_Some in Hb as [_ Hh].
    apply (Find_setHeap e1 p b b' k' Hh).
    replace b' with (snd (Bucket_Insert b k v)) by by rewrite Hi.
    by apply Bucket_Insert_Find_ne.
  - intros e1 e2 p b Hinv1 (Hf & Hg & Hn & Hgn & Hd) Hb Hlt Hs.
    destruct (splitStep_more double e1 k p b e2 Hdbl Hinv1 Hb Hlt Hs)
      as (Hf2 & Hg2 & Hn2 & Hd2).
    unfold P. split_and!; try lia.
    intros k'. by rewrite Hf2.
  - unfold P. split_and!; try done; lia.
Qed.

Lemma Remove_frame e k r e' :
  Remove e k = Done (r, e') →
  dir e' = dir e ∧ globalDepth e' = globalDepth e ∧ numBuckets e' = numBuckets e ∧
  bucketSize e' = bucketSize e ∧ length (heap e') = length (heap e).
Proof.
  unfold Remove. destruct (bucketAt e (IndexOf e k)) as [[p b]|]; [|done].
  destruct (Bucket_Remove b k) as [r0 b0]. intros [= <- <-]. simpl.
  by rewrite length_insert.
Qed.

(** In a reachable table [numBuckets] is the number of the buckets the
    directory refers to. *)
Lemma reachable_counts ins bs e :
  (∀ fuel e k v e', ins fuel e k v = Done e' →
     ∃ double, doubles double ∧ insertLoop double fuel e k v = Done e') →
  reachable ins bs e → tbl_inv e ∧ numBuckets e = distinct_buckets e.
Proof.
  intros Hins. induction 1 as [|e fuel k v e' _ [Hinv IH] Hi|e k r e' _ [Hinv IH] Hr].
  - split; [apply New_inv|]. done.
  - apply Hins in Hi as (double & Hdbl & Hi). split.
    + by destruct (insertLoop_inv double fuel k v Hdbl e e' Hinv Hi).
    + by apply (insertLoop_more double fuel e k v e' Hdbl Hinv Hi).
  - split; [by eapply Remove_inv|].
    destruct (Remove_frame e k r e' Hr) as (Hd & _ & Hn & _).
    rewrite Hn, IH. unfold distinct_buckets, referenced. by rewrite Hd.
Qed.

(** X3. In a reachable table every bucket of the directory has the bucket
    size of the table, holds at most that many entries and no key twice,
    and has a depth of at most the global depth; and every entry it holds
    is found there: the key is routed to this bucket and [Find] returns the
    value of the entry. *)
Theorem reachable_buckets bs e i p b :
  reachable Insert bs e ∨ reachable Insert_capacity bs e →
  dir e !! i = Some p → heap e !! p = Some b →
  size b = bs ∧ (N.of_nat (length (items b)) ≤ bs)%N ∧ NoDup (keys (items b)) ∧
  (depth b ≤ globalDepth e)%N ∧
  ∀ x, x ∈ items b →
       bucketAt e (IndexOf e (key x)) = Some (p, b) ∧
       Find e (key x) = Done (Some (value x)).
Proof.
  intros Hr Hd Hh. apply reachable_either_inv in Hr as [Hinv Hbs].
  pose proof (tbl_inv_ok _ _ _ _ Hinv Hd Hh) as Hok.
  destruct Hok as [Hdepth Hsize Hlen Hnd Hhash].
  split_and!; try done; try congruence.
  intros x Hx.
  assert (Hb : bucketAt e (IndexOf e (key x)) = Some (p, b)).
  { apply bucketAt_Some. split; [|done].
    pose proof (IndexOf_range e (key x)) as Hrange.
    pose proof (ti_length _ Hinv) as Hl. pose proof (ti_depth _ Hinv) as Hg.
    apply (ti_route _ Hinv i _ p b Hd Hh); [lia|].
    rewrite Z2Nat.id by lia. rewrite IndexOf_low by lia.
    apply agree_sym. eapply agree_trans; [by apply agree_mod|]. by apply Hhash. }
  split; [done|]. rewrite (Find_bucketAt _ _ _ _ Hb). f_equal.
  by apply find_entry_NoDup.
Qed.

(** X4. In a reachable table [Find] and [Remove] return for every key (the
    index into the directory is in range), [GetLocalDepth] returns a depth
    of at most the global depth for every index below [2^globalDepth], and
    indexes the directory out of range for every other index. *)
Theorem lookups_return bs e :
  reachable Insert bs e ∨ reachable Insert_capacity bs e →
  (∀ k, ∃ r, Find e k = Done r) ∧
  (∀ k, ∃ r e', Remove e k = Done (r, e')) ∧
  (∀ i, 0 ≤ i < 2 ^ Z.of_N (GetGlobalDepth e) →
        ∃ d, GetLocalDepth e i = Done d ∧ (d ≤ GetGlobalDepth e)%N) ∧
  (∀ i, 2 ^ Z.of_N (GetGlobalDepth e) ≤ i → GetLocalDepth e i = Crash).
Proof.
  intros Hr. apply reachable_either_inv in Hr as [Hinv Hbs].
  pose proof (ti_length _ Hinv) as Hl. split_and!.
  - intros k. destruct (tbl_inv_bucketAt e k Hinv) as (p & b & Hb & _).
    unfold Find. rewrite Hb. eauto.
  - intros k. destruct (tbl_inv_bucketAt e k Hinv) as (p & b & Hb & _).
    unfold Remove. rewrite Hb. destruct (Bucket_Remove b k). eauto.
  - intros i Hi. unfold GetGlobalDepth in *.
    destruct (lookup_lt_is_Some_2 (dir e) (Z.to_nat i) ltac:(lia)) as [p Hp].
    destruct (ti_slot _ Hinv _ _ Hp) as (b & Hh & Hok).
    exists (depth b). split; [|apply (bo_depth _ _ _ Hok)].
    unfold GetLocalDepth, bucketAt. by rewrite Hp, Hh.
  - intros i Hi. unfold GetGlobalDepth in *. unfold GetLocalDepth, bucketAt.
    rewrite lookup_ge_None_2; [done|]. pose proof (Z.pow_pos_nonneg 2 (Z.of_N (globalDepth e))). lia.
Qed.

(** X5. In a reachable table [Remove(k)] returns true exactly when [Find]
    finds [k]; afterwards [Find(k)] finds nothing and a second [Remove(k)]
    returns false and changes nothing; every other key is found as before;
    and the directory, the global depth, the number of buckets and every
    local depth are the ones before: buckets are never merged. *)
Theorem Remove_then_Find bs e k :
  reachable Insert bs e ∨ reachable Insert_capacity bs e →
  ∃ r e', Remove e k = Done (r, e') ∧
    (r = true ↔ ∃ v, Find e k = Done (Some v)) ∧
    Find e' k = Done None ∧
    Remove e' k = Done (false, e') ∧
    (∀ k', k' ≠ k → Find e' k' = Find e k') ∧
    dir e' = dir e ∧ GetGlobalDepth e' = GetGlobalDepth e ∧
    GetNumBuckets e' = GetNumBuckets e ∧
    (∀ i, GetLocalDepth e' i = GetLocalDepth e i).
Proof.
  intros Hr. apply reachable_either_inv in Hr as [Hinv Hbs].
  destruct (tbl_inv_bucketAt e k Hinv) as (p & b & Hb & Hok).
  pose proof Hb as Hb'. apply bucketAt_Some in Hb' as [Hd Hh].
  unfold Remove at 1. rewrite Hb. unfold Bucket_Remove.
  destruct (remove_entry (items b) k) as [l|] eqn:Hrem.
  - set (b' := {| size := size b; depth := depth b; items := l |}).
    set (e' := setHeap e (<[p := b']> (heap e))).
    assert (Hb1 : bucketAt e' (IndexOf e' k) = Some (p, b')).
    { exact (bucketAt_setHeap_eq e _ p b b' Hb). }
    assert (Hgone : k ∉ keys l).
    { eapply remove_entry_gone; [apply (bo_nodup _ _ _ Hok)|done]. }
    exists true, e'. split_and!; try done.
    + split; [|done]. intros _. rewrite (Find_bucketAt _ _ _ _ Hb). unfold Bucket_Find.
      destruct (find_entry (items b) k) as [w|] eqn:Hf; [eauto|].
      apply find_entry_None, remove_entry_None in Hf. congruence.
    + rewrite (Find_bucketAt _ _ _ _ Hb1). f_equal. by apply find_entry_None.
    + unfold Remove. rewrite Hb1. unfold Bucket_Remove.
      apply remove_entry_None in Hgone. cbn [items b']. rewrite Hgone.
      apply bucketAt_Some in Hb1 as [_ Hh1]. by rewrite (setHeap_id _ _ _ Hh1).
    + intros k' Hne. apply (Find_setHeap e p b b' k' Hh).
      unfold Bucket_Find. simpl. by eapply remove_entry_find_ne.
    + intros i. unfold GetLocalDepth, bucketAt. simpl.
      destruct (dir e !! Z.to_nat i) as [q|]; [|done].
      destruct (decide (q = p)) as [->|Hne].
      * rewrite list_lookup_insert_eq by by eapply lookup_lt_Some. by rewrite Hh.
      * by rewrite list_lookup_insert_ne.
  - rewrite (setHeap_id _ _ _ Hh). exists false, e.
    assert (Hf : Find e k = Done None).
    { rewrite (Find_bucketAt _ _ _ _ Hb). f_equal.
      by apply find_entry_None, remove_entry_None. }
    split_and!; try done.
    + split; [done|]. intros [w Hw]. congruence.
    + unfold Remove. rewrite Hb. unfold Bucket_Remove. rewrite Hrem.
      by rewrite (setHeap_id _ _ _ Hh).
Qed.

(** X6. In a reachable table, when [Insert(k, v)] (of either revision)
    returns, [Find] gives [v] for [k] and, for every other key, what it
    gave before, whatever splits the insertion went through; and the keys
    held by the buckets of the directory are the ones held before and
    [k]. *)
Theorem Insert_keeps_others bs e fuel k v e' :
  reachable Insert bs e ∨ reachable Insert_capacity bs e →
  Insert fuel e k v = Done e' ∨ Insert_capacity fuel e k v = Done e' →
  Find e' k = Done (Some v) ∧
  (∀ k', k' ≠ k → Find e' k' = Find e k') ∧
  (∀ x, holds e' x ↔ holds e x ∨ x = k).
Proof.
  intros Hr Hi. apply reachable_either_inv in Hr as [Hinv Hbs].
  apply either_insertLoop in Hi as (double & Hdbl & Hi).
  destruct (insertLoop_inv double fuel k v Hdbl e e' Hinv Hi) as [Hinv' _].
  destruct (insertLoop_more double fuel e k v e' Hdbl Hinv Hi) as (Hkeep & _).
  pose proof (insertLoop_Find double fuel e k v e' Hi) as Hk.
  split_and!; try done.
  intros x. rewrite (Find_Some_holds e' x Hinv'), (Find_Some_holds e x Hinv).
  destruct (decide (x = k)) as [->|Hne].
  - split; [by right|]. intros _. eauto.
  - rewrite (Hkeep x Hne). split; [by left|]. by intros [H|H].
Qed.

(** X7. In a reachable table [GetNumBuckets] is the number of distinct
    buckets the directory refers to; it is at least 1 and at most the
    number of slots, [2^globalDepth]. *)
Theorem numBuckets_counts bs e :
  reachable Insert bs e ∨ reachable Insert_capacity bs e →
  GetNumBuckets e = distinct_buckets e ∧
  (1 ≤ GetNumBuckets e)%N ∧
  Z.of_N (GetNumBuckets e) ≤ 2 ^ Z.of_N (GetGlobalDepth e).
Proof.
  intros Hr.
  assert (tbl_inv e ∧ numBuckets e = distinct_buckets e) as [Hinv Hn].
  { destruct Hr as [Hr|Hr]; revert Hr; apply reachable_counts.
    - intros fuel e0 k v e' H. exists (appendLoop fuel 0).
      split; [apply appendLoop_doubles|done].
    - intros fuel e0 k v e' H. exists (λ d, Some (appendCapacity d)).
      split; [apply appendCapacity_doubles|done]. }
  unfold GetNumBuckets, GetGlobalDepth. rewrite Hn. split; [done|].
  pose proof (ti_length _ Hinv) as Hl. unfold distinct_buckets, referenced.
  pose proof (size_list_to_set_le (dir e)) as Hle. split; [|lia].
  assert (base.size (list_to_set (dir e) : gset nat) ≠ 0)%nat; [|lia].
  intros H0. apply size_empty_inv in H0.
  destruct (dir e) as [|q d] eqn:Hd; [|set_solver].
  simpl in Hl. pose proof (Z.pow_pos_nonneg 2 (Z.of_N (globalDepth e))). lia.
Qed.

(** X8. In a reachable table an [Insert] (of either revision) that returns
    never lowers the global depth nor the number of buckets; the global
    depth grows by at most the number of buckets added (every doubling of
    the directory comes with a split); and the global depth stays at most
    31. *)
Theorem Insert_grows bs e fuel k v e' :
  reachable Insert bs e ∨ reachable Insert_capacity bs e →
  Insert fuel e k v = Done e' ∨ Insert_capacity fuel e k v = Done e' →
  (GetGlobalDepth e ≤ GetGlobalDepth e' ≤ 31)%N ∧
  (GetNumBuckets e ≤ GetNumBuckets e')%N ∧
  (GetGlobalDepth e' - GetGlobalDepth e ≤ GetNumBuckets e' - GetNumBuckets e)%N.
Proof.
  intros Hr Hi. apply reachable_either_inv in Hr as [Hinv Hbs].
  apply either_insertLoop in Hi as (double & Hdbl & Hi).
  destruct (insertLoop_inv double fuel k v Hdbl e e' Hinv Hi) as [Hinv' _].
  destruct (insertLoop_more double fuel e k v e' Hdbl Hinv Hi) as (_ & Hg & Hn & Hgn & _).
  pose proof (ti_depth _ Hinv'). unfold GetGlobalDepth, GetNumBuckets. lia.
Qed.

(** X9. The revision of extendiblehashtable.go never splits: every table
    reached with its [Insert] has global depth 0, one bucket of depth 0 in
    a directory of one slot, and at most [bucketSize] entries.  Its
    [Insert] returns only when that bucket takes the entry at once, and
    never returns when the bucket is full and lacks the key. *)
Theorem old_Insert_single_bucket bs e :
  reachable Insert bs e →
  GetGlobalDepth e = 0%N ∧ GetNumBuckets e = 1%N ∧ dir e = [O] ∧
  ∃ b, heap e = [b] ∧ depth b = 0%N ∧ (N.of_nat (length (items b)) ≤ bs)%N ∧
    ∀ k v,
      (∀ fuel e', Insert fuel e k v = Done e' →
                  ∃ b', Bucket_Insert b k v = (true, b') ∧ heap e' = [b'] ∧
                        dir e' = [O]) ∧
      (IsFull b = true → k ∉ keys (items b) → ∀ fuel, Insert fuel e k v = Timeout).
Proof.
  intros Hr.
  assert (Hinv : tbl_inv e ∧ bucketSize e = bs).
  { apply reachable_either_inv. by left. }
  destruct Hinv as [Hinv Hbs].
  assert (Hone : ∀ e0, globalDepth e0 = 0%N → dir e0 = [O] → ∀ b, heap e0 = [b] →
                       ∀ k, bucketAt e0 (IndexOf e0 k) = Some (O, b)).
  { intros e0 Hg Hd b Hh k. pose proof (IndexOf_range e0 k) as Hrange.
    rewrite Hg in Hrange. change (2 ^ Z.of_N 0) with 1 in Hrange.
    assert (IndexOf e0 k = 0) as -> by lia.
    unfold bucketAt. by rewrite Hd, Hh. }
  assert (Hshape : globalDepth e = 0%N ∧ numBuckets e = 1%N ∧ dir e = [O] ∧
                   ∃ b, heap e = [b] ∧ depth b = 0%N).
  { clear Hinv Hbs.
    induction Hr as [|e fuel k v e' _ (Hg & Hn & Hd & b & Hh & Hdepth) Hi
                     |e k r e' _ (Hg & Hn & Hd & b & Hh & Hdepth) Hrem].
    - split_and!; try done. by eexists.
    - pose proof (Hone e Hg Hd b Hh k) as Hb.
      destruct (Bucket_Insert b k v) as [[] b'] eqn:Hins.
      + destruct fuel as [|fuel]; [done|].
        unfold Insert in Hi. rewrite insertLoop_S, Hb, Hins in Hi.
        injection Hi as <-. simpl. rewrite Hh. split_and!; try done.
        exists b'. split; [done|].
        replace b' with (snd (Bucket_Insert b k v)) by by rewrite Hins.
        by rewrite Bucket_Insert_depth.
      + apply Bucket_Insert_rejected in Hins as Hrej. destruct Hrej as (-> & _ & _).
        rewrite (Insert_overflow fuel e k v O b Hb Hins) in Hi; [done|congruence].
    - pose proof (Hone e Hg Hd b Hh k) as Hb.
      unfold Remove in Hrem. rewrite Hb in Hrem.
      destruct (Bucket_Remove b k) as [r0 b0] eqn:Hbr. injection Hrem as <- <-.
      simpl. rewrite Hh. split_and!; try done. exists b0. split; [done|].
      replace b0 with (snd (Bucket_Remove b k)) by by rewrite Hbr.
      by rewrite Bucket_Remove_depth. }
  destruct Hshape as (Hg & Hn & Hd & b & Hh & Hdepth).
  split_and!; try done. exists b.
  pose proof (Hone e Hg Hd b Hh) as Hb.
  assert (Hok : bucket_ok e O b).
  { apply (tbl_inv_ok e O O b Hinv); [by rewrite Hd|by rewrite Hh]. }
  split_and!; try done.
  { rewrite <- Hbs, <- (bo_size _ _ _ Hok). apply (bo_length _ _ _ Hok). }
  intros k v. split.
  - intros fuel e' Hi. destruct (Bucket_Insert b k v) as [[] b'] eqn:Hins.
    + exists b'. split; [done|]. destruct fuel as [|fuel]; [done|].
      unfold Insert in Hi. rewrite insertLoop_S, (Hb k), Hins in Hi.
      injection Hi as <-. simpl. by rewrite Hh.
    + apply Bucket_Insert_rejected in Hins as Hrej. destruct Hrej as (-> & _ & _).
      rewrite (Insert_overflow fuel e k v O b (Hb k) Hins) in Hi; [done|congruence].
  - intros Hfull Hk fuel. apply (Insert_overflow fuel e k v O b (Hb k)); [|congruence].
    destruct (Bucket_Insert_cases b k v)
      as [(Hk' & _)|[(_ & _ & Hi)|(_ & Hnf & _)]]; [done|done|congruence].
Qed.

(** X10. The two doubling loops of [Insert]: the one that stops at
    [capacity], the length before the loop, appends the directory to
    itself; a slot of the result is the slot of the index without its top
    bit.  The one whose bound is read again at every turn ends only on an
    empty directory, which it leaves empty. *)
Theorem doubling_loops (d : list nat) :
  appendCapacity d = (d ++ d)%list ∧
  (∀ i p, appendCapacity d !! i = Some p ↔
          (i < 2 * length d)%nat ∧
          d !! Z.to_nat (Z.of_nat i mod Z.of_nat (length d)) = Some p) ∧
  (∀ fuel d', appendLoop fuel 0 d = Some d' → d = [] ∧ d' = []) ∧
  (∀ fuel, appendLoop (S fuel) 0 [] = Some []).
Proof.
  split_and!.
  - apply appendCapacity_spec.
  - intros i p. rewrite appendCapacity_spec. apply lookup_double.
  - intros fuel d' H. apply appendLoop_Some in H as [Hlen ->].
    destruct d; [done|]. simpl in Hlen. lia.
  - done.
Qed.

(** X11. The loop that redirects the slots of the bucket being split, with
    the mask [uint32(1 << n)], keeps the length of the directory.  On a
    directory of fewer than [2^32] slots, for [n] below 32, it gives every
    slot of the old bucket to [bucket0] or [bucket1] by bit [n] of its
    index and leaves the other slots; on a directory of [2^32] slots,
    where [uint32(len(e.dir))] is 0, it changes nothing. *)
Theorem redistribute_spec (t n0 n1 : nat) (n : N) (d : list nat) :
  length (redistribute t n0 n1 (wrap32 (Z.shiftl 1 (Z.of_N n))) d) = length d ∧
  ((n < 32)%N → Z.of_nat (length d) < 2 ^ 32 →
   ∀ j, redistribute t n0 n1 (wrap32 (Z.shiftl 1 (Z.of_N n))) d !! j =
        (λ p, if decide (p = t) then split_slot n n0 n1 j else p) <$> d !! j) ∧
  (Z.of_nat (length d) = 2 ^ 32 →
   redistribute t n0 n1 (wrap32 (Z.shiftl 1 (Z.of_N n))) d = d).
Proof.
  split_and!.
  - apply redistribute_length.
  - intros Hn Hlen j. rewrite localDepthMask_spec by lia.
    rewrite redistribute_lookup by done.
    destruct (d !! j) as [p|]; [|done]. simpl. f_equal.
    destruct (decide (p = t)); [|done]. unfold split_slot.
    rewrite land_pow2_testbit by lia.
    by destruct (Z.testbit (Z.of_nat j) (Z.of_N n)).
  - intros Hlen. apply redistribute_none. unfold wrap32. by rewrite Hlen.
Qed.

(** X12. [IndexOf] is the hash of the key modulo [2^min(globalDepth, 32)]:
    a number below [2^globalDepth], 0 when the global depth is 0; and in a
    reachable table it is an index of the directory, the same for two keys
    whose hashes have the same low [globalDepth] bits. *)
Theorem IndexOf_low_bits bs e k :
  0 ≤ Hash32 k < 2 ^ 32 ∧
  IndexOf e k = Hash32 k mod 2 ^ Z.min (Z.of_N (GetGlobalDepth e)) 32 ∧
  0 ≤ IndexOf e k < 2 ^ Z.of_N (GetGlobalDepth e) ∧
  (GetGlobalDepth e = 0%N → IndexOf e k = 0) ∧
  (reachable Insert bs e ∨ reachable Insert_capacity bs e →
   (Z.to_nat (IndexOf e k) < length (dir e))%nat ∧
   ∀ k', IndexOf e k' = IndexOf e k ↔ agree (GetGlobalDepth e) (Hash32 k') (Hash32 k)).
Proof.
  unfold GetGlobalDepth. pose proof (IndexOf_range e k) as Hrange.
  split; [apply Hash32_range|]. split; [apply IndexOf_spec|]. split; [lia|]. split.
  - intros Hg. rewrite Hg in Hrange. change (2 ^ Z.of_N 0) with 1 in Hrange. lia.
  - intros Hr. apply reachable_either_inv in Hr as [Hinv _].
    pose proof (ti_length _ Hinv) as Hl. pose proof (ti_depth _ Hinv) as Hg.
    split; [lia|]. intros k'. rewrite !IndexOf_low by lia. done.
Qed.

End TableMore.

(** *** The properties at the tables of the scenarios *)

Lemma tableD_reached : reachable Insert 2 tableD ∨ reachable Insert_capacity 2 tableD.
Proof. right. exact tableD_reachable. Qed.

Lemma tableD11_inserted :
  Insert 8 tableD "11" "k" = Done tableD11 ∨
  Insert_capacity 8 tableD "11" "k" = Done tableD11.
Proof. right. vm_compute. reflexivity. Qed.

Lemma reachable_buckets_witness :
  (reachable Insert 2 tableD ∨ reachable Insert_capacity 2 tableD) ∧
  dir tableD !! 3%nat = Some 6%nat ∧
  heap tableD !! 6%nat =
    Some {| size := 2; depth := 2;
            items := [{| key := "4"; value := "d" |}; {| key := "8"; value := "h" |}] |} ∧
  Find tableD "8" = Done (Some "h").
Proof.
  split; [exact tableD_reached|]. split; [reflexivity|]. split; [reflexivity|].
  destruct (reachable_buckets 2 tableD 3 6
              {| size := 2; depth := 2;
                 items := [{| key := "4"; value := "d" |}; {| key := "8"; value := "h" |}] |}
              tableD_reached eq_refl eq_refl) as (_ & _ & _ & _ & H).
  apply (H {| key := "8"; value := "h" |}). right. left.
Defined.

Lemma lookups_return_witness :
  (reachable Insert 2 tableD ∨ reachable Insert_capacity 2 tableD) ∧
  (∃ r, Find tableD "20" = Done r) ∧ GetLocalDepth tableD 8 = Crash.
Proof.
  split; [exact tableD_reached|].
  destruct (lookups_return 2 tableD tableD_reached) as (Hf & _ & _ & Hc).
  split; [apply Hf|]. apply Hc. vm_compute. discriminate.
Defined.

Lemma Remove_then_Find_witness :
  (reachable Insert 2 tableD ∨ reachable Insert_capacity 2 tableD) ∧
  ∃ r e', Remove tableD "4" = Done (r, e') ∧ Find e' "4" = Done None ∧
          Find e' "8" = Find tableD "8".
Proof.
  split; [exact tableD_reached|].
  destruct (Remove_then_Find 2 tableD "4" tableD_reached)
    as (r & e' & Hr & _ & Hf & _ & Hk & _).
  exists r, e'. split; [exact Hr|]. split; [exact Hf|]. apply Hk. discriminate.
Defined.

Lemma Insert_keeps_others_witness :
  (reachable Insert 2 tableD ∨ reachable Insert_capacity 2 tableD) ∧
  (Insert 8 tableD "11" "k" = Done tableD11 ∨
   Insert_capacity 8 tableD "11" "k" = Done tableD11) ∧
  Find tableD11 "11" = Done (Some "k") ∧ Find tableD11 "4" = Find tableD "4".
Proof.
  split; [exact tableD_reached|]. split; [exact tableD11_inserted|].
  destruct (Insert_keeps_others 2 tableD 8 "11" "k" tableD11 tableD_reached
              tableD11_inserted) as (Hk & Hkeep & _).
  split; [exact Hk|]. apply Hkeep. discriminate.
Defined.

Lemma numBuckets_counts_witness :
  (reachable Insert 2 tableD ∨ reachable Insert_capacity 2 tableD) ∧
  GetNumBuckets tableD = distinct_buckets tableD.
Proof.
  split; [exact tableD_reached|].
  exact (proj1 (numBuckets_counts 2 tableD tableD_reached)).
Defined.

Lemma Insert_grows_witness :
  (reachable Insert 2 tableD ∨ reachable Insert_capacity 2 tableD) ∧
  (Insert 8 tableD "11" "k" = Done tableD11 ∨
   Insert_capacity 8 tableD "11" "k" = Done tableD11) ∧
  (GetNumBuckets tableD ≤ GetNumBuckets tableD11)%N.
Proof.
  split; [exact tableD_reached|]. split; [exact tableD11_inserted|].
  exact (proj1 (proj2 (Insert_grows 2 tableD 8 "11" "k" tableD11 tableD_reached
                         tableD11_inserted))).
Defined.

Lemma old_Insert_single_bucket_witness :
  reachable Insert 1 tableC ∧ GetGlobalDepth tableC = 0%N ∧
  ∀ fuel, Insert fuel tableC "662382" "b" = Timeout.
Proof.
  split; [exact (proj1 tableC_reachable)|].
  destruct (old_Insert_single_bucket 1 tableC (proj1 tableC_reachable))
    as (Hg & _ & _ & b & Hh & _ & _ & H).
  split; [exact Hg|]. injection Hh as <-.
  apply (proj2 (H "662382" "b")); [reflexivity|].
  vm_compute. intros Hin. inversion Hin as [|? ? ? Hin']. inversion Hin'.
Defined.

End EhtMore.

(** ** Further properties of the replacer *)
Module LrukMore.

Import Lruk LrukFacts.

Implicit Types (r : LRUKReplacer) (f : FrameIdT).

Lemma recordAccess_fields r f r' :
  recordAccess r f = Ok r' →
  accessCount r' = <[f := default 0 (accessCount r !! f) + 1]> (accessCount r) ∧
  isEvictable r' = isEvictable r ∧ currSize r' = currSize r ∧
  k r' = k r ∧ replacerSize r' = replacerSize r.
Proof.
  unfold recordAccess. set (count := default 0 (accessCount r !! f) + 1). simpl.
  destruct (count =? k r); [|destruct (k r <? count)].
  - destruct (historyMap r !! f); [|done]. by intros [= <-].
  - destruct (cacheMap r !! f); by intros [= <-].
  - destruct (historyMap r !! f); by intros [= <-].
Qed.

Lemma not_in_frames l m f : linked l m → m !! f = None → f ∉ frames l.
Proof.
  intros Hl Hm Hin. apply (frames_elem l m f Hl) in Hin as [e He]. congruence.
Qed.

(** Where an access that completes leaves the frame: at the front of the
    cache list when its count reaches [k] or more, else at the front of
    the history list; the other frames keep their order. *)
Lemma recordAccess_lists r f r' :
  wf r → recordAccess r f = Ok r' →
  if k r <=? default 0 (accessCount r !! f) + 1 then
    frames (cacheList r') = f :: filter (λ x, x ≠ f) (frames (cacheList r)) ∧
    frames (historyList r') = filter (λ x, x ≠ f) (frames (historyList r))
  else
    frames (historyList r') = f :: filter (λ x, x ≠ f) (frames (historyList r)) ∧
    frames (cacheList r') = frames (cacheList r).
Proof.
  intros Hwf H. unfold recordAccess in H.
  set (count := default 0 (accessCount r !! f) + 1) in *.
  simpl in H. destruct (count =? k r) eqn:Hk; [|destruct (k r <? count) eqn:Hlt].
  - apply N.eqb_eq in Hk.
    destruct (historyMap r !! f) as [e|] eqn:Hm; [|done]. injection H as <-.
    replace (k r <=? count) with true by (symmetry; apply N.leb_le; lia).
    simpl. split.
    + unfold frames. simpl. f_equal. symmetry. apply filter_absent.
      apply (not_in_frames _ (cacheMap r)); [apply (wf_cache _ Hwf)|].
      apply wf_history_not_cache; [done|eauto].
    + by apply (frames_list_Remove _ (historyMap r)); [apply (wf_hist _ Hwf)|].
  - apply N.ltb_lt in Hlt. injection H as <-.
    replace (k r <=? count) with true by (symmetry; apply N.leb_le; lia).
    assert (Hnh : historyMap r !! f = None).
    { destruct (historyMap r !! f) eqn:Hh; [|done]. exfalso.
      assert (is_Some (historyMap r !! f)) as Hs by eauto.
      apply (wf_hist_count _ Hwf) in Hs as (c & Hc1 & Hc2).
      subst count. rewrite Hc1 in Hlt. simpl in Hlt. lia. }
    assert (Hh : frames (historyList r) = filter (λ x, x ≠ f) (frames (historyList r))).
    { symmetry. apply filter_absent.
      by apply (not_in_frames _ (historyMap r)); [apply (wf_hist _ Hwf)|]. }
    destruct (cacheMap r !! f) as [e|] eqn:Hm; simpl; (split; [|done]).
    + unfold frames at 1. simpl. f_equal.
      by apply (frames_list_Remove _ (cacheMap r)); [apply (wf_cache _ Hwf)|].
    + unfold frames at 1. simpl. f_equal. symmetry. apply filter_absent.
      by apply (not_in_frames _ (cacheMap r)); [apply (wf_cache _ Hwf)|].
  - apply N.eqb_neq in Hk. apply N.ltb_ge in Hlt. injection H as <-.
    replace (k r <=? count) with false by (symmetry; apply N.leb_gt; lia).
    destruct (historyMap r !! f) as [e|] eqn:Hm; simpl; (split; [|done]).
    + unfold frames at 1. simpl. f_equal.
      by apply (frames_list_Remove _ (historyMap r)); [apply (wf_hist _ Hwf)|].
    + unfold frames at 1. simpl. f_equal. symmetry. apply filter_absent.
      by apply (not_in_frames _ (historyMap r)); [apply (wf_hist _ Hwf)|].
Qed.

Lemma checkOverstep_Ok r f : f ≤ replacerSize r → checkOverstep r f = Ok tt.
Proof.
  intros H. unfold checkOverstep.
  by replace (replacerSize r <? f) with false by (symmetry; apply N.ltb_ge; lia).
Qed.

Lemma checkOverstep_inv r f u : checkOverstep r f = Ok u → f ≤ replacerSize r.
Proof.
  unfold checkOverstep. destruct (replacerSize r <? f) eqn:H; [done|].
  intros _. by apply N.ltb_ge.
Qed.

Lemma setEvictable_fields r f b :
  accessCount (setEvictable r f b) = accessCount r ∧
  historyList (setEvictable r f b) = historyList r ∧
  cacheList (setEvictable r f b) = cacheList r ∧
  historyMap (setEvictable r f b) = historyMap r ∧
  cacheMap (setEvictable r f b) = cacheMap r ∧
  k (setEvictable r f b) = k r ∧ replacerSize (setEvictable r f b) = replacerSize r.
Proof. unfold setEvictable. by destruct (accessCount r !! f). Qed.

Lemma setEvictable_idem r f b :
  setEvictable (setEvictable r f b) f b = setEvictable r f b.
Proof.
  unfold setEvictable at 1.
  destruct (setEvictable_fields r f b) as (-> & _).
  destruct (accessCount r !! f) as [c|] eqn:Hc; [|done].
  assert (He : evictable (setEvictable r f b) f = b).
  { unfold setEvictable, evictable. rewrite Hc. simpl. by rewrite lookup_insert_eq. }
  rewrite He, bool_decide_eq_true_2 by done.
  unfold setEvictable. rewrite Hc. simpl. rewrite insert_insert_eq.
  destruct b; f_equal; lia.
Qed.

(** [Evict] on a state that has an evictable frame. *)
Lemma Evict_cases r :
  wf r → currSize r ≠ 0 →
  ∃ f r', Evict r = ((f, true), r') ∧ evictable r f = true ∧
          is_Some (accessCount r !! f) ∧ cleared r r' f ∧ remove r f = Ok r'.
Proof.
  intros Hwf Hne. unfold Evict. apply N.eqb_neq in Hne as Hne'. rewrite Hne'.
  destruct (scan r (reverse (historyList r))) as [e|] eqn:Hh.
  - apply scan_Some in Hh as [Hin He]. rewrite elem_of_reverse in Hin.
    pose proof (linked_elem _ _ _ (wf_hist _ Hwf) Hin) as Hm.
    assert (is_Some (historyMap r !! Value e)) as Hs by eauto.
    apply (wf_hist_count _ Hwf) in Hs as (c & Hc & Hlt).
    eexists _, _. split; [reflexivity|]. split_and!; [done|eauto| |].
    + by apply clear_history_cleared.
    + unfold remove. rewrite Hc, He. simpl.
      replace (k r <=? c) with false by (symmetry; apply N.leb_gt; lia).
      by rewrite Hm.
  - apply scan_reverse_None in Hh.
    destruct (scan r (reverse (cacheList r))) as [e|] eqn:Hc.
    + apply scan_Some in Hc as [Hin He]. rewrite elem_of_reverse in Hin.
      pose proof (linked_elem _ _ _ (wf_cache _ Hwf) Hin) as Hm.
      assert (is_Some (cacheMap r !! Value e)) as Hs by eauto.
      apply (wf_cache_count _ Hwf) in Hs as (c & Hc & Hle).
      eexists _, _. split; [reflexivity|]. split_and!; [done|eauto| |].
      * by apply clear_cache_cleared.
      * unfold remove. rewrite Hc, He. simpl.
        replace (k r <=? c) with true by (symmetry; apply N.leb_le; lia).
        by rewrite Hm.
    + apply scan_reverse_None in Hc. by destruct (wf_some_evictable r Hwf Hne).
Qed.

Lemma remove_tracked r f r' x c :
  remove r f = Ok r' → accessCount r' !! x = Some c →
  accessCount r !! x = Some c ∧ replacerSize r' = replacerSize r.
Proof.
  unfold remove. destruct (accessCount r !! f) as [c0|]; [|by intros [= <-]].
  destruct (negb (evictable r f)); [done|].
  destruct (k r <=? c0).
  - destruct (cacheMap r !! f); [|done]. intros [= <-]. simpl.
    intros H. by apply lookup_delete_Some in H as [_ H].
  - destruct (historyMap r !! f); [|done]. intros [= <-]. simpl.
    intros H. by apply lookup_delete_Some in H as [_ H].
Qed.

Lemma step_tracked r o r' : wf r → tracked_ok r → step r o = Ok r' → tracked_ok r'.
Proof.
  intros Hwf Hok. destruct o as [f|f b| |f]; simpl.
  - intros H. apply bind_Ok in H as (u & Hu & H). apply checkOverstep_inv in Hu.
    destruct (recordAccess_fields r f r' H) as (Ha & _ & _ & _ & Hrs).
    intros x c. rewrite Ha, Hrs. destruct (decide (x = f)) as [->|Hne].
    + rewrite lookup_insert_eq. intros [= <-]. split; [done|lia].
    + rewrite lookup_insert_ne by done. apply Hok.
  - intros H. apply bind_Ok in H as (u & Hu & [= <-]).
    destruct (setEvictable_fields r f b) as (Ha & _ & _ & _ & _ & _ & Hrs).
    intros x c. rewrite Ha, Hrs. apply Hok.
  - intros [= <-]. destruct (decide (currSize r = 0)) as [H0|Hne].
    + unfold Evict. by rewrite H0.
    + destruct (Evict_cases r Hwf Hne) as (f & r1 & -> & _ & _ & _ & Hrem). simpl.
      intros x c Hx. destruct (remove_tracked r f r1 x c Hrem Hx) as [Hx' ->].
      by apply Hok.
  - intros H. apply bind_Ok in H as (u & Hu & H).
    intros x c Hx. destruct (remove_tracked r f r' x c H Hx) as [Hx' ->].
    by apply Hok.
Qed.

Lemma reachable_tracked numFrames k0 r : reachable numFrames k0 r → tracked_ok r.
Proof.
  induction 1 as [|r o r' Hr IH Hstep]; [by intros f c|].
  eapply step_tracked; [by eapply reachable_wf|done|done].
Qed.

Lemma size_list_to_set_bound (l : list N) : (size (list_to_set l : gset N) ≤ length l)%nat.
Proof.
  induction l as [|x l IH]; [done|]. simpl.
  rewrite size_union_alt, size_singleton.
  pose proof (subseteq_size (list_to_set l ∖ {[x]}) (list_to_set l : gset N)
                ltac:(set_solver)). lia.
Qed.

Lemma evictable_frames_cleared r r' f :
  wf r → evictable r f = true → cleared r r' f →
  ∀ x, x ∈ evictable_frames r' ↔ x ≠ f ∧ x ∈ evictable_frames r.
Proof.
  intros Hwf He Hcl x. rewrite !elem_of_evictable_frames.
  destruct (decide (x = f)) as [->|Hne].
  - rewrite (cl_isEvictable _ _ _ Hcl). split; [by intros [? _]|by intros [? _]].
  - destruct (cl_others _ _ _ Hcl x Hne) as (_ & _ & -> & ->). tauto.
Qed.

Lemma evictN_spec n :
  ∀ r, wf r → currSize r = N.of_nat n →
  length (fst (evictN n r)) = n ∧
  (∀ x, x ∈ fst (evictN n r) → snd x = true) ∧
  NoDup (fst <$> fst (evictN n r)) ∧
  (∀ f, f ∈ (fst <$> fst (evictN n r)) ↔ f ∈ evictable_frames r) ∧
  wf (snd (evictN n r)) ∧ currSize (snd (evictN n r)) = 0 ∧
  (∀ f, f ∉ evictable_frames r →
        accessCount (snd (evictN n r)) !! f = accessCount r !! f).
Proof.
  induction n as [|n IH]; intros r Hwf Hsz.
  - simpl. split_and!; try done; [by intros x Hx; apply elem_of_nil in Hx|apply NoDup_nil_2|].
    intros f. split; [by intros Hx; apply elem_of_nil in Hx|]. intros Hf. exfalso.
    rewrite (wf_size _ Hwf) in Hsz. unfold evictable_count in Hsz.
    assert (size (evictable_frames r) = 0%nat) as H0 by lia.
    apply size_empty_inv in H0. set_solver.
  - destruct (Evict_cases r Hwf ltac:(lia)) as (f & r1 & HE & He & Htr & Hcl & _).
    assert (Hwf1 : wf r1).
    { replace r1 with (snd (Evict r)) by by rewrite HE. by apply Evict_wf. }
    pose proof (cl_currSize _ _ _ Hcl) as Hc.
    destruct (IH r1 Hwf1 ltac:(lia)) as (Hlen & Htrue & Hnd & Hset & Hwf2 & H0 & Hkeep).
    pose proof (evictable_frames_cleared r r1 f Hwf He Hcl) as Hef.
    simpl. rewrite HE. destruct (evictN n r1) as [l r2] eqn:HN. simpl in *.
    split_and!; try done.
    + by rewrite Hlen.
    + intros x Hx. apply elem_of_cons in Hx as [->|Hx]; [done|by apply Htrue].
    + apply NoDup_cons. split; [|done]. rewrite Hset, Hef. by intros [? _].
    + intros x. rewrite elem_of_cons, Hset, Hef.
      destruct (decide (x = f)) as [->|Hne]; [|tauto].
      split; [|by left]. intros _. apply elem_of_evictable_frames.
      split; [by apply evictable_true|done].
    + intros x Hx. rewrite Hkeep.
      * destruct (decide (x = f)) as [->|Hne].
        -- exfalso. apply Hx. apply elem_of_evictable_frames.
           split; [by apply evictable_true|done].
        -- by destruct (cl_others _ _ _ Hcl x Hne) as (_ & _ & -> & _).
      * rewrite Hef. by intros [_ ?].
Qed.

(** X13. In a reachable state, [RecordAccess] of a frame id in range
    completes unless [k] is 1 and the frame is not tracked.  When it
    completes, the count of the frame is one more (1 for a frame not
    tracked), the flags and [Size] are as before, and the frame is at the
    front of the cache list when its count is [k] or more, else at the
    front of the history list, whichever list it was in; the other frames
    keep their order. *)
Theorem RecordAccess_moves_front numFrames k0 r f :
  reachable numFrames k0 r → f ≤ numFrames →
  ((∃ r', RecordAccess r f = Ok r') ↔ k0 ≠ 1 ∨ is_Some (accessCount r !! f)) ∧
  ∀ r', RecordAccess r f = Ok r' →
    accessCount r' = <[f := default 0 (accessCount r !! f) + 1]> (accessCount r) ∧
    isEvictable r' = isEvictable r ∧ Size r' = Size r ∧
    if k0 <=? default 0 (accessCount r !! f) + 1 then
      frames (cacheList r') = f :: filter (λ x, x ≠ f) (frames (cacheList r)) ∧
      frames (historyList r') = filter (λ x, x ≠ f) (frames (historyList r))
    else
      frames (historyList r') = f :: filter (λ x, x ≠ f) (frames (historyList r)) ∧
      frames (cacheList r') = frames (cacheList r).
Proof.
  intros Hr Hf. pose proof (reachable_wf _ _ _ Hr) as Hwf.
  destruct (reachable_config _ _ _ Hr) as [Hk Hrs].
  assert (Heq : RecordAccess r f = recordAccess r f).
  { unfold RecordAccess. rewrite checkOverstep_Ok by lia. done. }
  rewrite Heq. split.
  - rewrite <- Hk. by apply recordAccess_Ok.
  - intros r' H. destruct (recordAccess_fields r f r' H) as (Ha & He & Hc & _).
    split_and!; try done. rewrite <- Hk. by apply recordAccess_lists.
Qed.

Lemma RecordAccess_moves_front_witness :
  reachable 7 2 (after 7 2 scenarioA) ∧ 2 ≤ 7 ∧
  ∃ r', RecordAccess (after 7 2 scenarioA) 2 = Ok r'.
Proof.
  assert (Hr : reachable 7 2 (after 7 2 scenarioA)).
  { apply after_reachable. eexists. vm_compute. reflexivity. }
  split; [exact Hr|]. split; [lia|].
  apply (proj1 (RecordAccess_moves_front 7 2 (after 7 2 scenarioA) 2 Hr ltac:(lia))).
  left. lia.
Defined.

(** X14. In a reachable state, [SetEvictable] of a frame id in range
    returns.  On a frame that is not tracked it changes nothing.  On a
    tracked frame it sets the flag of that frame only, and [currSize] goes
    up by one when the flag goes from false to true, down by one when it
    goes from true to false, and stays when the flag is as asked.  The
    lists and the counts are never touched, and the same call once more
    changes nothing. *)
Theorem SetEvictable_spec numFrames k0 r f b :
  reachable numFrames k0 r → f ≤ numFrames →
  ∃ r', SetEvictable r f b = Ok r' ∧
    (accessCount r !! f = None → r' = r) ∧
    (is_Some (accessCount r !! f) →
       evictable r' f = b ∧
       (∀ x, x ≠ f → evictable r' x = evictable r x) ∧
       currSize r' + (if evictable r f then 1 else 0) =
       currSize r + (if b then 1 else 0)) ∧
    accessCount r' = accessCount r ∧
    historyList r' = historyList r ∧ cacheList r' = cacheList r ∧
    SetEvictable r' f b = Ok r'.
Proof.
  intros Hr Hf. pose proof (reachable_wf _ _ _ Hr) as Hwf.
  destruct (reachable_config _ _ _ Hr) as [Hk Hrs].
  destruct (setEvictable_fields r f b) as (Ha & Hh & Hc & _ & _ & _ & Hrs').
  exists (setEvictable r f b). split_and!; try done.
  - unfold SetEvictable. rewrite checkOverstep_Ok by lia. done.
  - intros Hn. unfold setEvictable. by rewrite Hn.
  - intros [c Hc']. unfold setEvictable. rewrite Hc'. simpl. split_and!.
    + unfold evictable. simpl. by rewrite lookup_insert_eq.
    + intros x Hne. unfold evictable. simpl. by rewrite lookup_insert_ne.
    + destruct b, (evictable r f) eqn:He; simpl; try lia.
      assert (f ∈ evictable_frames r) as Hin.
      { apply elem_of_evictable_frames. split; [by apply evictable_true|eauto]. }
      pose proof (wf_size _ Hwf) as Hs. unfold evictable_count in Hs.
      assert (size (evictable_frames r) ≠ 0)%nat; [|lia].
      intros H0. apply size_empty_inv in H0. set_solver.
  - unfold SetEvictable. rewrite checkOverstep_Ok by lia. simpl.
    by rewrite setEvictable_idem.
Qed.

Lemma SetEvictable_spec_witness :
  reachable 7 2 (after 7 2 scenarioA) ∧ 6 ≤ 7 ∧
  ∃ r', SetEvictable (after 7 2 scenarioA) 6 true = Ok r' ∧
        accessCount r' = accessCount (after 7 2 scenarioA).
Proof.
  assert (Hr : reachable 7 2 (after 7 2 scenarioA)).
  { apply after_reachable. eexists. vm_compute. reflexivity. }
  split; [exact Hr|]. split; [lia|].
  destruct (SetEvictable_spec 7 2 (after 7 2 scenarioA) 6 true Hr ltac:(lia))
    as (r' & H & _ & _ & Ha & _).
  exists r'. split; [exact H|exact Ha].
Defined.

(** X15. In a reachable state, [Evict] reports a victim exactly when
    [Size] is not 0; the victim is a tracked, evictable frame with an id in
    range, and [Remove] of that frame leaves the very state that [Evict]
    leaves. *)
Theorem Evict_is_Remove numFrames k0 r :
  reachable numFrames k0 r →
  (snd (fst (Evict r)) = true ↔ Size r ≠ 0) ∧
  ∀ f r', Evict r = ((f, true), r') →
    f ≤ numFrames ∧ is_Some (accessCount r !! f) ∧ evictable r f = true ∧
    Remove r f = Ok r'.
Proof.
  intros Hr. pose proof (reachable_wf _ _ _ Hr) as Hwf.
  destruct (reachable_config _ _ _ Hr) as [Hk Hrs].
  pose proof (reachable_tracked _ _ _ Hr) as Hok.
  assert (H0 : currSize r = 0 → Evict r = ((0, false), r)).
  { intros H0. unfold Evict. by rewrite H0. }
  split.
  - unfold Size. destruct (decide (currSize r = 0)) as [Hz|Hne].
    + rewrite (H0 Hz). simpl. split; [done|by intros ?].
    + destruct (Evict_cases r Hwf Hne) as (f & r1 & -> & _). done.
  - intros f r' HE. destruct (decide (currSize r = 0)) as [Hz|Hne].
    { rewrite (H0 Hz) in HE. done. }
    destruct (Evict_cases r Hwf Hne) as (f1 & r1 & HE1 & He & [c Hc] & _ & Hrem).
    rewrite HE in HE1. injection HE1 as <- <-.
    destruct (Hok f c Hc) as [Hrange _].
    split_and!; [lia|eauto|done|].
    unfold Remove. rewrite checkOverstep_Ok by lia. done.
Qed.

Lemma Evict_is_Remove_witness :
  reachable 7 2 (after 7 2 scenarioA) ∧ Size (after 7 2 scenarioA) ≠ 0 ∧
  snd (fst (Evict (after 7 2 scenarioA))) = true.
Proof.
  assert (Hr : reachable 7 2 (after 7 2 scenarioA)).
  { apply after_reachable. eexists. vm_compute. reflexivity. }
  assert (Hs : Size (after 7 2 scenarioA) ≠ 0) by (vm_compute; discriminate).
  split; [exact Hr|]. split; [exact Hs|].
  exact (proj2 (proj1 (Evict_is_Remove 7 2 (after 7 2 scenarioA) Hr)) Hs).
Defined.

(** X16. In a reachable state every tracked frame has an id of at most
    [numFrames] and a count of at least 1; so at most [numFrames + 1]
    frames are tracked, and [Size] is at most [numFrames + 1]. *)
Theorem tracked_in_range numFrames k0 r :
  reachable numFrames k0 r →
  (∀ f c, accessCount r !! f = Some c → f ≤ numFrames ∧ 1 ≤ c) ∧
  N.of_nat (size (dom (accessCount r))) ≤ numFrames + 1 ∧
  Size r ≤ numFrames + 1.
Proof.
  intros Hr. pose proof (reachable_wf _ _ _ Hr) as Hwf.
  destruct (reachable_config _ _ _ Hr) as [Hk Hrs].
  assert (Hok : ∀ f c, accessCount r !! f = Some c → f ≤ numFrames ∧ 1 ≤ c).
  { intros f c Hc. rewrite <- Hrs. by apply (reachable_tracked _ _ _ Hr). }
  assert (Hdom : (size (dom (accessCount r)) ≤ S (N.to_nat numFrames))%nat).
  { etrans; [|etrans; [apply (size_list_to_set_bound
                                 (N.of_nat <$> seq 0 (S (N.to_nat numFrames))))|]].
    - apply subseteq_size. intros x Hx. apply elem_of_dom in Hx as [c Hc].
      apply Hok in Hc as [Hc _]. apply elem_of_list_to_set, list_elem_of_fmap.
      exists (N.to_nat x). split; [lia|]. apply elem_of_seq. lia.
    - by rewrite length_fmap, length_seq. }
  split_and!; [done|lia|].
  unfold Size. rewrite (wf_size _ Hwf). unfold evictable_count.
  pose proof (subseteq_size (evictable_frames r) (dom (accessCount r))) as Hle.
  assert (evictable_frames r ⊆ dom (accessCount r)) as Hsub.
  { intros x Hx. apply elem_of_evictable_frames in Hx as [_ Hx]. by apply elem_of_dom. }
  apply Hle in Hsub. lia.
Qed.

Lemma tracked_in_range_witness :
  reachable 7 2 (after 7 2 scenarioA) ∧ Size (after 7 2 scenarioA) ≤ 7 + 1.
Proof.
  assert (Hr : reachable 7 2 (after 7 2 scenarioA)).
  { apply after_reachable. eexists. vm_compute. reflexivity. }
  split; [exact Hr|].
  exact (proj2 (proj2 (tracked_in_range 7 2 (after 7 2 scenarioA) Hr))).
Defined.

(** X17. In a reachable state no frame is twice in a list; a frame is in
    the history list exactly when it is tracked with a count below [k], in
    the cache list exactly when it is tracked with a count of [k] or more,
    so never in both and, when tracked, in one of them; and only tracked
    frames have a flag. *)
Theorem lists_partition numFrames k0 r :
  reachable numFrames k0 r →
  NoDup (frames (historyList r)) ∧ NoDup (frames (cacheList r)) ∧
  ∀ f,
    (f ∈ frames (historyList r) ↔ ∃ c, accessCount r !! f = Some c ∧ c < k0) ∧
    (f ∈ frames (cacheList r) ↔ ∃ c, accessCount r !! f = Some c ∧ k0 ≤ c) ∧
    ¬ (f ∈ frames (historyList r) ∧ f ∈ frames (cacheList r)) ∧
    (is_Some (accessCount r !! f) →
     f ∈ frames (historyList r) ∨ f ∈ frames (cacheList r)) ∧
    (evictable r f = true → is_Some (accessCount r !! f)).
Proof.
  intros Hr. pose proof (reachable_wf _ _ _ Hr) as Hwf.
  destruct (reachable_config _ _ _ Hr) as [Hk Hrs]. rewrite <- Hk.
  assert (Hnd : ∀ l m, linked l m → NoDup (frames l)).
  { intros l m Hl. unfold frames. apply NoDup_fmap_2_strong.
    - intros x y Hx Hy Hv. apply (linked_inj l m x y Hl Hx Hy).
      pose proof (linked_elem _ _ _ Hl Hx) as H1.
      pose proof (linked_elem _ _ _ Hl Hy) as H2. rewrite Hv in H1. congruence.
    - destruct Hl as [Hl _]. by apply NoDup_fmap_1 in Hl. }
  split; [apply (Hnd _ _ (wf_hist _ Hwf))|]. split; [apply (Hnd _ _ (wf_cache _ Hwf))|].
  intros f.
  rewrite (frames_elem _ _ f (wf_hist _ Hwf)), (frames_elem _ _ f (wf_cache _ Hwf)).
  rewrite (wf_hist_count _ Hwf f), (wf_cache_count _ Hwf f).
  split_and!; try done.
  - intros [(c & Hc & Hlt) (c' & Hc' & Hle)]. rewrite Hc in Hc'. injection Hc' as <-. lia.
  - intros [c Hc]. destruct (decide (c < k r)); [left|right]; exists c; split; try done; lia.
  - intros He. apply evictable_true in He. apply (wf_flag_tracked _ Hwf). eauto.
Qed.

Lemma lists_partition_witness :
  reachable 7 2 (after 7 2 scenarioA) ∧
  NoDup (frames (historyList (after 7 2 scenarioA))).
Proof.
  assert (Hr : reachable 7 2 (after 7 2 scenarioA)).
  { apply after_reachable. eexists. vm_compute. reflexivity. }
  split; [exact Hr|].
  exact (proj1 (lists_partition 7 2 (after 7 2 scenarioA) Hr)).
Defined.

(** X18. In a reachable state, as many calls of [Evict] in a row as [Size]
    tells all report a victim; the victims are the evictable frames, each
    once; afterwards [Size] is 0, one more [Evict] reports no victim and
    changes nothing, and the frames that were not evictable are tracked
    with the counts they had. *)
Theorem Evict_drains numFrames k0 r :
  reachable numFrames k0 r →
  length (fst (evictN (N.to_nat (Size r)) r)) = N.to_nat (Size r) ∧
  (∀ x, x ∈ fst (evictN (N.to_nat (Size r)) r) → snd x = true) ∧
  NoDup (fst <$> fst (evictN (N.to_nat (Size r)) r)) ∧
  (∀ f, f ∈ (fst <$> fst (evictN (N.to_nat (Size r)) r)) ↔ f ∈ evictable_frames r) ∧
  Size (snd (evictN (N.to_nat (Size r)) r)) = 0 ∧
  Evict (snd (evictN (N.to_nat (Size r)) r)) =
    ((0, false), snd (evictN (N.to_nat (Size r)) r)) ∧
  (∀ f, f ∉ evictable_frames r →
        accessCount (snd (evictN (N.to_nat (Size r)) r)) !! f = accessCount r !! f).
Proof.
  intros Hr. pose proof (reachable_wf _ _ _ Hr) as Hwf. unfold Size.
  destruct (evictN_spec (N.to_nat (currSize r)) r Hwf ltac:(lia))
    as (Hlen & Htrue & Hnd & Hset & _ & H0 & Hkeep).
  split_and!; try done. unfold Evict. by rewrite H0.
Qed.

Lemma Evict_drains_witness :
  reachable 7 2 (after 7 2 scenarioA) ∧
  Size (snd (evictN (N.to_nat (Size (after 7 2 scenarioA))) (after 7 2 scenarioA))) = 0.
Proof.
  assert (Hr : reachable 7 2 (after 7 2 scenarioA)).
  { apply after_reachable. eexists. vm_compute. reflexivity. }
  split; [exact Hr|].
  destruct (Evict_drains 7 2 (after 7 2 scenarioA) Hr) as (_ & _ & _ & _ & H & _).
  exact H.
Defined.

(** X19. A replacer built with [k = 1] never tracks a frame: every state
    it reaches is the new one, and [RecordAccess] aborts on it for every
    frame id. *)
Theorem k1_tracks_nothing numFrames r :
  reachable numFrames 1 r →
  r = NewLRUKReplacer numFrames 1 ∧
  ∀ f, RecordAccess r f = Panic (ErrOverstep f) ∨ RecordAccess r f = Panic ErrNilElement.
Proof.
  assert (Hrec : ∀ f, RecordAccess (NewLRUKReplacer numFrames 1) f = Panic (ErrOverstep f) ∨
                      RecordAccess (NewLRUKReplacer numFrames 1) f = Panic ErrNilElement).
  { intros f. unfold RecordAccess, checkOverstep. cbn [replacerSize NewLRUKReplacer].
    destruct (numFrames <? f); [by left|right]. done. }
  intros Hr. assert (r = NewLRUKReplacer numFrames 1) as ->; [|done].
  induction Hr as [|r o r' _ -> Hstep]; [done|].
  destruct o as [f|f b| |f]; simpl in Hstep.
  - destruct (Hrec f) as [H|H]; rewrite H in Hstep; done.
  - apply bind_Ok in Hstep as (_ & _ & [= <-]). done.
  - by injection Hstep as <-.
  - apply bind_Ok in Hstep as (_ & _ & H). by injection H as <-.
Qed.

Lemma k1_tracks_nothing_witness :
  reachable 7 1 (NewLRUKReplacer 7 1) ∧
  (RecordAccess (NewLRUKReplacer 7 1) 3 = Panic (ErrOverstep 3) ∨
   RecordAccess (NewLRUKReplacer 7 1) 3 = Panic ErrNilElement).
Proof.
  split; [apply reach_new|].
  exact (proj2 (k1_tracks_nothing 7 (NewLRUKReplacer 7 1) (reach_new 7 1)) 3).
Defined.

End LrukMore.

(** ** Properties of the cache manager *)
Module CacheFacts.

Import Eht EhtFacts EhtMore Cachemanager.

#[local] Open Scope N_scope.

(** *** The replacer keyed by strings *)

Lemma key_RecordAccess_fields r key r' :
  LrukKey.RecordAccess r key = LrukKey.Ok r' →
  LrukKey.accessCount r' =
    <[key := default 0 (LrukKey.accessCount r !! key) + 1]> (LrukKey.accessCount r) ∧
  LrukKey.isEvictable r' = LrukKey.isEvictable r ∧
  LrukKey.currSize r' = LrukKey.currSize r ∧
  LrukKey.k r' = LrukKey.k r ∧ LrukKey.replacerSize r' = LrukKey.replacerSize r ∧
  ∀ x, x ≠ key → LrukKey.historyMap r' !! x = LrukKey.historyMap r !! x.
Proof.
  unfold LrukKey.RecordAccess.
  set (count := default 0 (LrukKey.accessCount r !! key) + 1). simpl.
  destruct (count =? LrukKey.k r); [|destruct (LrukKey.k r <? count)].
  - destruct (LrukKey.historyMap r !! key); [|done]. intros [= <-]. simpl.
    split_and!; try done. intros x Hx. by rewrite lookup_delete_ne.
  - destruct (LrukKey.cacheMap r !! key); by intros [= <-].
  - destruct (LrukKey.historyMap r !! key); intros [= <-]; simpl;
      (split_and!; try done); intros x Hx; by rewrite lookup_insert_ne.
Qed.

(** The handle of the key after an access: there is one exactly when the
    new count is below [k]. *)
Lemma key_RecordAccess_handle r key r' :
  (is_Some (LrukKey.historyMap r !! key) →
   default 0 (LrukKey.accessCount r !! key) < LrukKey.k r) →
  LrukKey.RecordAccess r key = LrukKey.Ok r' →
  (is_Some (LrukKey.historyMap r' !! key) ↔
   default 0 (LrukKey.accessCount r !! key) + 1 < LrukKey.k r).
Proof.
  intros Hh. unfold LrukKey.RecordAccess.
  set (count := default 0 (LrukKey.accessCount r !! key) + 1) in *. simpl.
  destruct (count =? LrukKey.k r) eqn:Hk;
    [|destruct (LrukKey.k r <? count) eqn:Hlt].
  - apply N.eqb_eq in Hk.
    destruct (LrukKey.historyMap r !! key); [|done]. intros [= <-]. simpl.
    rewrite lookup_delete_eq. split; [by intros [? ?]|lia].
  - apply N.ltb_lt in Hlt.
    assert (Hn : ¬ is_Some (LrukKey.historyMap r !! key)).
    { intros Hs. apply Hh in Hs. lia. }
    destruct (LrukKey.cacheMap r !! key); intros [= <-]; simpl; (split; [done|lia]).
  - apply N.eqb_neq in Hk. apply N.ltb_ge in Hlt.
    destruct (LrukKey.historyMap r !! key); intros [= <-]; simpl;
      rewrite lookup_insert_eq; (split; [lia|eauto]).
Qed.

(** An access aborts exactly when the new count is [k] and the key has no
    handle in [historyMap]. *)
Lemma key_RecordAccess_returns r key :
  (∃ r', LrukKey.RecordAccess r key = LrukKey.Ok r') ↔
  ¬ (default 0 (LrukKey.accessCount r !! key) + 1 = LrukKey.k r ∧
     LrukKey.historyMap r !! key = None).
Proof.
  unfold LrukKey.RecordAccess.
  set (count := default 0 (LrukKey.accessCount r !! key) + 1). simpl.
  destruct (count =? LrukKey.k r) eqn:Hk;
    [|destruct (LrukKey.k r <? count) eqn:Hlt].
  - apply N.eqb_eq in Hk. destruct (LrukKey.historyMap r !! key) eqn:Hm.
    + split; [|eauto]. by intros _ [_ ?].
    + split; [by intros [? ?]|]. intros H. by destruct H.
  - apply N.eqb_neq in Hk. split; [|eauto]. by intros _ [? _].
  - apply N.eqb_neq in Hk. split; [|eauto]. by intros _ [? _].
Qed.

(** *** The manager *)

Section ManagerFacts.

Context {V : Type}.
Implicit Types (c : CacheManager V) (key : string) (v : V).

Lemma insertLoop_holds double fuel (e : ExtendibleHashTable V) key v e' :
  doubles double → tbl_inv e → insertLoop double fuel e key v = Done e' →
  tbl_inv e' ∧ bucketSize e' = bucketSize e ∧ Find e' key = Done (Some v) ∧
  (∀ x, x ≠ key → Find e' x = Find e x) ∧
  (∀ x, holds e' x ↔ holds e x ∨ x = key).
Proof.
  intros Hdbl Hinv Hi.
  destruct (insertLoop_inv double fuel key v Hdbl e e' Hinv Hi) as [Hinv' Hbs].
  destruct (insertLoop_more double fuel e key v e' Hdbl Hinv Hi) as (Hkeep & _).
  pose proof (insertLoop_Find double fuel e key v e' Hi) as Hk.
  split_and!; try done.
  intros x. rewrite (Find_Some_holds e' x Hinv'), (Find_Some_holds e x Hinv).
  destruct (decide (x = key)) as [->|Hne].
  - split; [by right|]. intros _. eauto.
  - rewrite (Hkeep x Hne). split; [by left|]. by intros [H|H].
Qed.

Lemma New_mgr_inv bs n k0 : mgr_inv (NewCacheManager (V := V) bs n k0).
Proof.
  constructor; simpl.
  - apply New_inv.
  - intros key. rewrite lookup_empty. split; [by intros [? ?]|].
    intros (i & p & b & Hd & Hh & Hk). exfalso.
    destruct i as [|i]; [|done]. injection Hd as <-. injection Hh as <-.
    by apply elem_of_nil in Hk.
  - intros key. by rewrite !lookup_empty.
  - by rewrite dom_empty_L, size_empty.
  - intros key. rewrite lookup_empty. split; [by intros [? ?]|].
    by intros (n0 & Hn & _).
  - intros key (i & p & b & Hd & Hh & Hk). exfalso.
    destruct i as [|i]; [|done]. injection Hd as <-. injection Hh as <-.
    by apply elem_of_nil in Hk.
Qed.

(** In a manager that keeps the invariant, an access of the replacer
    aborts only on a key that is not tracked, with [k = 1]. *)
Lemma mgr_RecordAccess c key :
  mgr_inv c →
  (∃ r', LrukKey.RecordAccess (replacer c) key = LrukKey.Ok r') ↔
  LrukKey.k (replacer c) ≠ 1 ∨ holds (table c) key.
Proof.
  intros Hinv. rewrite key_RecordAccess_returns, <- (mi_tracked _ Hinv key).
  destruct (LrukKey.accessCount (replacer c) !! key) as [n|] eqn:Hn; simpl.
  - split; [eauto|]. intros _ [Hk Hm].
    assert (is_Some (LrukKey.historyMap (replacer c) !! key)) as [? ?]; [|congruence].
    apply (mi_hist _ Hinv). exists n. split; [done|lia].
  - assert (Hm : LrukKey.historyMap (replacer c) !! key = None).
    { destruct (LrukKey.historyMap (replacer c) !! key) eqn:Hm; [|done]. exfalso.
      assert (is_Some (LrukKey.historyMap (replacer c) !! key)) as Hs by eauto.
      apply (mi_hist _ Hinv) in Hs as (n' & Hn' & _). congruence. }
    split.
    + intros H. left. intros Hk. apply H. split; [lia|done].
    + intros [Hk|[? ?]] [Hk' _]; [lia|done].
Qed.

(** What an access of the replacer keeps of the invariant. *)
Lemma mgr_access c key r' :
  mgr_inv c → LrukKey.RecordAccess (replacer c) key = LrukKey.Ok r' →
  (∀ x, is_Some (LrukKey.historyMap r' !! x) ↔
        ∃ n, LrukKey.accessCount r' !! x = Some n ∧ n < LrukKey.k r').
Proof.
  intros Hinv Hr.
  destruct (key_RecordAccess_fields _ _ _ Hr) as (Ha & _ & _ & Hk & _ & Hother).
  intros x. rewrite Ha, Hk. destruct (decide (x = key)) as [->|Hne].
  - rewrite lookup_insert_eq.
    rewrite (key_RecordAccess_handle (replacer c) key r'); [|  |done].
    + split; [eauto|]. by intros (n & [= <-] & Hn).
    + intros Hs. apply (mi_hist _ Hinv) in Hs as (n & -> & Hn). done.
  - rewrite lookup_insert_ne, Hother by done. apply (mi_hist _ Hinv).
Qed.

Lemma Set_inv fuel c key v c' :
  mgr_inv c → Set_ fuel c key v = Done c' →
  mgr_inv c' ∧ Find (table c') key = Done (Some v) ∧
  (∀ x, x ≠ key → Find (table c') x = Find (table c) x) ∧
  (∀ x, holds (table c') x ↔ holds (table c) x ∨ x = key) ∧
  LrukKey.k (replacer c') = LrukKey.k (replacer c) ∧
  bucketSize (table c') = bucketSize (table c) ∧
  dom (LrukKey.accessCount (replacer c')) =
    {[key]} ∪ dom (LrukKey.accessCount (replacer c)).
Proof.
  intros Hinv. unfold Set_. cbn [table replacer mus mutex].
  destruct (Insert_capacity fuel (table c) key v) as [t| |] eqn:Hi; [|done|done].
  destruct (LrukKey.RecordAccess (replacer c) key) as [r1|] eqn:Hr; [|done].
  intros [= <-]. cbn [table replacer mus].
  destruct (insertLoop_holds _ fuel (table c) key v t appendCapacity_doubles
              (mi_table _ Hinv) Hi) as (Hinv' & Hbs & Hk & Hkeep & Hholds).
  destruct (key_RecordAccess_fields _ _ _ Hr) as (Ha & He & Hc & Hk1 & _ & _).
  pose proof (mgr_access c key r1 Hinv Hr) as Hhist.
  assert (Htr : is_Some (LrukKey.accessCount r1 !! key)).
  { rewrite Ha, lookup_insert_eq. eauto. }
  destruct Htr as [n1 Hn1].
  assert (Hfields :
    LrukKey.accessCount (LrukKey.SetEvictable r1 key true) = LrukKey.accessCount r1 ∧
    LrukKey.historyMap (LrukKey.SetEvictable r1 key true) = LrukKey.historyMap r1 ∧
    LrukKey.k (LrukKey.SetEvictable r1 key true) = LrukKey.k r1 ∧
    LrukKey.isEvictable (LrukKey.SetEvictable r1 key true) =
      <[key := true]> (LrukKey.isEvictable r1) ∧
    LrukKey.currSize (LrukKey.SetEvictable r1 key true) =
      LrukKey.currSize r1 +
      (if bool_decide (true = LrukKey.evictable r1 key) then 0 else 1)).
  { unfold LrukKey.SetEvictable. rewrite Hn1. done. }
  destruct Hfields as (Ha2 & Hh2 & Hk2 & He2 & Hc2).
  assert (Hdom : dom (LrukKey.accessCount r1) =
                 {[key]} ∪ dom (LrukKey.accessCount (replacer c))).
  { rewrite Ha. by rewrite dom_insert_L. }
  split_and!; try done; [|congruence|by rewrite Ha2].
  constructor; cbn [table replacer mus].
  - done.
  - intros x. rewrite Ha2, Ha, Hholds, <- (mi_tracked _ Hinv x).
    destruct (decide (x = key)) as [->|Hne].
    + rewrite lookup_insert_eq. split; [by right|eauto].
    + rewrite lookup_insert_ne by done. split; [by left|]. by intros [?|?].
  - intros x. rewrite Ha2, He2, Ha, He. destruct (decide (x = key)) as [->|Hne].
    + by rewrite !lookup_insert_eq.
    + rewrite !lookup_insert_ne by done. apply (mi_flags _ Hinv).
  - rewrite Hc2, Ha2, Hdom, Hc, (mi_size _ Hinv).
    unfold LrukKey.evictable. rewrite He, (mi_flags _ Hinv key).
    destruct (LrukKey.accessCount (replacer c) !! key) as [n|] eqn:Hn; simpl.
    + rewrite ?bool_decide_eq_true_2 by done.
      assert (key ∈ dom (LrukKey.accessCount (replacer c))) by (apply elem_of_dom; eauto).
      replace ({[key]} ∪ dom (LrukKey.accessCount (replacer c)))
        with (dom (LrukKey.accessCount (replacer c))) by set_solver.
      lia.
    + rewrite ?bool_decide_eq_false_2 by done.
      assert (key ∉ dom (LrukKey.accessCount (replacer c))).
      { intros Hin. apply elem_of_dom in Hin as [? ?]. congruence. }
      rewrite size_union by set_solver. rewrite size_singleton. lia.
  - intros x. rewrite Hh2, Ha2, Hk2. apply Hhist.
  - intros x Hx. apply Hholds in Hx as [Hx| ->]; [|set_solver].
    apply (mi_mus _ Hinv) in Hx. set_solver.
Qed.

Lemma Get_inv c key r c' :
  mgr_inv c → Get c key = Done (r, c') →
  mgr_inv c' ∧ Find (table c) key = Done r ∧ table c' = table c ∧
  LrukKey.k (replacer c') = LrukKey.k (replacer c) ∧
  dom (LrukKey.accessCount (replacer c')) = dom (LrukKey.accessCount (replacer c)) ∧
  mus c' = {[key]} ∪ mus c ∧
  (r = None → replacer c' = replacer c).
Proof.
  intros Hinv. unfold Get. cbn [table replacer mus mutex].
  destruct (Find (table c) key) as [[w|]| |] eqn:Hf; [| |done|done].
  - destruct (LrukKey.RecordAccess (replacer c) key) as [r1|] eqn:Hr; [|done].
    intros [= <- <-]. cbn [table replacer mus].
    destruct (key_RecordAccess_fields _ _ _ Hr) as (Ha & He & Hc & Hk1 & _ & _).
    pose proof (mgr_access c key r1 Hinv Hr) as Hhist.
    assert (Hheld : holds (table c) key).
    { apply (Find_Some_holds _ _ (mi_table _ Hinv)). eauto. }
    apply (mi_tracked _ Hinv) in Hheld as Htr. destruct Htr as [n Hn].
    assert (Hdom : dom (LrukKey.accessCount r1) = dom (LrukKey.accessCount (replacer c))).
    { rewrite Ha, dom_insert_L.
      assert (key ∈ dom (LrukKey.accessCount (replacer c))) by (apply elem_of_dom; eauto).
      set_solver. }
    split_and!; try done.
    constructor; cbn [table replacer mus].
    + apply (mi_table _ Hinv).
    + intros x. rewrite <- (mi_tracked _ Hinv x), Ha.
      destruct (decide (x = key)) as [->|Hne].
      * rewrite lookup_insert_eq, Hn. split; eauto.
      * by rewrite lookup_insert_ne.
    + intros x. rewrite He, Ha, (mi_flags _ Hinv x).
      destruct (decide (x = key)) as [->|Hne].
      * by rewrite lookup_insert_eq, Hn.
      * by rewrite lookup_insert_ne.
    + rewrite Hc, Hdom. apply (mi_size _ Hinv).
    + done.
    + intros x Hx. apply (mi_mus _ Hinv) in Hx. set_solver.
  - intros [= <- <-]. cbn [table replacer mus]. split_and!; try done.
    destruct Hinv. constructor; cbn [table replacer mus]; try done.
    intros x Hx. apply mi_mus0 in Hx. set_solver.
Qed.

Lemma reachable_mgr bs n k0 c :
  reachable bs n k0 c →
  mgr_inv c ∧ LrukKey.k (replacer c) = k0 ∧ bucketSize (table c) = bs.
Proof.
  induction 1 as [|c fuel key v c' _ (Hinv & Hk & Hbs) Hs|c key r c' _ (Hinv & Hk & Hbs) Hg].
  - split; [apply New_mgr_inv|done].
  - destruct (Set_inv fuel c key v c' Hinv Hs) as (Hinv' & _ & _ & _ & Hk' & Hbs' & _).
    split; [done|]. split; congruence.
  - destruct (Get_inv c key r c' Hinv Hg) as (Hinv' & _ & Ht & Hk' & _).
    split; [done|]. split; congruence.
Qed.

(** [Get] returns in every manager that keeps the invariant. *)
Lemma Get_returns c key :
  mgr_inv c → ∃ c', Get c key = Done (stored c key, c').
Proof.
  intros Hinv. unfold Get, stored. cbn [table replacer mus mutex].
  destruct (tbl_inv_bucketAt (table c) key (mi_table _ Hinv)) as (p & b & Hb & _).
  rewrite (Find_bucketAt _ _ _ _ Hb).
  destruct (Bucket_Find b key) as [w|] eqn:Hf; [|eauto].
  assert (Hheld : holds (table c) key).
  { apply (Find_Some_holds _ _ (mi_table _ Hinv)).
    rewrite (Find_bucketAt _ _ _ _ Hb), Hf. eauto. }
  destruct (proj2 (mgr_RecordAccess c key Hinv) (or_intror Hheld)) as [r1 ->]. eauto.
Qed.

(** X20. In a reachable cache manager, when [Set(key, value)] returns,
    [Get(key)] returns the value, and [Get] of every other key returns
    what it returned before the [Set]. *)
Theorem Set_then_Get bs n k0 c fuel key v c' :
  reachable bs n k0 c → Set_ fuel c key v = Done c' →
  (∃ c'', Get c' key = Done (Some v, c'')) ∧
  ∀ x, x ≠ key → ∀ r c1, Get c x = Done (r, c1) → ∃ c2, Get c' x = Done (r, c2).
Proof.
  intros Hr Hs. destruct (reachable_mgr _ _ _ _ Hr) as (Hinv & _).
  destruct (Set_inv fuel c key v c' Hinv Hs) as (Hinv' & Hk & Hkeep & _).
  split.
  - destruct (Get_returns c' key Hinv') as [c'' H]. exists c''.
    rewrite H. unfold stored. by rewrite Hk.
  - intros x Hne r c1 Hg.
    destruct (Get_inv c x r c1 Hinv Hg) as (_ & Hf & _).
    destruct (Get_returns c' x Hinv') as [c2 H]. exists c2.
    rewrite H. unfold stored. by rewrite (Hkeep x Hne), Hf.
Qed.

(** X21. In a reachable cache manager [Get] returns for every key.  It
    never changes the table, and it gives the key a mutex.  When the key is
    not found it returns nil and leaves the replacer as it is; when the key
    is found the replacer counts one more access of that key and tracks the
    keys it tracked.  A second [Get] returns the same value. *)
Theorem Get_spec bs n k0 c key :
  reachable bs n k0 c →
  ∃ r c', Get c key = Done (r, c') ∧
    Find (table c) key = Done r ∧
    table c' = table c ∧ mus c' = {[key]} ∪ mus c ∧
    (r = None → replacer c' = replacer c) ∧
    (is_Some r →
     LrukKey.accessCount (replacer c') =
       <[key := default 0 (LrukKey.accessCount (replacer c) !! key) + 1]>
         (LrukKey.accessCount (replacer c)) ∧
     is_Some (LrukKey.accessCount (replacer c) !! key) ∧
     LrukKey.Size (replacer c') = LrukKey.Size (replacer c)) ∧
    ∃ c'', Get c' key = Done (r, c'').
Proof.
  intros Hr. destruct (reachable_mgr _ _ _ _ Hr) as (Hinv & _).
  destruct (Get_returns c key Hinv) as [c' Hg].
  destruct (Get_inv c key _ c' Hinv Hg) as (Hinv' & Hf & Ht & _ & _ & Hm & Hnone).
  exists (stored c key), c'. split_and!; try done.
  - intros [w Hw]. unfold Get in Hg. cbn [table replacer mus mutex] in Hg.
    rewrite Hf, Hw in Hg.
    destruct (LrukKey.RecordAccess (replacer c) key) as [r1|] eqn:Hr1; [|done].
    injection Hg as <-. cbn [replacer].
    destruct (key_RecordAccess_fields _ _ _ Hr1) as (Ha & _ & Hc & _).
    split_and!; try done.
    apply (mi_tracked _ Hinv), (Find_Some_holds _ _ (mi_table _ Hinv)).
    rewrite Hf, Hw. eauto.
  - destruct (Get_returns c' key Hinv') as [c'' H]. exists c''.
    rewrite H. unfold stored. by rewrite Ht.
Qed.

(** X22. In a reachable cache manager the replacer tracks exactly the
    keys the table holds, every one of them is evictable, and [Size] of
    the replacer is their number; every key the table holds has a
    mutex. *)
Theorem replacer_mirrors_table bs n k0 c :
  reachable bs n k0 c →
  (∀ key, is_Some (LrukKey.accessCount (replacer c) !! key) ↔ is_Some (stored c key)) ∧
  (∀ key, LrukKey.evictable (replacer c) key = true ↔ is_Some (stored c key)) ∧
  LrukKey.Size (replacer c) =
    N.of_nat (base.size (dom (LrukKey.accessCount (replacer c)))) ∧
  (∀ key, is_Some (stored c key) → key ∈ mus c).
Proof.
  intros Hr. destruct (reachable_mgr _ _ _ _ Hr) as (Hinv & _).
  assert (Hst : ∀ key, is_Some (stored c key) ↔ holds (table c) key).
  { intros key. rewrite (Find_Some_holds _ key (mi_table _ Hinv)). unfold stored.
    destruct (Find (table c) key) as [[w|]| |].
    - split; eauto.
    - split; [by intros [? ?]|by intros [? ?]].
    - split; [by intros [? ?]|by intros [? ?]].
    - split; [by intros [? ?]|by intros [? ?]]. }
  split_and!.
  - intros key. rewrite Hst. apply (mi_tracked _ Hinv).
  - intros key. rewrite Hst, <- (mi_tracked _ Hinv key).
    unfold LrukKey.evictable. rewrite (mi_flags _ Hinv key).
    destruct (LrukKey.accessCount (replacer c) !! key); simpl.
    + split; eauto.
    + split; [done|by intros [? ?]].
  - apply (mi_size _ Hinv).
  - intros key Hk. apply (mi_mus _ Hinv). by apply Hst.
Qed.

(** X23. Nothing leaves a cache manager: over a call of [Set] or of [Get]
    that returns, a key that [Find] found is still found and [Size] of the
    replacer does not go down; [Evict] and [Remove] are never called. *)
Theorem nothing_evicted bs n k0 c c' :
  reachable bs n k0 c →
  (∃ fuel key v, Set_ fuel c key v = Done c') ∨ (∃ key r, Get c key = Done (r, c')) →
  (∀ x, is_Some (stored c x) → is_Some (stored c' x)) ∧
  LrukKey.Size (replacer c) ≤ LrukKey.Size (replacer c').
Proof.
  intros Hr Hstep. destruct (reachable_mgr _ _ _ _ Hr) as (Hinv & _).
  unfold LrukKey.Size. destruct Hstep as [(fuel & key & v & Hs)|(key & r & Hg)].
  - destruct (Set_inv fuel c key v c' Hinv Hs) as (Hinv' & Hk & Hkeep & _ & _ & _ & Hdom).
    split.
    + intros x Hx. unfold stored in *. destruct (decide (x = key)) as [->|Hne].
      * rewrite Hk. eauto.
      * by rewrite (Hkeep x Hne).
    + rewrite (mi_size _ Hinv), (mi_size _ Hinv'), Hdom.
      pose proof (subseteq_size (dom (LrukKey.accessCount (replacer c)))
                    ({[key]} ∪ dom (LrukKey.accessCount (replacer c)))
                    ltac:(set_solver)). lia.
  - destruct (Get_inv c key r c' Hinv Hg) as (Hinv' & _ & Ht & _ & Hdom & _).
    split.
    + intros x. unfold stored. by rewrite Ht.
    + rewrite (mi_size _ Hinv), (mi_size _ Hinv'), Hdom. lia.
Qed.

(** X24. In a reachable cache manager built with [k] other than 1, [Set]
    returns exactly when [Insert] of the table returns: the replacer never
    aborts. *)
Theorem Set_returns bs n k0 c fuel key v :
  reachable bs n k0 c → k0 ≠ 1 →
  (∃ c', Set_ fuel c key v = Done c') ↔
  (∃ t, Insert_capacity fuel (table c) key v = Done t).
Proof.
  intros Hr Hk0. destruct (reachable_mgr _ _ _ _ Hr) as (Hinv & Hk & _).
  assert (Hk1 : LrukKey.k (replacer c) ≠ 1) by by rewrite Hk.
  destruct (proj2 (mgr_RecordAccess c key Hinv) (or_introl Hk1)) as [r1 Hr1].
  unfold Set_. cbn [table replacer mus mutex]. rewrite Hr1.
  destruct (Insert_capacity fuel (table c) key v) as [t| |].
  - split; eauto.
  - split; [by intros [? ?]|by intros [? ?]].
  - split; [by intros [? ?]|by intros [? ?]].
Qed.

(** X25. A cache manager built with [k = 1] stores nothing: [Set] never
    returns, it aborts in the replacer whenever [Insert] of the table
    returns; every manager reached has the new table and the new replacer,
    and [Get] returns nil for every key. *)
Theorem k1_Set_aborts bs n c :
  reachable bs n 1 c →
  table c = NewExtendibleHashTable bs ∧ replacer c = LrukKey.New n 1 ∧
  (∀ fuel key v c', Set_ fuel c key v ≠ Done c') ∧
  (∀ fuel key v t, Insert_capacity fuel (table c) key v = Done t →
                   Set_ fuel c key v = Crash) ∧
  (∀ key, Get c key = Done (None, mutex c key)).
Proof.
  intros Hr.
  assert (Hset : ∀ c0 : CacheManager V, replacer c0 = LrukKey.New n 1 →
            (∀ fuel key v c', Set_ fuel c0 key v ≠ Done c') ∧
            (∀ fuel key v t, Insert_capacity fuel (table c0) key v = Done t →
                             Set_ fuel c0 key v = Crash)).
  { intros c0 H0. split.
    - intros fuel key v c'. unfold Set_. cbn [table replacer mus mutex]. rewrite H0.
      by destruct (Insert_capacity fuel (table c0) key v).
    - intros fuel key v t Hi. unfold Set_. cbn [table replacer mus mutex].
      by rewrite H0, Hi. }
  assert (Hget : ∀ c0 : CacheManager V, table c0 = NewExtendibleHashTable bs →
            ∀ key, Get c0 key = Done (None, mutex c0 key)).
  { intros c0 H0 key. unfold Get. cbn [table replacer mus mutex]. rewrite H0.
    assert (Find (NewExtendibleHashTable (V := V) bs) key = Done None) as ->; [|done].
    unfold Find. pose proof (IndexOf_range (NewExtendibleHashTable (V := V) bs) key) as Hi.
    cbn [globalDepth NewExtendibleHashTable] in Hi. change (2 ^ Z.of_N 0)%Z with 1%Z in Hi.
    assert (IndexOf (NewExtendibleHashTable (V := V) bs) key = 0%Z) as -> by lia. done. }
  assert (Hnew : table c = NewExtendibleHashTable bs ∧ replacer c = LrukKey.New n 1).
  { induction Hr as [|c fuel key v c' _ [Ht Hrep] Hs|c key r c' _ [Ht Hrep] Hg]; [done| |].
    - by destruct (proj1 (Hset c Hrep) fuel key v c').
    - rewrite (Hget c Ht key) in Hg. by injection Hg as <- <-. }
  destruct Hnew as [Ht Hrep]. destruct (Hset c Hrep) as [H1 H2].
  split_and!; try done. by apply Hget.
Qed.

End ManagerFacts.

(** *** The properties at a manager after three calls of [Set] *)

#[local] Open Scope string_scope.

Lemma managerA_reachable : reachable 2 7 2 managerA.
Proof.
  apply (reach_Set 2 7 2
           (afterSet (afterSet (NewCacheManager 2 7 2) "a" "1") "b" "2") 8 "a" "3");
    [|vm_compute; reflexivity].
  apply (reach_Set 2 7 2 (afterSet (NewCacheManager 2 7 2) "a" "1") 8 "b" "2");
    [|vm_compute; reflexivity].
  apply (reach_Set 2 7 2 (NewCacheManager 2 7 2) 8 "a" "1");
    [apply reach_new|vm_compute; reflexivity].
Qed.

Lemma managerA_Set :
  Set_ 8 managerA "c" "4" = Done (afterSet managerA "c" "4").
Proof. vm_compute. reflexivity. Qed.

Lemma Set_then_Get_witness :
  reachable 2 7 2 managerA ∧
  Set_ 8 managerA "c" "4" = Done (afterSet managerA "c" "4") ∧
  ∃ c'', Get (afterSet managerA "c" "4") "c" = Done (Some "4", c'').
Proof.
  split; [exact managerA_reachable|]. split; [exact managerA_Set|].
  exact (proj1 (Set_then_Get 2 7 2 managerA 8 "c" "4" (afterSet managerA "c" "4")
                  managerA_reachable managerA_Set)).
Defined.

Lemma Get_spec_witness :
  reachable 2 7 2 managerA ∧
  ∃ r c', Get managerA "a" = Done (r, c') ∧ table c' = table managerA.
Proof.
  split; [exact managerA_reachable|].
  destruct (Get_spec 2 7 2 managerA "a" managerA_reachable) as (r & c' & Hg & _ & Ht & _).
  exists r, c'. split; [exact Hg|exact Ht].
Defined.

Lemma replacer_mirrors_table_witness :
  reachable 2 7 2 managerA ∧
  LrukKey.Size (replacer managerA) =
    N.of_nat (base.size (dom (LrukKey.accessCount (replacer managerA)))).
Proof.
  split; [exact managerA_reachable|].
  destruct (replacer_mirrors_table 2 7 2 managerA managerA_reachable) as (_ & _ & H & _).
  exact H.
Defined.

Lemma nothing_evicted_witness :
  reachable 2 7 2 managerA ∧
  ((∃ fuel key v, Set_ fuel managerA key v = Done (afterSet managerA "c" "4")) ∨
   (∃ key r, Get managerA key = Done (r, afterSet managerA "c" "4"))) ∧
  (LrukKey.Size (replacer managerA) ≤
   LrukKey.Size (replacer (afterSet managerA "c" "4")))%N.
Proof.
  assert (Hs : (∃ fuel key v, Set_ fuel managerA key v = Done (afterSet managerA "c" "4")) ∨
               (∃ key r, Get managerA key = Done (r, afterSet managerA "c" "4"))).
  { left. exists 8%nat, "c", "4". exact managerA_Set. }
  split; [exact managerA_reachable|]. split; [exact Hs|].
  exact (proj2 (nothing_evicted 2 7 2 managerA (afterSet managerA "c" "4")
                  managerA_reachable Hs)).
Defined.

Lemma Set_returns_witness :
  reachable 2 7 2 managerA ∧ (2 ≠ 1)%N ∧
  ∃ t, Insert_capacity 8 (table managerA) "c" "4" = Done t.
Proof.
  assert (Hk : (2 ≠ 1)%N) by discriminate.
  split; [exact managerA_reachable|]. split; [exact Hk|].
  apply (proj1 (Set_returns 2 7 2 managerA 8 "c" "4" managerA_reachable Hk)).
  exists (afterSet managerA "c" "4"). exact managerA_Set.
Defined.

Lemma k1_Set_aborts_witness :
  reachable 2 7 1 (NewCacheManager (V := string) 2 7 1) ∧
  ∀ fuel key v c', Set_ fuel (NewCacheManager (V := string) 2 7 1) key v ≠ Done c'.
Proof.
  split; [apply reach_new|].
  destruct (k1_Set_aborts 2 7 (NewCacheManager (V := string) 2 7 1) (reach_new 2 7 1))
    as (_ & _ & H & _).
  exact H.
Defined.

End CacheFacts.
